(** * KernelSight-AI: the eBPF tracers and their consumers

    A shallow embedding of the four tracers under [src/telemetry/ebpf]:
    the high-latency syscall tracer ([syscall_tracer.bpf.c]), the block
    I/O latency tracer ([io_latency_tracer.bpf.c]) with its user-space
    consumer ([io_latency_tracer.c]), and the scheduler tracer
    ([sched_tracer.bpf.c]).

    Conventions.
    - A [__u32] or [__u64] is a [Z]; every C operation that can wrap is
      written with [to_u32] or [to_u64].
    - A BPF hash map is a [gmap] together with its [max_entries]; a
      per-CPU array value is the list of the per-CPU copies.
    - What a handler reads from its environment (the tracepoint context,
      the clock, the running CPU, whether the ring buffer has room for one
      more record) is gathered in a context record given to the handler.
    - The ring buffer is the list of the records submitted so far, oldest
      first.
    - A C [double] is an IEEE 754 binary64 number (see [Binary64]). *)

From Stdlib Require Import ZArith QArith Qpower Qround Lia Lqa Zpower Permutation Ascii.
From Stdlib Require Import Floats.SpecFloat.
From stdpp Require Import base option list gmap strings.

Local Open Scope Z_scope.

(** ** Machine integers *)

Definition to_u32 (z : Z) : Z := z mod 2 ^ 32.
Definition to_u64 (z : Z) : Z := z mod 2 ^ 64.

(** ** BPF hash maps

    [bpf_map_update_elem(map, key, value, BPF_ANY)] on a
    [BPF_MAP_TYPE_HASH]: an existing key is overwritten; a new key is
    inserted unless the map already holds [max_entries] keys, in which
    case the call fails and the map is left as it was (no caller in this
    repository looks at the return code). *)

Section HashMap.
Context {K : Type} `{Countable K} {V : Type}.

Definition bpf_map_update_elem (max_entries : nat) (m : gmap K V) (k : K) (v : V)
  : gmap K V :=
  match m !! k with
  | Some _ => <[k := v]> m
  | None => if decide (size m < max_entries)%nat then <[k := v]> m else m
  end.

Definition bpf_map_lookup_elem (m : gmap K V) (k : K) : option V := m !! k.

Definition bpf_map_delete_elem (m : gmap K V) (k : K) : gmap K V := delete k m.
End HashMap.

(** ** syscall_tracer.bpf.c *)

Module SyscallTracer.

Definition LATENCY_THRESHOLD_NS : Z := 10000000.
Definition syscall_start_max_entries : nat := Z.to_nat 8192.

Record syscall_event := {
  timestamp : Z;
  pid : Z;
  tid : Z;
  syscall_nr : Z;
  latency_ns : Z;
  ret_value : Z;
  arg0 : Z;
  cpu : Z;
  uid : Z;
  is_error : Z;
  comm : string
}.

Record syscall_entry_data := {
  entry_timestamp : Z;
  entry_arg0 : Z
}.

(** The two maps of the program. *)
Record syscall_maps := {
  syscall_start : gmap Z syscall_entry_data;
  events : list syscall_event
}.

(** What [trace_syscall_enter] reads: [bpf_get_current_pid_tgid()],
    [bpf_ktime_get_ns()] and [ctx->args[0]]. *)
Record sys_enter := {
  enter_pid_tgid : Z;
  enter_ktime : Z;
  enter_args0 : Z
}.

(** What [trace_syscall_exit] reads: the helpers' results, [ctx->id],
    [ctx->ret] (a signed 64-bit value) and whether
    [bpf_ringbuf_reserve] finds room. *)
Record sys_exit := {
  exit_pid_tgid : Z;
  exit_ktime : Z;
  exit_id : Z;
  exit_ret : Z;
  exit_cpu : Z;
  exit_uid_gid : Z;
  exit_comm : string;
  exit_reserve_ok : bool
}.

Definition trace_syscall_enter (ctx : sys_enter) (st : syscall_maps) : syscall_maps :=
  let tid := enter_pid_tgid ctx in
  let tid_key := to_u32 tid in
  let entry_data :=
    {| entry_timestamp := enter_ktime ctx; entry_arg0 := enter_args0 ctx |} in
  {| syscall_start :=
       bpf_map_update_elem syscall_start_max_entries (syscall_start st) tid_key entry_data;
     events := events st |}.

(** Lines 82-88 of [trace_syscall_exit]: the lookup of the entry record
    and the latency computed from it. *)
Definition correlate (st : syscall_maps) (tid end_ts : Z) : option (syscall_entry_data * Z) :=
  match bpf_map_lookup_elem (syscall_start st) tid with
  | None => None
  | Some entry_data => Some (entry_data, to_u64 (end_ts - entry_timestamp entry_data))
  end.

Definition trace_syscall_exit (ctx : sys_exit) (st : syscall_maps) : syscall_maps :=
  let tid_pid := exit_pid_tgid ctx in
  let tid := to_u32 tid_pid in
  let pid := to_u32 (Z.shiftr tid_pid 32) in
  let end_ts := exit_ktime ctx in
  match correlate st tid end_ts with
  | None => st
  | Some (entry_data, latency) =>
      if latency <? LATENCY_THRESHOLD_NS then
        {| syscall_start := bpf_map_delete_elem (syscall_start st) tid;
           events := events st |}
      else if negb (exit_reserve_ok ctx) then
        {| syscall_start := bpf_map_delete_elem (syscall_start st) tid;
           events := events st |}
      else
        let event :=
          {| timestamp := end_ts;
             pid := pid;
             tid := tid;
             syscall_nr := to_u32 (exit_id ctx);
             latency_ns := latency;
             ret_value := exit_ret ctx;
             is_error := if exit_ret ctx <? 0 then 1 else 0;
             cpu := exit_cpu ctx;
             uid := Z.land (exit_uid_gid ctx) 4294967295;
             arg0 := entry_arg0 entry_data;
             comm := exit_comm ctx |} in
        {| syscall_start := bpf_map_delete_elem (syscall_start st) tid;
           events := events st ++ [event] |}
  end.

(** A scenario: thread 7 of process 1 enters a syscall with first
    argument 42 at time 0, with nothing tracked before, and leaves it
    at time [now] with return value [ret]. *)
Definition no_maps : syscall_maps := {| syscall_start := ∅; events := [] |}.

Definition enter_sample : sys_enter :=
  {| enter_pid_tgid := 4294967303; enter_ktime := 0; enter_args0 := 42 |}.

Definition exit_sample (now ret : Z) (room : bool) : sys_exit :=
  {| exit_pid_tgid := 4294967303; exit_ktime := now; exit_id := 1; exit_ret := ret;
     exit_cpu := 0; exit_uid_gid := 1000; exit_comm := "cat";
     exit_reserve_ok := room |}.

End SyscallTracer.

(** ** The statistics shared by io_latency_tracer.bpf.c and io_latency_tracer.c *)

Module IoStats.

Definition MAX_SLOTS : Z := 32.

(** [struct hist]: the 32 [__u32] slot counters. *)
Record hist := { slots : list Z }.

Record io_stats := {
  read_hist : hist;
  write_hist : hist;
  read_count : Z;
  write_count : Z;
  read_bytes : Z;
  write_bytes : Z
}.

(** [h->slots[i]] *)
Definition slot (h : hist) (i : Z) : Z := default 0 (slots h !! Z.to_nat i).

(** A zero-initialised histogram and statistics block
    ([calloc], [memset(.., 0, ..)]). *)
Definition zero_hist : hist := {| slots := replicate (Z.to_nat MAX_SLOTS) 0 |}.

Definition zero_stats : io_stats :=
  {| read_hist := zero_hist; write_hist := zero_hist;
     read_count := 0; write_count := 0; read_bytes := 0; write_bytes := 0 |}.

(** The values a [struct hist] can hold. *)
Definition hist_ok (h : hist) : Prop :=
  length (slots h) = Z.to_nat MAX_SLOTS /\ Forall (fun c => 0 <= c < 2 ^ 32) (slots h).

(** The number of events a histogram has counted. *)
Definition hist_total (h : hist) : Z := foldr Z.add 0 (slots h).

(** The histogram with [n] events in slot [i] and none elsewhere. *)
Definition single_slot (i n : Z) : hist :=
  {| slots := <[Z.to_nat i := n]> (replicate (Z.to_nat MAX_SLOTS) 0) |}.

End IoStats.

(** ** io_latency_tracer.bpf.c *)

Module IoLatencyBpf.
Import IoStats.

Definition io_start_map_max_entries : nat := Z.to_nat 10240.
Definition io_stats_map_max_entries : Z := 1.

(** [struct request_key] is the pair (dev, sector); [struct io_start]
    is its one field, the issue time. *)
Record io_maps := {
  io_start_map : gmap (Z * Z) Z;
  io_stats_map : list io_stats
}.

(** One round of the unrolled bit scan of [log2], for loop index [i]. *)
Definition log2_round (acc : Z * Z) (i : Z) : Z * Z :=
  let '(slot, temp) := acc in
  let shift := Z.shiftl 1 i in
  if Z.shiftl 1 shift <=? temp then (slot + shift, Z.shiftr temp shift)
  else (slot, temp).

(** [slot] never exceeds 32+16+8+4+2+1, so its [__u32] addition does
    not wrap. *)
Definition log2 (v : Z) : Z :=
  if v =? 0 then 0
  else
    let '(slot, _) := fold_left log2_round [5; 4; 3; 2; 1; 0] (0, v) in
    if MAX_SLOTS <=? slot then MAX_SLOTS - 1 else slot.

(** The fields of the two tracepoint contexts that the handlers read,
    with the clock and the CPU the handler runs on. *)
Record block_rq_issue := {
  issue_dev : Z;
  issue_sector : Z;
  issue_ktime : Z
}.

Record block_rq_complete := {
  dev : Z;
  sector : Z;
  nr_sector : Z;
  rwbs : string;
  complete_ktime : Z;
  complete_cpu : nat
}.

Definition trace_block_rq_issue (ctx : block_rq_issue) (st : io_maps) : io_maps :=
  let key := (issue_dev ctx, issue_sector ctx) in
  let start := issue_ktime ctx in
  {| io_start_map := bpf_map_update_elem io_start_map_max_entries (io_start_map st) key start;
     io_stats_map := io_stats_map st |}.

(** [ctx->rwbs[0]]; an empty operation string starts with its NUL. *)
Definition rwbs0 (s : string) : Ascii.ascii :=
  match s with
  | String c _ => c
  | EmptyString => Ascii.zero
  end.

(** [bpf_map_lookup_elem] on the per-CPU array: the copy of the running
    CPU, for an index below [max_entries]. *)
Definition percpu_lookup (values : list io_stats) (cpu : nat) (key : Z) : option io_stats :=
  if key <? io_stats_map_max_entries then values !! cpu else None.

(** [__sync_fetch_and_add(&h.slots[slot], 1)] *)
Definition hist_incr (h : hist) (i : Z) : hist :=
  {| slots := <[Z.to_nat i := to_u32 (slot h i + 1)]> (slots h) |}.

Definition trace_block_rq_complete (ctx : block_rq_complete) (st : io_maps) : io_maps :=
  let key := (dev ctx, sector ctx) in
  match bpf_map_lookup_elem (io_start_map st) key with
  | None => st
  | Some start =>
      let end_ts := complete_ktime ctx in
      let latency_ns := to_u64 (end_ts - start) in
      let latency_us := latency_ns / 1000 in
      let op := rwbs0 (rwbs ctx) in
      let is_read := Ascii.eqb op "R"%char in
      let stats_key := 0 in
      match percpu_lookup (io_stats_map st) (complete_cpu ctx) stats_key with
      | None =>
          {| io_start_map := bpf_map_delete_elem (io_start_map st) key;
             io_stats_map := io_stats_map st |}
      | Some stats =>
          let slot := log2 latency_us in
          let stats' :=
            if is_read then
              {| read_hist := hist_incr (read_hist stats) slot;
                 write_hist := write_hist stats;
                 read_count := to_u64 (read_count stats + 1);
                 write_count := write_count stats;
                 read_bytes := to_u64 (read_bytes stats + to_u32 (nr_sector ctx * 512));
                 write_bytes := write_bytes stats |}
            else
              {| read_hist := read_hist stats;
                 write_hist := hist_incr (write_hist stats) slot;
                 read_count := read_count stats;
                 write_count := to_u64 (write_count stats + 1);
                 read_bytes := read_bytes stats;
                 write_bytes := to_u64 (write_bytes stats + to_u32 (nr_sector ctx * 512)) |} in
          {| io_start_map := bpf_map_delete_elem (io_start_map st) key;
             io_stats_map := <[complete_cpu ctx := stats']> (io_stats_map st) |}
      end
  end.

(** A scenario: on a one-CPU machine, a flush of 8 sectors issued at
    time 0 on device 8, sector 2048, and completed 1.5 ms later. *)
Definition issued_maps : io_maps :=
  trace_block_rq_issue {| issue_dev := 8; issue_sector := 2048; issue_ktime := 0 |}
    {| io_start_map := ∅; io_stats_map := [zero_stats] |}.

Definition flush_complete : block_rq_complete :=
  {| dev := 8; sector := 2048; nr_sector := 8; rwbs := "FF";
     complete_ktime := 1500000; complete_cpu := 0%nat |}.

End IoLatencyBpf.

(** ** C [double]: IEEE 754 binary64

    The arithmetic of [double] is the Standard Library's executable
    specification of IEEE 754 ([SpecFloat], the one the primitive
    floats of Rocq are specified by) at precision 53 and maximal
    exponent 1024: every operation rounds to nearest, ties to even. *)

Module Binary64.

Definition prec : Z := 53.
Definition emax : Z := 1024.

Definition double : Type := spec_float.

(** [(double)n] for an integer [n]; also the literals [50.0], [95.0],
    [99.0] and [100.0], which are integers. *)
Definition double_of_Z (n : Z) : double := binary_normalize prec emax n 0 false.

Definition double_mul (x y : double) : double := SFmul prec emax x y.
Definition double_div (x y : double) : double := SFdiv prec emax x y.

(** The number a finite [double] stands for. *)
Definition double_value (x : double) : option Q :=
  match x with
  | S754_zero _ => Some 0%Q
  | S754_finite s m e =>
      Some ((if s then - inject_Z (Zpos m) else inject_Z (Zpos m)) * 2 ^ e)%Q
  | _ => None
  end.

(** [(unsigned long long)x]: the fractional part is dropped; C leaves
    the conversion undefined when the integral part is not a value of
    the type (and for an infinity or a NaN). *)
Definition ull_of_double (x : double) : option Z :=
  match x with
  | S754_zero _ => Some 0
  | S754_finite s m e =>
      let t := if 0 <=? e then Zpos m * 2 ^ e else Zpos m / 2 ^ (- e) in
      if s then (if t =? 0 then Some 0 else None)
      else if t <? 2 ^ 64 then Some t else None
  | _ => None
  end.

(** The record of a right shift brackets the exact value [num / den]:
    its mantissa is the integral part, and a round or sticky bit is set
    only when the value is not that integer. *)
Definition shr_brackets (mrs : shr_record) (num den : Z) : Prop :=
  0 <= shr_m mrs /\
  shr_m mrs * den <= num < (shr_m mrs + 1) * den /\
  (shr_r mrs || shr_s mrs = true -> shr_m mrs * den < num).

(** The record of a right shift locates the exact value [num / den]
    between its mantissa and the next integer: the round bit says
    whether the value is at least half-way, the sticky bit whether it
    is off the integer and the half. *)
Definition shr_located (mrs : shr_record) (num den : Z) : Prop :=
  0 <= shr_m mrs /\
  shr_m mrs * den <= num < (shr_m mrs + 1) * den /\
  (shr_r mrs = true <-> (2 * shr_m mrs + 1) * den <= 2 * num) /\
  (shr_s mrs = false <->
   (num = shr_m mrs * den \/ 2 * num = (2 * shr_m mrs + 1) * den)).

(** [R * 2^q] is the value [x] rounded to the nearest number of the
    format, ties to the even mantissa: [q] is the exponent of the
    format at [x], [f] the integral part of [x / 2^q]. *)
Definition nearest_even (x : Q) (q f R : Z) : Prop :=
  -1074 <= q /\ 0 <= f < 2 ^ 53 /\ (-1074 < q -> 2 ^ 52 <= f) /\
  (inject_Z f * 2 ^ q <= x)%Q /\ (x < inject_Z (f + 1) * 2 ^ q)%Q /\
  (R = f \/ R = f + 1) /\
  (R = f + 1 <->
   (inject_Z (2 * f + 1) * 2 ^ q < (2 # 1) * x)%Q \/
   ((inject_Z (2 * f + 1) * 2 ^ q == (2 # 1) * x)%Q /\ Z.odd f = true)).

(** The [double] nearest to 0.3, the value of the literal [0.3]. *)
Definition three_tenths : double := S754_finite false 5404319552844595 (-54).

End Binary64.

(** ** io_latency_tracer.c

    The consumer computes in [double].  The target of a percentile,
    [(unsigned long long)(total * percentile / 100.0)], is computed as
    the program computes it, in binary64: [total] is converted to
    [double], and the product and the quotient are each rounded
    ([Binary64]).  The values the functions return are bucket midpoints
    and bucket bounds: integers below [2^53] or halves of such, which a
    [double] holds exactly and which no operation on them rounds; they
    are given as the rationals they are. *)

Module IoLatencyUser.
Import IoStats Binary64.

(** The three [return] statements of [calculate_percentile]. *)
Inductive return_site :=
| ReturnZeroTotal
| ReturnInLoop (i : Z)
| ReturnAfterLoop.

(** [(bucket_start + bucket_end) / 2.0] for bucket [i] *)
Definition bucket_midpoint (i : Z) : Q :=
  let bucket_start := if i =? 0 then 0 else to_u64 (Z.shiftl 1 i) in
  let bucket_end := to_u64 (Z.shiftl 1 (i + 1)) in
  (inject_Z (to_u64 (bucket_start + bucket_end)) / (2 # 1))%Q.

(** The [for] loop of [calculate_percentile] over the indices still to
    visit, and the [return] after it. *)
Fixpoint percentile_loop (h : hist) (target : Z) (idx : list Z) (cumulative : Z)
  : return_site * Q :=
  match idx with
  | [] => (ReturnAfterLoop, (inject_Z (to_u64 (Z.shiftl 1 MAX_SLOTS)) / (2 # 1))%Q)
  | i :: rest =>
      let cumulative := to_u64 (cumulative + slot h i) in
      if target <=? cumulative then (ReturnInLoop i, bucket_midpoint i)
      else percentile_loop h target rest cumulative
  end.

(** [(unsigned long long)(total * percentile / 100.0)]: [total] is
    converted to [double] for the product. *)
Definition percentile_target (total : Z) (percentile : double) : option Z :=
  ull_of_double
    (double_div (double_mul (double_of_Z total) percentile) (double_of_Z 100)).

(** [calculate_percentile], with the [return] statement it leaves by;
    [None] when the conversion of the target is undefined. *)
Definition calculate_percentile_at (h : hist) (total : Z) (percentile : double)
  : option (return_site * Q) :=
  if total =? 0 then Some (ReturnZeroTotal, 0%Q)
  else
    target ← percentile_target total percentile;
    Some (percentile_loop h target (seqZ 0 MAX_SLOTS) 0).

Definition calculate_percentile (h : hist) (total : Z) (percentile : double) : option Q :=
  snd <$> calculate_percentile_at h total percentile.

Fixpoint max_latency_loop (h : hist) (idx : list Z) : Q :=
  match idx with
  | [] => 0%Q
  | i :: rest =>
      if 0 <? slot h i then inject_Z (to_u64 (Z.shiftl 1 (i + 1)))
      else max_latency_loop h rest
  end.

Definition get_max_latency (h : hist) : Q :=
  max_latency_loop h (reverse (seqZ 0 MAX_SLOTS)).

(** The fields of the JSON line that [print_stats] writes (the
    formatted local time, the constant interval and the type tag are
    left out). *)
Record io_line := {
  line_timestamp : Z;
  line_read_count : Z;
  line_read_bytes : Z;
  read_p50_us : Q;
  read_p95_us : Q;
  read_p99_us : Q;
  read_max_us : Q;
  line_write_count : Z;
  line_write_bytes : Z;
  write_p50_us : Q;
  write_p95_us : Q;
  write_p99_us : Q;
  write_max_us : Q
}.

(** One direction of [print_stats]: p50, p95, p99 and max, all left at
    0 when the direction saw no operation. *)
Definition direction_latencies (h : hist) (count : Z) : option (Q * Q * Q * Q) :=
  if 0 <? count then
    p50 ← calculate_percentile h count (double_of_Z 50);
    p95 ← calculate_percentile h count (double_of_Z 95);
    p99 ← calculate_percentile h count (double_of_Z 99);
    Some (p50, p95, p99, get_max_latency h)
  else Some (0%Q, 0%Q, 0%Q, 0%Q).

Definition print_stats (stats : io_stats) (timestamp : Z) : option io_line :=
  r ← direction_latencies (read_hist stats) (read_count stats);
  w ← direction_latencies (write_hist stats) (write_count stats);
  let '(read_p50, read_p95, read_p99, read_max) := r in
  let '(write_p50, write_p95, write_p99, write_max) := w in
  Some {| line_timestamp := timestamp;
          line_read_count := read_count stats;
          line_read_bytes := read_bytes stats;
          read_p50_us := read_p50;
          read_p95_us := read_p95;
          read_p99_us := read_p99;
          read_max_us := read_max;
          line_write_count := write_count stats;
          line_write_bytes := write_bytes stats;
          write_p50_us := write_p50;
          write_p95_us := write_p95;
          write_p99_us := write_p99;
          write_max_us := write_max |}.

(** The user-space [bpf_map_lookup_elem] and [bpf_map_update_elem] on
    the per-CPU array read and write all per-CPU copies of the entry at
    [key] at once; the array has the single index 0. *)
Definition percpu_read (values : list io_stats) (key : Z) : option (list io_stats) :=
  if key <? 1 then Some values else None.

Definition percpu_write (values : list io_stats) (key : Z) (new : list io_stats)
  : list io_stats :=
  if key <? 1 then new else values.

(** [merged->slots[i] += cpu->slots[i]] for the 32 indices *)
Definition hist_add (merged cpu : hist) : hist :=
  {| slots := (fun i => to_u32 (slot merged i + slot cpu i)) <$> seqZ 0 MAX_SLOTS |}.

(** The body of the loop over the CPUs in [merge_stats]. *)
Definition merge_cpu (merged cpu : io_stats) : io_stats :=
  {| read_count := to_u64 (read_count merged + read_count cpu);
     write_count := to_u64 (write_count merged + write_count cpu);
     read_bytes := to_u64 (read_bytes merged + read_bytes cpu);
     write_bytes := to_u64 (write_bytes merged + write_bytes cpu);
     read_hist := hist_add (read_hist merged) (read_hist cpu);
     write_hist := hist_add (write_hist merged) (write_hist cpu) |}.

(** [merge_stats]: [calloc_ok] says whether the scratch buffer was
    allocated, [merged] is what the caller's variable held before. *)
Definition merge_stats (calloc_ok : bool) (io_stats_map : list io_stats) (merged : io_stats)
  : io_stats :=
  if negb calloc_ok then merged
  else
    match percpu_read io_stats_map 0 with
    | Some cpu_stats => fold_left merge_cpu cpu_stats zero_stats
    | None => zero_stats
    end.

Definition clear_stats (calloc_ok : bool) (io_stats_map : list io_stats) : list io_stats :=
  if negb calloc_ok then io_stats_map
  else percpu_write io_stats_map 0 (replicate (length io_stats_map) zero_stats).

(** What one turn of the loop of [main] takes from its environment:
    [time(NULL)], the outcome of the two [calloc]s and the
    uninitialised contents of [merged_stats]. *)
Record iteration_env := {
  time_now : Z;
  merge_calloc_ok : bool;
  clear_calloc_ok : bool;
  merged_before : io_stats
}.

(** One turn of the loop of [main], after its [sleep(1)]: the lines
    written to the output and the per-CPU statistics left behind. *)
Definition main_iteration (env : iteration_env) (io_stats_map : list io_stats)
  : option (list io_line * list io_stats) :=
  let timestamp := to_u64 (time_now env * 1000000000) in
  let merged_stats := merge_stats (merge_calloc_ok env) io_stats_map (merged_before env) in
  out ← (if (0 <? read_count merged_stats) || (0 <? write_count merged_stats)
         then line ← print_stats merged_stats timestamp; Some [line]
         else Some []);
  Some (out, clear_stats (clear_calloc_ok env) io_stats_map).

(** The element-wise sum the merge is compared with: the plain sum of
    one counter over all shards. *)
Definition sum_of (counter : io_stats -> Z) (shards : list io_stats) : Z :=
  foldr Z.add 0 (counter <$> shards).

(** A scenario: 2 events in slot 0 and 998 in slot 5. *)
Definition skewed_hist : hist :=
  {| slots := <[5%nat := 998]> (<[0%nat := 2]> (replicate (Z.to_nat MAX_SLOTS) 0)) |}.

(** A scenario: 60 events in slot 3 and 40 in slot 10. *)
Definition two_slot_hist : hist :=
  {| slots := <[10%nat := 40]> (<[3%nat := 60]> (replicate (Z.to_nat MAX_SLOTS) 0)) |}.

(** A scenario: a shard that counted [n] reads, all of them in slot 10. *)
Definition reads_in_slot_10 (n : Z) : io_stats :=
  {| read_hist := single_slot 10 n; write_hist := zero_hist;
     read_count := n; write_count := 0;
     read_bytes := to_u64 (n * 4096); write_bytes := 0 |}.

(** An environment in which [clear_stats] does not get its buffer. *)
Definition env_clear_fails : iteration_env :=
  {| time_now := 1700000000; merge_calloc_ok := true; clear_calloc_ok := false;
     merged_before := zero_stats |}.

(** An environment in which both allocations succeed. *)
Definition env_at (now : Z) (before : io_stats) : iteration_env :=
  {| time_now := now; merge_calloc_ok := true; clear_calloc_ok := true;
     merged_before := before |}.

End IoLatencyUser.

(** ** sched_tracer.bpf.c *)

Module SchedTracer.

Definition NSEC_PER_SEC : Z := 1000000000.
Definition map_max_entries : nat := Z.to_nat 10240.

Record bucket_stats := {
  time_bucket : Z;
  pid : Z;
  comm : string;
  context_switches : Z;
  voluntary_switches : Z;
  involuntary_switches : Z;
  wakeups : Z;
  cpu_time_ns : Z;
  total_timeslice_ns : Z;
  timeslice_count : Z
}.

Record process_state := {
  last_switch_ts : Z;
  last_bucket : Z;
  state_comm : string
}.

(** The three maps of the program; [struct bucket_key] is the pair
    (pid, time_bucket). *)
Record sched_maps := {
  process_state_map : gmap Z process_state;
  bucket_aggregates : gmap (Z * Z) bucket_stats;
  events : list bucket_stats
}.

Definition init : sched_maps :=
  {| process_state_map := ∅; bucket_aggregates := ∅; events := [] |}.

(** [emit_bucket_stats]: one record appended to the ring buffer, or
    nothing when the reservation fails.  The key is not used. *)
Definition emit_bucket_stats (reserve_ok : bool) (key : Z * Z) (stats : bucket_stats)
    (ring : list bucket_stats) : list bucket_stats :=
  if negb reserve_ok then ring
  else
    let event :=
      {| time_bucket := time_bucket stats;
         pid := pid stats;
         comm := comm stats;
         context_switches := context_switches stats;
         voluntary_switches := voluntary_switches stats;
         involuntary_switches := involuntary_switches stats;
         wakeups := wakeups stats;
         cpu_time_ns := cpu_time_ns stats;
         total_timeslice_ns := total_timeslice_ns stats;
         timeslice_count := timeslice_count stats |} in
    ring ++ [event].

(** The two branches of [update_bucket_stats]: the update of a bucket
    that exists, and the bucket made for a first event. *)
Definition updated_stats (stats : bucket_stats) (cpu_time : Z)
    (is_voluntary is_wakeup : bool) : bucket_stats :=
  if is_wakeup then
    {| time_bucket := time_bucket stats;
       pid := pid stats;
       comm := comm stats;
       context_switches := context_switches stats;
       voluntary_switches := voluntary_switches stats;
       involuntary_switches := involuntary_switches stats;
       wakeups := to_u64 (wakeups stats + 1);
       cpu_time_ns := cpu_time_ns stats;
       total_timeslice_ns := total_timeslice_ns stats;
       timeslice_count := timeslice_count stats |}
  else
    {| time_bucket := time_bucket stats;
       pid := pid stats;
       comm := comm stats;
       context_switches := to_u64 (context_switches stats + 1);
       voluntary_switches :=
         if is_voluntary then to_u64 (voluntary_switches stats + 1)
         else voluntary_switches stats;
       involuntary_switches :=
         if is_voluntary then involuntary_switches stats
         else to_u64 (involuntary_switches stats + 1);
       wakeups := wakeups stats;
       cpu_time_ns := to_u64 (cpu_time_ns stats + cpu_time);
       total_timeslice_ns := to_u64 (total_timeslice_ns stats + cpu_time);
       timeslice_count := to_u32 (timeslice_count stats + 1) |}.

Definition new_stats (pid0 bucket0 cpu_time : Z) (is_voluntary is_wakeup : bool)
    (comm' : string) : bucket_stats :=
  {| time_bucket := bucket0;
     pid := pid0;
     context_switches := if is_wakeup then 0 else 1;
     voluntary_switches := if is_wakeup || negb is_voluntary then 0 else 1;
     involuntary_switches := if is_wakeup || is_voluntary then 0 else 1;
     wakeups := if is_wakeup then 1 else 0;
     cpu_time_ns := cpu_time;
     total_timeslice_ns := cpu_time;
     timeslice_count := if is_wakeup then 0 else 1;
     comm := comm' |}.

(** [update_bucket_stats]: an existing bucket is updated in place
    through the pointer the lookup returned; a new one is inserted. *)
Definition update_bucket_stats (pid0 bucket0 cpu_time : Z) (is_voluntary is_wakeup : bool)
    (comm' : string) (buckets : gmap (Z * Z) bucket_stats) : gmap (Z * Z) bucket_stats :=
  let key := (pid0, bucket0) in
  match bpf_map_lookup_elem buckets key with
  | Some stats =>
      <[key := updated_stats stats cpu_time is_voluntary is_wakeup]> buckets
  | None =>
      bpf_map_update_elem map_max_entries buckets key
        (new_stats pid0 bucket0 cpu_time is_voluntary is_wakeup comm')
  end.

(** What [trace_sched_switch] reads: the clock, the fields of the
    tracepoint and whether the ring buffer has room. *)
Record sched_switch := {
  switch_ktime : Z;
  prev_pid : Z;
  prev_state : Z;
  prev_comm : string;
  next_pid : Z;
  next_comm : string;
  switch_reserve_ok : bool
}.

Record sched_wakeup := {
  wakeup_ktime : Z;
  wakeup_pid : Z;
  wakeup_comm : string
}.

(** The first half of [trace_sched_switch]: the outgoing task. *)
Definition switch_out (ctx : sched_switch) (st : sched_maps) : sched_maps :=
  let now := switch_ktime ctx in
  let time_bucket := now / NSEC_PER_SEC in
  let prev_pid := to_u32 (prev_pid ctx) in
  let prev_state := to_u32 (prev_state ctx) in
  let is_voluntary := negb (prev_state =? 0) in
  if 0 <? prev_pid then
    let '(cpu_time, st1) :=
      match bpf_map_lookup_elem (process_state_map st) prev_pid with
      | Some state =>
          let cpu_time :=
            if 0 <? last_switch_ts state then to_u64 (now - last_switch_ts state) else 0 in
          let '(buckets, ring) :=
            if negb (last_bucket state =? 0) && negb (last_bucket state =? time_bucket) then
              let old_key := (prev_pid, last_bucket state) in
              match bpf_map_lookup_elem (bucket_aggregates st) old_key with
              | Some old_stats =>
                  (bpf_map_delete_elem (bucket_aggregates st) old_key,
                   emit_bucket_stats (switch_reserve_ok ctx) old_key old_stats (events st))
              | None => (bucket_aggregates st, events st)
              end
            else (bucket_aggregates st, events st) in
          (cpu_time,
           {| process_state_map :=
                <[prev_pid := {| last_switch_ts := last_switch_ts state;
                                 last_bucket := time_bucket;
                                 state_comm := state_comm state |}]> (process_state_map st);
              bucket_aggregates := buckets;
              events := ring |})
      | None =>
          let new_state :=
            {| last_switch_ts := 0; last_bucket := time_bucket;
               state_comm := prev_comm ctx |} in
          (0,
           {| process_state_map :=
                bpf_map_update_elem map_max_entries (process_state_map st) prev_pid new_state;
              bucket_aggregates := bucket_aggregates st;
              events := events st |})
      end in
    {| process_state_map := process_state_map st1;
       bucket_aggregates :=
         update_bucket_stats prev_pid time_bucket cpu_time is_voluntary false
           (prev_comm ctx) (bucket_aggregates st1);
       events := events st1 |}
  else st.

(** The second half of [trace_sched_switch]: the incoming task. *)
Definition switch_in (ctx : sched_switch) (st : sched_maps) : sched_maps :=
  let now := switch_ktime ctx in
  let time_bucket := now / NSEC_PER_SEC in
  let next_pid := to_u32 (next_pid ctx) in
  if 0 <? next_pid then
    match bpf_map_lookup_elem (process_state_map st) next_pid with
    | Some next_state =>
        {| process_state_map :=
             <[next_pid := {| last_switch_ts := now;
                              last_bucket := last_bucket next_state;
                              state_comm := state_comm next_state |}]> (process_state_map st);
           bucket_aggregates := bucket_aggregates st;
           events := events st |}
    | None =>
        let new_state :=
          {| last_switch_ts := now; last_bucket := time_bucket;
             state_comm := next_comm ctx |} in
        {| process_state_map :=
             bpf_map_update_elem map_max_entries (process_state_map st) next_pid new_state;
           bucket_aggregates := bucket_aggregates st;
           events := events st |}
    end
  else st.

Definition trace_sched_switch (ctx : sched_switch) (st : sched_maps) : sched_maps :=
  switch_in ctx (switch_out ctx st).

Definition trace_sched_wakeup (ctx : sched_wakeup) (st : sched_maps) : sched_maps :=
  let now := wakeup_ktime ctx in
  let time_bucket := now / NSEC_PER_SEC in
  let pid := wakeup_pid ctx in
  if pid =? 0 then st
  else
    {| process_state_map := process_state_map st;
       bucket_aggregates :=
         update_bucket_stats pid time_bucket 0 false true (wakeup_comm ctx)
           (bucket_aggregates st);
       events := events st |}.

(** The tracepoints fire one after the other; a run of the tracer is
    the list of the firings, starting from empty maps. *)
Inductive firing :=
| SchedSwitch (ctx : sched_switch)
| SchedWakeup (ctx : sched_wakeup).

Definition fire (st : sched_maps) (f : firing) : sched_maps :=
  match f with
  | SchedSwitch ctx => trace_sched_switch ctx st
  | SchedWakeup ctx => trace_sched_wakeup ctx st
  end.

Definition run (fs : list firing) : sched_maps := fold_left fire fs init.

Definition ktime (f : firing) : Z :=
  match f with
  | SchedSwitch ctx => switch_ktime ctx
  | SchedWakeup ctx => wakeup_ktime ctx
  end.

(** The entity and window a firing is accounted to: the outgoing task
    of a switch, the woken task of a wakeup. *)
Definition accounted (f : firing) (p w : Z) : Prop :=
  match f with
  | SchedSwitch ctx =>
      to_u32 (prev_pid ctx) = p /\ switch_ktime ctx / NSEC_PER_SEC = w
  | SchedWakeup ctx =>
      wakeup_pid ctx = p /\ wakeup_ktime ctx / NSEC_PER_SEC = w
  end.

(** The clock never goes back between two firings. *)
Fixpoint clock_monotone (fs : list firing) : Prop :=
  match fs with
  | [] => True
  | f :: rest => Forall (fun g => ktime f <= ktime g) rest /\ clock_monotone rest
  end.

(** The (entity, window) pairs of the records submitted so far. *)
Definition emitted_keys (st : sched_maps) : list (Z * Z) :=
  (fun b => (pid b, time_bucket b)) <$> events st.

(** What holds of the counters of every bucket after [n] firings. *)
Definition stats_ok (n : Z) (b : bucket_stats) : Prop :=
  0 <= voluntary_switches b /\ 0 <= involuntary_switches b /\
  voluntary_switches b + involuntary_switches b <= n /\
  context_switches b = to_u64 (voluntary_switches b + involuntary_switches b) /\
  timeslice_count b = to_u32 (context_switches b) /\
  cpu_time_ns b = total_timeslice_ns b.

(** What holds of the maps after the firings [fs] under a monotone
    clock: a bucket is stored under its own entity and window, and some
    firing was accounted to them; a submitted record is of a window
    before the last one seen for its entity, and some firing was
    accounted to it; the last window seen for an entity is the window of
    some firing; no (entity, window) pair was submitted twice. *)
Definition rollover_invariant (fs : list firing) (st : sched_maps) : Prop :=
  (forall k b, bucket_aggregates st !! k = Some b ->
     pid b = k.1 /\ time_bucket b = k.2 /\
     exists f, f ∈ fs /\ accounted f k.1 k.2) /\
  (forall b, b ∈ events st ->
     (exists f, f ∈ fs /\ accounted f (pid b) (time_bucket b)) /\
     exists s, process_state_map st !! pid b = Some s /\ time_bucket b < last_bucket s) /\
  (forall p s, process_state_map st !! p = Some s ->
     exists f, f ∈ fs /\ last_bucket s = ktime f / NSEC_PER_SEC) /\
  NoDup (emitted_keys st).

(** Scenarios for task 100: a switch away from it to task 200 at time
    [now], and a wakeup of it. *)
Definition switch_away (now : Z) (room : bool) : firing :=
  SchedSwitch {| switch_ktime := now; prev_pid := 100; prev_state := 1;
                 prev_comm := "worker"; next_pid := 200; next_comm := "other";
                 switch_reserve_ok := room |}.

Definition wake (now : Z) : firing :=
  SchedWakeup {| wakeup_ktime := now; wakeup_pid := 100; wakeup_comm := "worker" |}.

(** The bucket of task 100 for window [w] after one voluntary switch
    with no time slice measured yet. *)
Definition one_switch (w : Z) : bucket_stats :=
  new_stats 100 w 0 true false "worker".

End SchedTracer.

(** ** page_fault_tracer.bpf.c *)

Module PageFaultTracer.

Definition VM_FAULT_MAJOR : Z := 4.
Definition fault_start_max_entries : nat := Z.to_nat 8192.

Record page_fault_event := {
  event_timestamp : Z;
  event_pid : Z;
  event_tid : Z;
  event_address : Z;
  event_latency_ns : Z;
  event_cpu : Z;
  is_major : Z;
  event_is_write : Z;
  event_is_kernel : Z;
  is_instruction : Z;
  event_comm : string
}.

Record fault_entry := {
  timestamp : Z;
  address : Z;
  pid : Z;
  tid : Z;
  cpu : Z;
  is_write : Z;
  is_kernel : Z;
  comm : string
}.

Record fault_maps := {
  fault_start : gmap Z fault_entry;
  fault_events : list page_fault_event
}.

(** What [trace_mm_fault_entry] reads: the helpers' results and the
    [address] and [flags] arguments of [handle_mm_fault]. *)
Record mm_fault_call := {
  call_pid_tgid : Z;
  call_ktime : Z;
  call_address : Z;
  call_flags : Z;
  call_cpu : Z;
  call_comm : string
}.

(** What [trace_mm_fault_exit] reads: the helpers' results, the return
    value of [handle_mm_fault] and whether the ring buffer has room. *)
Record mm_fault_return := {
  return_pid_tgid : Z;
  return_ktime : Z;
  retval : Z;
  return_reserve_ok : bool
}.

Definition trace_mm_fault_entry (ctx : mm_fault_call) (st : fault_maps) : fault_maps :=
  let tid_pid := call_pid_tgid ctx in
  let tid0 := to_u32 tid_pid in
  let pid0 := to_u32 (Z.shiftr tid_pid 32) in
  let entry :=
    {| timestamp := call_ktime ctx;
       address := call_address ctx;
       pid := pid0;
       tid := tid0;
       cpu := call_cpu ctx;
       is_write := if Z.land (call_flags ctx) 1 =? 0 then 0 else 1;
       is_kernel := if Z.land (call_flags ctx) 4 =? 0 then 1 else 0;
       comm := call_comm ctx |} in
  {| fault_start := bpf_map_update_elem fault_start_max_entries (fault_start st) tid0 entry;
     fault_events := fault_events st |}.

Definition trace_mm_fault_exit (ctx : mm_fault_return) (st : fault_maps) : fault_maps :=
  let tid_pid := return_pid_tgid ctx in
  let tid0 := to_u32 tid_pid in
  match bpf_map_lookup_elem (fault_start st) tid0 with
  | None => st
  | Some entry =>
      let now := return_ktime ctx in
      let latency_ns := to_u64 (now - timestamp entry) in
      if negb (return_reserve_ok ctx) then
        {| fault_start := bpf_map_delete_elem (fault_start st) tid0;
           fault_events := fault_events st |}
      else
        let event :=
          {| event_timestamp := timestamp entry;
             event_pid := pid entry;
             event_tid := tid entry;
             event_address := address entry;
             event_latency_ns := latency_ns;
             event_cpu := cpu entry;
             is_major := if Z.land (retval ctx) VM_FAULT_MAJOR =? 0 then 0 else 1;
             event_is_write := is_write entry;
             event_is_kernel := is_kernel entry;
             is_instruction := 0;
             event_comm := comm entry |} in
        {| fault_start := bpf_map_delete_elem (fault_start st) tid0;
           fault_events := fault_events st ++ [event] |}
  end.

(** The two probes fire one after the other, starting from empty maps. *)
Inductive fault_firing :=
| FaultCall (ctx : mm_fault_call)
| FaultReturn (ctx : mm_fault_return).

Definition fault_fire (st : fault_maps) (f : fault_firing) : fault_maps :=
  match f with
  | FaultCall ctx => trace_mm_fault_entry ctx st
  | FaultReturn ctx => trace_mm_fault_exit ctx st
  end.

Definition fault_run (fs : list fault_firing) : fault_maps :=
  fold_left fault_fire fs {| fault_start := ∅; fault_events := [] |}.

(** A scenario: thread 7 of process 1 takes a user-mode write fault at
    time 1000 that is handled in 250 ns and needed disk I/O. *)
Definition fault_call_sample : mm_fault_call :=
  {| call_pid_tgid := 4294967303; call_ktime := 1000; call_address := 4096;
     call_flags := 5; call_cpu := 2; call_comm := "cat" |}.

Definition fault_return_sample : mm_fault_return :=
  {| return_pid_tgid := 4294967303; return_ktime := 1250; retval := 4;
     return_reserve_ok := true |}.

End PageFaultTracer.

(** ** Runs of the syscall tracer and of the block I/O tracer *)

Module SyscallRun.
Import SyscallTracer.

Inductive syscall_firing :=
| SysEnter (ctx : sys_enter)
| SysExit (ctx : sys_exit).

Definition syscall_fire (st : syscall_maps) (f : syscall_firing) : syscall_maps :=
  match f with
  | SysEnter ctx => trace_syscall_enter ctx st
  | SysExit ctx => trace_syscall_exit ctx st
  end.

Definition syscall_run (fs : list syscall_firing) : syscall_maps :=
  fold_left syscall_fire fs no_maps.

End SyscallRun.

Module BlockRun.
Import IoStats IoLatencyBpf.

Inductive block_firing :=
| BlockIssue (ctx : block_rq_issue)
| BlockComplete (ctx : block_rq_complete).

Definition block_fire (st : io_maps) (f : block_firing) : io_maps :=
  match f with
  | BlockIssue ctx => trace_block_rq_issue ctx st
  | BlockComplete ctx => trace_block_rq_complete ctx st
  end.

(** A run on a machine with [nr_cpus] CPUs, from an empty tracker and
    zeroed statistics. *)
Definition block_run (nr_cpus : nat) (fs : list block_firing) : io_maps :=
  fold_left block_fire fs
    {| io_start_map := ∅; io_stats_map := replicate nr_cpus zero_stats |}.

(** A scenario on one CPU: a read and two writes are issued and
    completed, 0.8 ms, 1.5 ms and 3 ms after their issue; the completion
    of a request that was never issued comes in between. *)
Definition flush_run : list block_firing :=
  [ BlockIssue {| issue_dev := 8; issue_sector := 2048; issue_ktime := 0 |};
    BlockIssue {| issue_dev := 8; issue_sector := 4096; issue_ktime := 100000 |};
    BlockComplete {| dev := 8; sector := 2048; nr_sector := 8; rwbs := "WS";
                     complete_ktime := 1500000; complete_cpu := 0%nat |};
    BlockComplete {| dev := 8; sector := 9999; nr_sector := 8; rwbs := "R";
                     complete_ktime := 1600000; complete_cpu := 0%nat |};
    BlockComplete {| dev := 8; sector := 4096; nr_sector := 16; rwbs := "R";
                     complete_ktime := 900000; complete_cpu := 0%nat |};
    BlockIssue {| issue_dev := 8; issue_sector := 2048; issue_ktime := 2000000 |};
    BlockComplete {| dev := 8; sector := 2048; nr_sector := 8; rwbs := "W";
                     complete_ktime := 5000000; complete_cpu := 0%nat |} ].

(** The statistics of one direction are consistent when the histogram
    is a histogram and has counted as many events as the operation
    count says. *)
Definition direction_consistent (h : hist) (count : Z) : Prop :=
  hist_ok h /\ hist_total h = count.

(** The number of events in the slots up to [i]. *)
Definition cumulative_count (h : hist) (i : Z) : Z :=
  foldr Z.add 0 (slot h <$> seqZ 0 (i + 1)).

(** What holds of the statistics of one CPU after [n] firings: both
    histograms are histograms, the two counts are not negative and add
    up to at most [n], and, as long as no 32-bit slot can have wrapped,
    each histogram has counted as many events as its operation count
    says. *)
Definition io_stats_ok (n : Z) (s : io_stats) : Prop :=
  hist_ok (read_hist s) /\ hist_ok (write_hist s) /\
  0 <= read_count s /\ 0 <= write_count s /\
  read_count s + write_count s <= n /\
  (n < 2 ^ 32 ->
   hist_total (read_hist s) = read_count s /\
   hist_total (write_hist s) = write_count s).

End BlockRun.

(** ** Runs of the scheduler tracer *)

Module SchedRun.
Import SchedTracer.

(** Some switch of the run, in window [w], had task [p] as its outgoing
    or as its incoming task. *)
Definition switch_of (fs : list firing) (p w : Z) : Prop :=
  exists ctx,
    SchedSwitch ctx ∈ fs /\ switch_ktime ctx / NSEC_PER_SEC = w /\
    (to_u32 (prev_pid ctx) = p \/ to_u32 (next_pid ctx) = p).

(** What holds of the three maps after the firings [fs], whatever the
    clock does. *)
Definition sched_maps_ok (fs : list firing) (st : sched_maps) : Prop :=
  (size (process_state_map st) <= map_max_entries)%nat /\
  (size (bucket_aggregates st) <= map_max_entries)%nat /\
  (forall p s, process_state_map st !! p = Some s ->
     0 < p < 2 ^ 32 /\ switch_of fs p (last_bucket s)) /\
  (forall k b, bucket_aggregates st !! k = Some b ->
     pid b = k.1 /\ time_bucket b = k.2 /\ k.1 <> 0) /\
  (forall b, b ∈ events st ->
     0 < pid b < 2 ^ 32 /\ time_bucket b <> 0 /\ switch_of fs (pid b) (time_bucket b)).

(** The time slice [trace_sched_switch] charges to an outgoing task
    whose state is [s]. *)
Definition time_slice (now : Z) (s : process_state) : Z :=
  if 0 <? last_switch_ts s then to_u64 (now - last_switch_ts s) else 0.

(** Scenario: task [p] leaves the CPU for the idle task at time [now]. *)
Definition leave (p now : Z) : firing :=
  SchedSwitch {| switch_ktime := now; prev_pid := p; prev_state := 1;
                 prev_comm := "task"; next_pid := 0; next_comm := "swapper";
                 switch_reserve_ok := true |}.

(** Tasks 1 to [n] leave the CPU one after the other during second 1;
    with 10240 of them the state map is full. *)
Definition fill_upto (n : nat) : list firing :=
  (fun p => leave p 1500000000) <$> seqZ 1 (Z.of_nat n).

Definition fill_states : list firing := fill_upto map_max_entries.

(** Scenario: task 100 is given the CPU at [t0] and leaves it at [t1]. *)
Definition give_cpu (t0 : Z) : sched_switch :=
  {| switch_ktime := t0; prev_pid := 0; prev_state := 0; prev_comm := "swapper";
     next_pid := 100; next_comm := "worker"; switch_reserve_ok := true |}.

Definition take_cpu (t1 : Z) : sched_switch :=
  {| switch_ktime := t1; prev_pid := 100; prev_state := 0; prev_comm := "worker";
     next_pid := 0; next_comm := "swapper"; switch_reserve_ok := true |}.

End SchedRun.

(** * Properties *)

(** ** Machine integers and hash maps *)

Lemma to_u64_range z : 0 <= to_u64 z < 2 ^ 64.
Proof. unfold to_u64. apply Z.mod_pos_bound. lia. Qed.

Lemma to_u32_range z : 0 <= to_u32 z < 2 ^ 32.
Proof. unfold to_u32. apply Z.mod_pos_bound. lia. Qed.

Lemma to_u64_small z : 0 <= z < 2 ^ 64 -> to_u64 z = z.
Proof. intros Hz. unfold to_u64. now apply Z.mod_small. Qed.

Lemma to_u32_small z : 0 <= z < 2 ^ 32 -> to_u32 z = z.
Proof. intros Hz. unfold to_u32. now apply Z.mod_small. Qed.

Section HashMapFacts.
Context {K : Type} `{Countable K} {V : Type}.
Implicit Types (m : gmap K V) (k : K) (v : V).

Lemma update_elem_cases n m k v :
  bpf_map_update_elem n m k v = <[k := v]> m \/
  (bpf_map_update_elem n m k v = m /\ m !! k = None /\ (n <= size m)%nat).
Proof.
  unfold bpf_map_update_elem.
  destruct (m !! k) eqn:Hk; [now left|].
  destruct (decide (size m < n)%nat); [now left|right].
  repeat split; trivial. lia.
Qed.

Lemma update_elem_stored n m k v :
  is_Some (m !! k) \/ (size m < n)%nat ->
  bpf_map_update_elem n m k v !! k = Some v.
Proof.
  intros Hroom. unfold bpf_map_update_elem.
  destruct (m !! k) eqn:Hk.
  - apply lookup_insert_eq.
  - destruct Hroom as [[x Hx]|Hlt]; [discriminate|].
    destruct (decide (size m < n)%nat); [apply lookup_insert_eq|lia].
Qed.

Lemma update_elem_other n m k k' v :
  k <> k' -> bpf_map_update_elem n m k v !! k' = m !! k'.
Proof.
  intros Hne.
  destruct (update_elem_cases n m k v) as [-> | [-> _]]; trivial.
  now apply lookup_insert_ne.
Qed.

Lemma update_elem_lookup n m k k' v x :
  bpf_map_update_elem n m k v !! k' = Some x ->
  (k = k' /\ x = v) \/ m !! k' = Some x.
Proof.
  destruct (decide (k = k')) as [<-|Hne].
  - destruct (update_elem_cases n m k v) as [-> | [-> _]].
    + rewrite lookup_insert_eq. intros [= <-]. now left.
    + now right.
  - rewrite update_elem_other by trivial. now right.
Qed.
End HashMapFacts.

(** ** syscall_tracer.bpf.c *)

Module SyscallTracerSpec.
Import SyscallTracer.

Lemma exit_miss ex st :
  syscall_start st !! to_u32 (exit_pid_tgid ex) = None ->
  trace_syscall_exit ex st = st.
Proof.
  intros Hnone. unfold trace_syscall_exit, correlate, bpf_map_lookup_elem.
  now rewrite Hnone.
Qed.

(** Every path of [trace_syscall_exit] that found the entry record
    deletes it. *)
Lemma exit_deletes ex st e :
  syscall_start st !! to_u32 (exit_pid_tgid ex) = Some e ->
  syscall_start (trace_syscall_exit ex st) =
    delete (to_u32 (exit_pid_tgid ex)) (syscall_start st).
Proof.
  intros He. unfold trace_syscall_exit, correlate, bpf_map_lookup_elem.
  rewrite He.
  destruct (_ <? LATENCY_THRESHOLD_NS); [reflexivity|].
  destruct (negb (exit_reserve_ok ex)); reflexivity.
Qed.

(** What [trace_syscall_exit] adds to the ring buffer when the entry
    record is there. *)
Lemma exit_events ex st e :
  syscall_start st !! to_u32 (exit_pid_tgid ex) = Some e ->
  let latency := to_u64 (exit_ktime ex - entry_timestamp e) in
  events (trace_syscall_exit ex st) =
    if (latency <? LATENCY_THRESHOLD_NS) || negb (exit_reserve_ok ex) then events st
    else events st ++
         [ {| timestamp := exit_ktime ex;
              pid := to_u32 (Z.shiftr (exit_pid_tgid ex) 32);
              tid := to_u32 (exit_pid_tgid ex);
              syscall_nr := to_u32 (exit_id ex);
              latency_ns := latency;
              ret_value := exit_ret ex;
              arg0 := entry_arg0 e;
              cpu := exit_cpu ex;
              uid := Z.land (exit_uid_gid ex) 4294967295;
              is_error := if exit_ret ex <? 0 then 1 else 0;
              comm := exit_comm ex |} ].
Proof.
  intros He latency. unfold trace_syscall_exit, correlate, bpf_map_lookup_elem.
  rewrite He. fold latency.
  destruct (latency <? LATENCY_THRESHOLD_NS); [reflexivity|].
  destruct (negb (exit_reserve_ok ex)); reflexivity.
Qed.

(** C1. Correlation round trip: once [trace_syscall_enter] has stored
    the record for thread [k] (an older record for [k] is overwritten;
    a new key needs a free entry in the map), the next
    [trace_syscall_exit] of [k] finds exactly that record, computes the
    latency as exit time minus stored entry time (never negative, and
    the plain difference when the clock did not go back) and removes
    the record.  What it yields is the stored argument together with
    that latency: the handler hands exactly these on, in the one record
    it appends to the ring buffer, whenever the latency is at least the
    threshold and the ring buffer has room, and it appends nothing
    otherwise.  A second exit of [k] finds nothing and changes neither
    the map nor the ring buffer. *)
Theorem correlation_round_trip (st : syscall_maps) (en : sys_enter) (ex ex2 : sys_exit) :
  let k := to_u32 (enter_pid_tgid en) in
  let m := {| entry_timestamp := enter_ktime en; entry_arg0 := enter_args0 en |} in
  let latency := to_u64 (exit_ktime ex - enter_ktime en) in
  let st1 := trace_syscall_enter en st in
  let st2 := trace_syscall_exit ex st1 in
  to_u32 (exit_pid_tgid ex) = k ->
  to_u32 (exit_pid_tgid ex2) = k ->
  is_Some (syscall_start st !! k) \/
    (size (syscall_start st) < syscall_start_max_entries)%nat ->
  syscall_start st1 !! k = Some m /\
  events st1 = events st /\
  correlate st1 k (exit_ktime ex) = Some (m, latency) /\
  0 <= latency /\
  (0 <= enter_ktime en <= exit_ktime ex /\ exit_ktime ex < 2 ^ 64 ->
   latency = exit_ktime ex - enter_ktime en) /\
  syscall_start st2 = delete k (syscall_start st1) /\
  syscall_start st2 !! k = None /\
  events st2 =
    (if (latency <? LATENCY_THRESHOLD_NS) || negb (exit_reserve_ok ex) then events st
     else events st ++
          [ {| timestamp := exit_ktime ex;
               pid := to_u32 (Z.shiftr (exit_pid_tgid ex) 32);
               tid := k;
               syscall_nr := to_u32 (exit_id ex);
               latency_ns := latency;
               ret_value := exit_ret ex;
               arg0 := enter_args0 en;
               cpu := exit_cpu ex;
               uid := Z.land (exit_uid_gid ex) 4294967295;
               is_error := if exit_ret ex <? 0 then 1 else 0;
               comm := exit_comm ex |} ]) /\
  correlate st2 k (exit_ktime ex2) = None /\
  trace_syscall_exit ex2 st2 = st2.
Proof.
  intros k m latency st1 st2 Hex Hex2 Hroom.
  assert (Hst1 : syscall_start st1 !! k = Some m).
  { unfold st1, trace_syscall_enter. cbn. now apply update_elem_stored. }
  assert (Hdel : syscall_start st2 = delete k (syscall_start st1)).
  { unfold st2. rewrite <- Hex in Hst1. rewrite (exit_deletes _ _ _ Hst1). now rewrite Hex. }
  assert (Hst2 : syscall_start st2 !! k = None).
  { rewrite Hdel. apply lookup_delete_eq. }
  split; [exact Hst1|].
  split; [reflexivity|].
  split; [unfold correlate, bpf_map_lookup_elem; now rewrite Hst1|].
  split; [apply to_u64_range|].
  split; [intros Hclock; apply to_u64_small; lia|].
  split; [exact Hdel|].
  split; [exact Hst2|].
  split.
  - unfold st2. rewrite <- Hex in Hst1. rewrite (exit_events _ _ _ Hst1).
    cbn [entry_timestamp entry_arg0 m]. fold latency. now rewrite Hex.
  - split.
    + unfold correlate, bpf_map_lookup_elem. now rewrite Hst2.
    + apply exit_miss. now rewrite Hex2.
Qed.

Lemma correlation_round_trip_witness :
  let st2 := trace_syscall_exit (exit_sample 25000000 0 true)
               (trace_syscall_enter enter_sample no_maps) in
  syscall_start st2 !! 7 = None /\
  (exists ev, events st2 = [ev] /\ arg0 ev = 42 /\ latency_ns ev = 25000000) /\
  trace_syscall_exit (exit_sample 26000000 0 true) st2 = st2.
Proof.
  pose proof (correlation_round_trip no_maps enter_sample
                (exit_sample 25000000 0 true) (exit_sample 26000000 0 true)
                eq_refl eq_refl) as Hrt.
  cbv zeta in Hrt.
  destruct Hrt as (_ & _ & _ & _ & _ & _ & Hgone & Hev & _ & Hsame).
  - right. vm_compute. lia.
  - split; [exact Hgone|]. split; [|exact Hsame].
    eexists. split; [exact Hev|]. split; reflexivity.
Defined.

(** C6, as the code has it.  For every syscall exit whose entry record
    is present the record is deleted, on every path.  Below the 10 ms
    threshold nothing is submitted.  At or above it one record is
    submitted when the ring buffer has room, carrying the stored first
    argument, the latency and the return value, with [is_error] set
    exactly when the return value is negative; when the reservation
    fails nothing is submitted. *)
Theorem exit_threshold_filter (st : syscall_maps) (ex : sys_exit) (e : syscall_entry_data) :
  let tid := to_u32 (exit_pid_tgid ex) in
  let latency := to_u64 (exit_ktime ex - entry_timestamp e) in
  let st' := trace_syscall_exit ex st in
  syscall_start st !! tid = Some e ->
  syscall_start st' = delete tid (syscall_start st) /\
  syscall_start st' !! tid = None /\
  (latency < LATENCY_THRESHOLD_NS -> events st' = events st) /\
  (LATENCY_THRESHOLD_NS <= latency -> exit_reserve_ok ex = false ->
   events st' = events st) /\
  (LATENCY_THRESHOLD_NS <= latency -> exit_reserve_ok ex = true ->
   exists ev,
     events st' = events st ++ [ev] /\
     arg0 ev = entry_arg0 e /\
     latency_ns ev = latency /\
     ret_value ev = exit_ret ex /\
     (is_error ev = 1 <-> exit_ret ex < 0) /\
     (is_error ev = 0 <-> 0 <= exit_ret ex)).
Proof.
  intros tid latency st' He.
  pose proof (exit_events ex st e He) as Hev. cbv zeta in Hev.
  fold latency st' in Hev.
  split; [exact (exit_deletes ex st e He)|].
  split; [unfold st'; rewrite (exit_deletes ex st e He); apply lookup_delete_eq|].
  split; [|split].
  - intros Hlt. apply Z.ltb_lt in Hlt. now rewrite Hlt in Hev.
  - intros _ Hfull. rewrite Hfull in Hev. cbn in Hev.
    now rewrite orb_true_r in Hev.
  - intros Hge Hroom. apply Z.ltb_ge in Hge.
    rewrite Hge, Hroom in Hev. cbn in Hev.
    eexists. split; [exact Hev|]. cbn.
    repeat split; trivial; destruct (Z.ltb_spec (exit_ret ex) 0); lia.
Qed.

(** An exit 11 ms after the entry, returning an error, with no room
    left in the ring buffer: the record is deleted and nothing is
    submitted. *)
Lemma exit_ring_full_emits_nothing :
  let st := trace_syscall_enter enter_sample no_maps in
  let ex := exit_sample 11000000 (-1) false in
  let st' := trace_syscall_exit ex st in
  syscall_start st !! 7 = Some {| entry_timestamp := 0; entry_arg0 := 42 |} /\
  LATENCY_THRESHOLD_NS < to_u64 (exit_ktime ex - 0) /\
  syscall_start st' !! 7 = None /\
  events st' = events st /\
  ~ (exists ev, events st' = events st ++ [ev]).
Proof.
  cbv zeta.
  assert (Hev : events (trace_syscall_exit (exit_sample 11000000 (-1) false)
                          (trace_syscall_enter enter_sample no_maps)) = []).
  { vm_compute. reflexivity. }
  split; [vm_compute; reflexivity|].
  split; [vm_compute; reflexivity|].
  split; [vm_compute; reflexivity|].
  split; [rewrite Hev; reflexivity|].
  intros [ev Hone]. rewrite Hev in Hone. cbn in Hone. discriminate.
Qed.

Lemma exit_threshold_filter_witness :
  let st := trace_syscall_enter enter_sample no_maps in
  let st' := trace_syscall_exit (exit_sample 11000000 (-1) true) st in
  syscall_start st' !! 7 = None /\
  exists ev, events st' = [ev] /\ arg0 ev = 42 /\ is_error ev = 1.
Proof.
  cbv zeta.
  destruct (exit_threshold_filter (trace_syscall_enter enter_sample no_maps)
              (exit_sample 11000000 (-1) true)
              {| entry_timestamp := 0; entry_arg0 := 42 |})
    as (_ & Hgone & _ & _ & Hone).
  - vm_compute. reflexivity.
  - split; [exact Hgone|].
    destruct Hone as (ev & Hev & Harg & _ & _ & Herr & _).
    + vm_compute. discriminate.
    + reflexivity.
    + exists ev. split; [exact Hev|]. split; [exact Harg|].
      apply Herr. reflexivity.
Defined.

End SyscallTracerSpec.

(** ** io_latency_tracer.bpf.c *)

Module IoLatencyBpfSpec.
Import IoStats IoLatencyBpf.

Lemma log2_round_spec slot temp i :
  0 <= i ->
  log2_round (slot, temp) i =
    if 2 ^ (2 ^ i) <=? temp then (slot + 2 ^ i, temp / 2 ^ (2 ^ i)) else (slot, temp).
Proof.
  intros Hi. unfold log2_round.
  rewrite !Z.shiftl_1_l, Z.shiftr_div_pow2 by (apply Z.pow_nonneg; lia).
  reflexivity.
Qed.

(** The invariant of the bit scan: [temp] is [v] with its low [slot]
    bits dropped, and after the round of shift [2^i] it is below
    [2^(2^i)]. *)
Lemma log2_round_invariant v i slot temp :
  0 <= i -> 0 <= slot ->
  1 <= temp < 2 ^ (2 * 2 ^ i) ->
  temp * 2 ^ slot <= v < (temp + 1) * 2 ^ slot ->
  let '(slot', temp') := log2_round (slot, temp) i in
  0 <= slot' /\ 1 <= temp' < 2 ^ (2 ^ i) /\
  temp' * 2 ^ slot' <= v < (temp' + 1) * 2 ^ slot'.
Proof.
  intros Hi Hslot Htemp Hv.
  rewrite log2_round_spec by trivial.
  assert (Hs : 0 < 2 ^ i) by (apply Z.pow_pos_nonneg; lia).
  assert (HS : 0 < 2 ^ (2 ^ i)) by (apply Z.pow_pos_nonneg; lia).
  assert (HP : 0 < 2 ^ slot) by (apply Z.pow_pos_nonneg; lia).
  destruct (Z.leb_spec (2 ^ (2 ^ i)) temp) as [Hge|Hlt].
  - replace (2 * 2 ^ i) with (2 ^ i + 2 ^ i) in Htemp by lia.
    rewrite Z.pow_add_r in Htemp by lia.
    rewrite Z.pow_add_r by lia.
    pose proof (Z.mul_div_le temp (2 ^ (2 ^ i)) HS) as Hlo.
    pose proof (Z.mul_succ_div_gt temp (2 ^ (2 ^ i)) HS) as Hhi.
    assert (Hq1 : 1 <= temp / 2 ^ (2 ^ i)).
    { apply Z.div_le_lower_bound; lia. }
    assert (Hq2 : temp / 2 ^ (2 ^ i) < 2 ^ (2 ^ i)).
    { apply Z.div_lt_upper_bound; lia. }
    repeat split; try lia; nia.
  - repeat split; lia.
Qed.

Lemma log2_round_slot_grows acc i :
  0 <= i -> fst acc <= fst (log2_round acc i).
Proof.
  intros Hi. destruct acc as [slot temp]. rewrite log2_round_spec by trivial.
  assert (0 < 2 ^ i) by (apply Z.pow_pos_nonneg; lia).
  destruct (_ <=? _); cbn; lia.
Qed.

(** Within the range of a [__u64] the scan finds the binary logarithm. *)
Lemma log2_scan v :
  1 <= v < 2 ^ 64 ->
  fst (fold_left log2_round [5; 4; 3; 2; 1; 0] (0, v)) = Z.log2 v.
Proof.
  intros Hv. cbn [fold_left].
  pose proof (log2_round_invariant v 5 0 v) as H5.
  destruct (log2_round (0, v) 5) as [s5 t5].
  destruct H5 as (Hs5 & Ht5 & Hv5); [lia|lia|exact Hv|rewrite Z.pow_0_r; lia|].
  pose proof (log2_round_invariant v 4 s5 t5) as H4.
  destruct (log2_round (s5, t5) 4) as [s4 t4].
  destruct H4 as (Hs4 & Ht4 & Hv4); [lia|lia|exact Ht5|exact Hv5|].
  pose proof (log2_round_invariant v 3 s4 t4) as H3.
  destruct (log2_round (s4, t4) 3) as [s3 t3].
  destruct H3 as (Hs3 & Ht3 & Hv3); [lia|lia|exact Ht4|exact Hv4|].
  pose proof (log2_round_invariant v 2 s3 t3) as H2.
  destruct (log2_round (s3, t3) 2) as [s2 t2].
  destruct H2 as (Hs2 & Ht2 & Hv2); [lia|lia|exact Ht3|exact Hv3|].
  pose proof (log2_round_invariant v 1 s2 t2) as H1.
  destruct (log2_round (s2, t2) 1) as [s1 t1].
  destruct H1 as (Hs1 & Ht1 & Hv1); [lia|lia|exact Ht2|exact Hv2|].
  pose proof (log2_round_invariant v 0 s1 t1) as H0.
  destruct (log2_round (s1, t1) 0) as [s0 t0].
  destruct H0 as (Hs0 & Ht0 & Hv0); [lia|lia|exact Ht1|exact Hv1|].
  cbn [fst]. symmetry. apply Z.log2_unique; [exact Hs0|].
  change (2 ^ 2 ^ 0) with 2 in Ht0.
  assert (t0 = 1) as -> by lia.
  rewrite Z.pow_succ_r by trivial. lia.
Qed.

(** Beyond it the first round already puts the slot past the clamp. *)
Lemma log2_scan_large v :
  2 ^ 32 <= v ->
  32 <= fst (fold_left log2_round [5; 4; 3; 2; 1; 0] (0, v)).
Proof.
  intros Hv. cbn [fold_left].
  assert (H5 : log2_round (0, v) 5 = (32, v / 2 ^ 32)).
  { rewrite log2_round_spec by lia. change (2 ^ 2 ^ 5) with (2 ^ 32).
    destruct (Z.leb_spec (2 ^ 32) v); [reflexivity|lia]. }
  rewrite H5.
  pose proof (log2_round_slot_grows (32, v / 2 ^ 32) 4) as G4.
  pose proof (log2_round_slot_grows (log2_round (32, v / 2 ^ 32) 4) 3) as G3.
  pose proof (log2_round_slot_grows
                (log2_round (log2_round (32, v / 2 ^ 32) 4) 3) 2) as G2.
  pose proof (log2_round_slot_grows
                (log2_round (log2_round (log2_round (32, v / 2 ^ 32) 4) 3) 2) 1) as G1.
  pose proof (log2_round_slot_grows
                (log2_round
                   (log2_round (log2_round (log2_round (32, v / 2 ^ 32) 4) 3) 2) 1) 0)
    as G0.
  cbn [fst] in G4. lia.
Qed.

Lemma log2_clamped v : 0 <= v -> log2 v = Z.min (Z.log2 v) 31.
Proof.
  intros Hv. unfold log2, MAX_SLOTS.
  destruct (Z.eqb_spec v 0) as [->|Hnz]; [reflexivity|].
  destruct (Z_lt_le_dec v (2 ^ 32)) as [Hsmall|Hlarge].
  - pose proof (log2_scan v ltac:(lia)) as Hscan.
    destruct (fold_left _ _ _) as [slot temp]. cbn [fst] in Hscan. subst slot.
    assert (Z.log2 v < 32) by (apply Z.log2_lt_pow2; lia).
    destruct (Z.leb_spec 32 (Z.log2 v)); lia.
  - pose proof (log2_scan_large v Hlarge) as Hscan.
    destruct (fold_left _ _ _) as [slot temp]. cbn [fst] in Hscan.
    assert (32 <= Z.log2 v).
    { change 32 with (Z.log2 (2 ^ 32)). now apply Z.log2_le_mono. }
    destruct (Z.leb_spec 32 slot); lia.
Qed.

(** C2. [log2] is the classification of a latency: for every latency
    [L >= 0] it is the integer binary logarithm of [L] clamped to
    [0, 31], with [log2 0 = 0]; so it lies in [0, 31], puts [L] between
    the two powers of two of its slot, sends everything from [2^31] on
    to slot 31, and never decreases when [L] grows.  A latency of 1500
    microseconds falls in slot 10. *)
Theorem log2_classify (L : Z) :
  0 <= L ->
  log2 L = Z.min (Z.log2 L) 31 /\
  0 <= log2 L <= 31 /\
  (1 <= L < 2 ^ 32 -> 2 ^ log2 L <= L < 2 ^ (log2 L + 1)) /\
  (2 ^ 31 <= L -> log2 L = 31) /\
  (forall L', L <= L' -> log2 L <= log2 L') /\
  log2 0 = 0 /\
  log2 1500 = 10.
Proof.
  intros HL. pose proof (log2_clamped L HL) as Heq.
  pose proof (Z.log2_nonneg L) as Hnn.
  split; [exact Heq|].
  split; [lia|].
  split.
  - intros Hrange.
    assert (Z.log2 L < 32) by (apply Z.log2_lt_pow2; lia).
    replace (log2 L) with (Z.log2 L) by lia.
    pose proof (Z.log2_spec L ltac:(lia)) as Hspec.
    rewrite <- Z.add_1_r in Hspec. exact Hspec.
  - split.
    + intros Hbig.
      assert (31 <= Z.log2 L).
      { change 31 with (Z.log2 (2 ^ 31)). now apply Z.log2_le_mono. }
      lia.
    + split; [|split; reflexivity].
      intros L' HLL'. rewrite Heq, (log2_clamped L') by lia.
      pose proof (Z.log2_le_mono L L' HLL'). lia.
Qed.

Lemma log2_classify_witness :
  log2 1500 = Z.min (Z.log2 1500) 31 /\ log2 1500 <= log2 3000.
Proof.
  destruct (log2_classify 1500) as (Heq & _ & _ & _ & Hmono & _); [lia|].
  split; [exact Heq|apply Hmono; lia].
Defined.

Lemma hist_incr_slot h i :
  hist_ok h -> 0 <= i < MAX_SLOTS ->
  slot (hist_incr h i) i = to_u32 (slot h i + 1).
Proof.
  intros [Hlen _] Hi. unfold slot at 1, hist_incr. cbn [slots].
  rewrite list_lookup_insert_eq; [reflexivity|].
  rewrite Hlen. unfold MAX_SLOTS in *. lia.
Qed.

Lemma hist_incr_other h i j :
  0 <= i -> 0 <= j -> i <> j -> slot (hist_incr h i) j = slot h j.
Proof.
  intros Hi Hj Hne. unfold slot, hist_incr. cbn [slots].
  rewrite list_lookup_insert_ne by lia. reflexivity.
Qed.

(** C9. A completed request whose start record is found is counted in
    exactly one direction, chosen by the first character of its
    operation string alone: as a read when that character is 'R', as a
    write for every other operation (a flush "FF" and a discard "D"
    among them).  The counted direction gets one more event in the
    histogram slot of the latency, one more operation and
    [nr_sector * 512] more bytes (a 32-bit product, exact for every
    request below 4 GiB); the other direction, the other slots and the
    other CPUs' statistics are left as they were, and the start record
    is removed. *)
Theorem complete_counts_one_direction
    (st : io_maps) (ctx : block_rq_complete) (start : Z) (stats : io_stats) :
  let key := (dev ctx, sector ctx) in
  let slot_nr := log2 (to_u64 (complete_ktime ctx - start) / 1000) in
  let bytes := to_u32 (nr_sector ctx * 512) in
  let st' := trace_block_rq_complete ctx st in
  io_start_map st !! key = Some start ->
  io_stats_map st !! complete_cpu ctx = Some stats ->
  io_start_map st' = delete key (io_start_map st) /\
  (forall c, c <> complete_cpu ctx -> io_stats_map st' !! c = io_stats_map st !! c) /\
  0 <= slot_nr < MAX_SLOTS /\
  (0 <= nr_sector ctx < 2 ^ 23 -> bytes = nr_sector ctx * 512) /\
  (rwbs0 (rwbs ctx) = "R"%char ->
   io_stats_map st' !! complete_cpu ctx =
     Some {| read_hist := hist_incr (read_hist stats) slot_nr;
             write_hist := write_hist stats;
             read_count := to_u64 (read_count stats + 1);
             write_count := write_count stats;
             read_bytes := to_u64 (read_bytes stats + bytes);
             write_bytes := write_bytes stats |}) /\
  (rwbs0 (rwbs ctx) <> "R"%char ->
   io_stats_map st' !! complete_cpu ctx =
     Some {| read_hist := read_hist stats;
             write_hist := hist_incr (write_hist stats) slot_nr;
             read_count := read_count stats;
             write_count := to_u64 (write_count stats + 1);
             read_bytes := read_bytes stats;
             write_bytes := to_u64 (write_bytes stats + bytes) |}) /\
  (forall h, hist_ok h ->
     slot (hist_incr h slot_nr) slot_nr = to_u32 (slot h slot_nr + 1) /\
     forall j, 0 <= j -> j <> slot_nr -> slot (hist_incr h slot_nr) j = slot h j) /\
  rwbs0 "FF" <> "R"%char /\ rwbs0 "D" <> "R"%char /\ rwbs0 "W" <> "R"%char /\
  rwbs0 "RA" = "R"%char.
Proof.
  intros key slot_nr bytes st' Hstart Hstats.
  assert (Hslot : 0 <= slot_nr < MAX_SLOTS).
  { unfold slot_nr, MAX_SLOTS.
    pose proof (to_u64_range (complete_ktime ctx - start)) as Hr.
    assert (Hus : 0 <= to_u64 (complete_ktime ctx - start) / 1000)
      by (apply Z.div_pos; lia).
    pose proof (log2_clamped _ Hus) as Hclamp.
    pose proof (Z.log2_nonneg (to_u64 (complete_ktime ctx - start) / 1000)). lia. }
  assert (Hcpu : (complete_cpu ctx < length (io_stats_map st))%nat).
  { apply lookup_lt_is_Some. now exists stats. }
  assert (Hst' : st' =
    {| io_start_map := delete key (io_start_map st);
       io_stats_map :=
         <[complete_cpu ctx :=
             if Ascii.eqb (rwbs0 (rwbs ctx)) "R"%char then
               {| read_hist := hist_incr (read_hist stats) slot_nr;
                  write_hist := write_hist stats;
                  read_count := to_u64 (read_count stats + 1);
                  write_count := write_count stats;
                  read_bytes := to_u64 (read_bytes stats + bytes);
                  write_bytes := write_bytes stats |}
             else
               {| read_hist := read_hist stats;
                  write_hist := hist_incr (write_hist stats) slot_nr;
                  read_count := read_count stats;
                  write_count := to_u64 (write_count stats + 1);
                  read_bytes := read_bytes stats;
                  write_bytes := to_u64 (write_bytes stats + bytes) |}]>
           (io_stats_map st) |}).
  { unfold st', trace_block_rq_complete, bpf_map_lookup_elem, percpu_lookup.
    fold key. rewrite Hstart. cbn [Z.ltb Z.compare io_stats_map_max_entries].
    rewrite Hstats. reflexivity. }
  rewrite Hst'. cbn [io_start_map io_stats_map].
  split; [reflexivity|].
  split; [intros c Hc; now apply list_lookup_insert_ne|].
  split; [exact Hslot|].
  split; [intros Hsec; apply to_u32_small; lia|].
  split.
  { intros HR. rewrite list_lookup_insert_eq by exact Hcpu.
    apply Ascii.eqb_eq in HR. now rewrite HR. }
  split.
  { intros HW. rewrite list_lookup_insert_eq by exact Hcpu.
    apply Ascii.eqb_neq in HW. now rewrite HW. }
  split.
  { intros h Hh. split; [now apply hist_incr_slot|].
    intros j Hj Hne. apply hist_incr_other; lia. }
  repeat split; cbn; congruence.
Qed.

Lemma complete_counts_one_direction_witness :
  let st' := trace_block_rq_complete flush_complete issued_maps in
  io_stats_map st' !! 0%nat =
    Some {| read_hist := zero_hist;
            write_hist := hist_incr zero_hist 10;
            read_count := 0; write_count := 1;
            read_bytes := 0; write_bytes := 4096 |}.
Proof.
  destruct (complete_counts_one_direction issued_maps flush_complete 0 zero_stats)
    as (_ & _ & _ & _ & _ & Hwrite & _).
  - reflexivity.
  - reflexivity.
  - assert (Hop : rwbs0 (rwbs flush_complete) <> "R"%char) by (cbn; congruence).
    exact (Hwrite Hop).
Defined.

End IoLatencyBpfSpec.

(** ** Binary64: rounding never crosses a representable bound *)

Module Binary64Facts.
Import Binary64.

Lemma digits2_pos_bounds p :
  2 ^ (Zpos (digits2_pos p) - 1) <= Zpos p < 2 ^ Zpos (digits2_pos p).
Proof.
  induction p as [p IH|p IH|]; cbn [digits2_pos].
  - rewrite Pos2Z.inj_succ. change (Zpos p~1) with (2 * Zpos p + 1).
    replace (Z.succ (Zpos (digits2_pos p)) - 1) with (Z.succ (Zpos (digits2_pos p) - 1)) by lia.
    rewrite !Z.pow_succ_r by lia.
    set (a := 2 ^ (Zpos (digits2_pos p) - 1)) in *. set (b := 2 ^ Zpos (digits2_pos p)) in *.
    clearbody a b. lia.
  - rewrite Pos2Z.inj_succ. change (Zpos p~0) with (2 * Zpos p).
    replace (Z.succ (Zpos (digits2_pos p)) - 1) with (Z.succ (Zpos (digits2_pos p) - 1)) by lia.
    rewrite !Z.pow_succ_r by lia.
    set (a := 2 ^ (Zpos (digits2_pos p) - 1)) in *. set (b := 2 ^ Zpos (digits2_pos p)) in *.
    clearbody a b. lia.
  - cbn. lia.
Qed.

Lemma Zdigits2_bounds m :
  0 < m -> 0 < Zdigits2 m /\ 2 ^ (Zdigits2 m - 1) <= m < 2 ^ Zdigits2 m.
Proof.
  destruct m as [|p|p]; try lia. intros _. cbn [Zdigits2].
  split; [lia|apply digits2_pos_bounds].
Qed.

Lemma Zdigits2_nonneg m : 0 <= m -> 0 <= Zdigits2 m.
Proof. destruct m; cbn; lia. Qed.

Lemma fexp_eq x : fexp prec emax x = Z.max (x - 53) (-1074).
Proof. reflexivity. Qed.

(** Comparing [a * 2^ea] with [b * 2^eb] over a common exponent. *)
Lemma Qpower_split (e c : Z) : c <= e -> (2 ^ e == inject_Z (2 ^ (e - c)) * 2 ^ c)%Q.
Proof.
  intros Hc. rewrite Zpower_Qpower by lia.
  rewrite <- Qpower_plus by discriminate. now replace (e - c + c) with e by lia.
Qed.

Lemma Qdyadic_le (a ea b eb c : Z) :
  c <= ea -> c <= eb ->
  (inject_Z a * 2 ^ ea <= inject_Z b * 2 ^ eb)%Q <-> a * 2 ^ (ea - c) <= b * 2 ^ (eb - c).
Proof.
  intros Ha Hb.
  rewrite (Qpower_split ea c Ha), (Qpower_split eb c Hb), !Qmult_assoc.
  rewrite <- !inject_Z_mult.
  assert (Hpos : (0 < 2 ^ c)%Q) by (apply Qpower_0_lt; reflexivity).
  rewrite Zle_Qle. split; intros Hle.
  - now apply Qmult_le_r in Hle.
  - now apply Qmult_le_r.
Qed.

(** *** Right shifts *)

Lemma shr_1_brackets mrs num den :
  0 < den -> shr_brackets mrs num den -> shr_brackets (shr_1 mrs) num (den * 2).
Proof.
  intros Hden (Hm & Hb & Hstrict). destruct mrs as [m r s]. cbn [shr_m shr_r shr_s] in *.
  unfold shr_brackets.
  destruct m as [|[p|p|]|p]; try lia; cbn [shr_1 shr_m shr_r shr_s].
  - split; [lia|]. split; [lia|]. intros Hrs. cbn [orb] in Hrs. specialize (Hstrict Hrs). lia.
  - change (Zpos p~1) with (2 * Zpos p + 1) in *.
    split; [lia|]. split; [nia|]. intros _. nia.
  - change (Zpos p~0) with (2 * Zpos p) in *.
    split; [lia|]. split; [nia|]. intros Hrs. cbn [orb] in Hrs. specialize (Hstrict Hrs). nia.
  - split; [lia|]. split; [lia|]. intros _. lia.
Qed.

Lemma iter_pos_brackets p : forall mrs num den,
  0 < den -> shr_brackets mrs num den ->
  shr_brackets (SpecFloat.iter_pos shr_1 p mrs) num (den * 2 ^ Zpos p).
Proof.
  induction p as [p IH|p IH|]; intros mrs num den Hden Hb; cbn [SpecFloat.iter_pos].
  - apply shr_1_brackets in Hb; [|trivial].
    apply IH in Hb; [|lia].
    apply IH in Hb; [|assert (0 < 2 ^ Zpos p) by (apply Z.pow_pos_nonneg; lia); nia].
    replace (den * 2 ^ Zpos p~1) with (den * 2 * 2 ^ Zpos p * 2 ^ Zpos p); [exact Hb|].
    replace (Zpos p~1) with (Zpos p + Zpos p + 1) by lia.
    rewrite !Z.pow_add_r, Z.pow_1_r by lia. ring.
  - apply IH in Hb; [|lia].
    apply IH in Hb; [|assert (0 < 2 ^ Zpos p) by (apply Z.pow_pos_nonneg; lia); nia].
    replace (den * 2 ^ Zpos p~0) with (den * 2 ^ Zpos p * 2 ^ Zpos p); [exact Hb|].
    replace (Zpos p~0) with (Zpos p + Zpos p) by lia.
    rewrite Z.pow_add_r by lia. ring.
  - apply shr_1_brackets in Hb; [|trivial]. now rewrite Z.pow_1_r.
Qed.

(** [shr] moves the exponent up by [n] (when positive) and keeps the
    bracket of the value, rescaled. *)
Lemma shr_brackets_shift mrs e n num den :
  0 < den -> shr_brackets mrs num den ->
  snd (shr mrs e n) = e + Z.max n 0 /\
  shr_brackets (fst (shr mrs e n)) num (den * 2 ^ Z.max n 0).
Proof.
  intros Hden Hb. destruct n as [|p|p]; cbn [shr fst snd].
  - rewrite Z.max_r, Z.add_0_r, Z.mul_1_r by lia. now split.
  - rewrite Z.max_l by lia. split; [reflexivity|now apply iter_pos_brackets].
  - rewrite Z.max_r, Z.add_0_r, Z.mul_1_r by lia. now split.
Qed.

Lemma shr_record_of_loc_brackets m l num den :
  0 <= m -> m * den <= num < (m + 1) * den -> (l <> loc_Exact -> m * den < num) ->
  shr_brackets (shr_record_of_loc m l) num den.
Proof.
  intros Hm Hb Hstrict. unfold shr_brackets.
  destruct l as [|[| |]]; cbn [shr_record_of_loc shr_m shr_r shr_s orb];
    (split; [exact Hm|]; split; [exact Hb|]); intros Hrs;
    try discriminate; now apply Hstrict.
Qed.

(** Rounding to nearest stays between the integral part and any integer
    bound of the value. *)
Lemma round_nearest_even_bounds mrs num den :
  0 < den -> shr_brackets mrs num den ->
  let r := round_nearest_even (shr_m mrs) (loc_of_shr_record mrs) in
  shr_m mrs <= r /\ forall N, num <= N * den -> r <= N.
Proof.
  intros Hden (Hm & Hb & Hstrict). destruct mrs as [m r s]. cbn [shr_m shr_r shr_s] in *.
  destruct r, s; cbn [loc_of_shr_record round_nearest_even orb] in *.
  - split; [lia|]. intros N HN. specialize (Hstrict eq_refl). nia.
  - specialize (Hstrict eq_refl). destruct (Z.even m); (split; [lia|]); intros N HN; nia.
  - split; [lia|]. intros N HN. nia.
  - split; [lia|]. intros N HN. nia.
Qed.

(** *** Rounding never crosses a representable bound

    The exact value is [num / den * 2^e], with integral part [m] at
    that scale; the bound is [N * 2^k] with [N] below [2^53] and [k] at
    least the smallest exponent. *)

Lemma pow2_lt_exponent a b c :
  0 < a -> 0 <= b -> a * 2 ^ b < 2 ^ c -> b < c.
Proof.
  intros Ha Hb Hlt. destruct (Z_lt_ge_dec b c) as [Hbc|Hbc]; [exact Hbc|exfalso].
  assert (2 ^ c <= 2 ^ b) by (destruct (Z_lt_ge_dec c 0);
    [rewrite (Z.pow_neg_r 2 c) by lia; apply Z.pow_nonneg; lia
    |apply Z.pow_le_mono_r; lia]).
  assert (0 < 2 ^ b) by (apply Z.pow_pos_nonneg; lia). nia.
Qed.

(** The quantum of the value is at most that of the bound. *)
Lemma quantum_below_bound m e N k c :
  0 <= m -> 0 <= N < 2 ^ 53 -> -1074 <= k ->
  c <= e -> c <= k ->
  m * 2 ^ (e - c) <= N * 2 ^ (k - c) ->
  e <= fexp prec emax (Zdigits2 m + e) ->
  fexp prec emax (Zdigits2 m + e) <= k.
Proof.
  intros Hm HN Hk Hce Hck Hle Hprec. rewrite fexp_eq in *.
  destruct (Z.eq_dec m 0) as [->|Hm0]; [cbn [Zdigits2] in *; lia|].
  destruct (Zdigits2_bounds m) as [Hd [Hlow _]]; [lia|].
  assert (Hlt : 2 ^ (Zdigits2 m - 1) * 2 ^ (e - c) < 2 ^ (53 + (k - c))).
  { rewrite Z.pow_add_r by lia.
    assert (0 < 2 ^ (e - c)) by (apply Z.pow_pos_nonneg; lia).
    assert (0 < 2 ^ (k - c)) by (apply Z.pow_pos_nonneg; lia). nia. }
  rewrite <- Z.pow_add_r in Hlt by lia.
  apply Z.pow_lt_mono_r_iff in Hlt; lia.
Qed.

Lemma round_stage_upper m e l num den N k :
  0 <= m -> 0 < den ->
  m * den <= num < (m + 1) * den -> (l <> loc_Exact -> m * den < num) ->
  (l = loc_Exact /\ num = m * den) \/ e <= fexp prec emax (Zdigits2 m + e) ->
  0 <= N < 2 ^ 53 -> -1074 <= k ->
  (inject_Z num * 2 ^ e <= inject_Z (N * den) * 2 ^ k)%Q ->
  let mrs1 := fst (shr_fexp prec emax m e l) in
  let e1 := snd (shr_fexp prec emax m e l) in
  let r := round_nearest_even (shr_m mrs1) (loc_of_shr_record mrs1) in
  0 <= r /\ (inject_Z r * 2 ^ e1 <= inject_Z N * 2 ^ k)%Q.
Proof.
  intros Hm Hden Hb Hstrict Hprec HN Hk Hle. cbv zeta. unfold shr_fexp.
  set (q := fexp prec emax (Zdigits2 m + e)).
  assert (Hmle : m * 2 ^ (e - Z.min e k) <= N * 2 ^ (k - Z.min e k)).
  { apply (Qdyadic_le num e (N * den) k (Z.min e k)) in Hle; [|lia|lia].
    assert (0 < 2 ^ (e - Z.min e k)) by (apply Z.pow_pos_nonneg; lia).
    assert (0 <= 2 ^ (k - Z.min e k)) by (apply Z.pow_nonneg; lia).
    apply (Z.mul_le_mono_pos_r _ _ den); [exact Hden|]. nia. }
  destruct (Z_le_gt_dec e q) as [Hq|Hq].
  - (* the value is rounded at the quantum [q] *)
    assert (Hqk : q <= k)
      by (apply (quantum_below_bound m e N k (Z.min e k)); trivial; lia).
    pose proof (shr_record_of_loc_brackets m l num den Hm Hb Hstrict) as Hb0.
    destruct (shr_brackets_shift (shr_record_of_loc m l) e (q - e) num den Hden Hb0)
      as [He1 Hb1].
    rewrite He1. rewrite Z.max_l in * by lia. replace (e + (q - e)) with q by lia.
    assert (Hden1 : 0 < den * 2 ^ (q - e))
      by (assert (0 < 2 ^ (q - e)) by (apply Z.pow_pos_nonneg; lia); nia).
    destruct (round_nearest_even_bounds _ num _ Hden1 Hb1) as [Hlow Hup].
    destruct Hb1 as (Hm1 & _). split; [lia|].
    apply (Qdyadic_le _ q N k q); [lia|lia|]. rewrite Z.sub_diag, Z.mul_1_r.
    apply Hup.
    apply (Qdyadic_le num e (N * den) k e) in Hle; [|lia|lia].
    rewrite Z.sub_diag, Z.mul_1_r in Hle.
    replace (k - e) with ((k - q) + (q - e)) in Hle by lia.
    rewrite Z.pow_add_r in Hle by lia. lia.
  - (* no shift: the value is the mantissa itself *)
    destruct Hprec as [[-> ->]|Hprec]; [|lia].
    assert (Hneg : q - e < 0) by lia.
    destruct (q - e) as [|p|p] eqn:Hn; try lia.
    cbn [shr shr_record_of_loc fst snd shr_m loc_of_shr_record round_nearest_even].
    split; [exact Hm|].
    now apply (Qdyadic_le m e N k (Z.min e k)); [lia|lia|].
Qed.

Lemma binary_round_aux_upper m e l num den N k :
  0 <= m -> 0 < den ->
  m * den <= num < (m + 1) * den -> (l <> loc_Exact -> m * den < num) ->
  (l = loc_Exact /\ num = m * den) \/ e <= fexp prec emax (Zdigits2 m + e) ->
  0 <= N < 2 ^ 53 -> -1074 <= k <= 900 ->
  (inject_Z num * 2 ^ e <= inject_Z (N * den) * 2 ^ k)%Q ->
  match binary_round_aux prec emax false m e l with
  | S754_zero s => s = false
  | S754_finite s m' e' =>
      s = false /\ (inject_Z (Zpos m') * 2 ^ e' <= inject_Z N * 2 ^ k)%Q
  | _ => False
  end.
Proof.
  intros Hm Hden Hb Hstrict Hprec HN Hk Hle.
  destruct (round_stage_upper m e l num den N k) as [Hr Hkey]; trivial; [lia|].
  unfold binary_round_aux.
  destruct (shr_fexp prec emax m e l) as [mrs1 e1]. cbn [fst snd] in Hr, Hkey.
  set (r := round_nearest_even (shr_m mrs1) (loc_of_shr_record mrs1)) in *.
  unfold shr_fexp.
  assert (Hb0 : shr_brackets (shr_record_of_loc r loc_Exact) r 1).
  { apply shr_record_of_loc_brackets; [exact Hr|lia|congruence]. }
  set (n2 := fexp prec emax (Zdigits2 r + e1) - e1).
  destruct (shr_brackets_shift (shr_record_of_loc r loc_Exact) e1 n2 r 1) as [He2 Hb2];
    [lia|exact Hb0|].
  destruct (shr (shr_record_of_loc r loc_Exact) e1 n2) as [mrs2 e2].
  cbn [fst snd] in He2, Hb2. destruct Hb2 as (Hm2 & [Hfloor _] & _).
  destruct (shr_m mrs2) as [|m2|m2]; [reflexivity| |lia].
  assert (Hval : (inject_Z (Zpos m2) * 2 ^ e2 <= inject_Z N * 2 ^ k)%Q).
  { apply Qle_trans with (inject_Z r * 2 ^ e1)%Q; [|exact Hkey].
    apply (Qdyadic_le _ e2 r e1 e1); [lia|lia|].
    rewrite Z.sub_diag, Z.mul_1_r. replace (e2 - e1) with (Z.max n2 0) by lia. lia. }
  assert (He2max : e2 < 53 + k).
  { apply (Qdyadic_le _ e2 N k (Z.min e2 k)) in Hval; [|lia|lia].
    assert (Hlt : Zpos m2 * 2 ^ (e2 - Z.min e2 k) < 2 ^ (53 + (k - Z.min e2 k))).
    { rewrite Z.pow_add_r by lia.
      assert (0 < 2 ^ (k - Z.min e2 k)) by (apply Z.pow_pos_nonneg; lia). nia. }
    apply pow2_lt_exponent in Hlt; lia. }
  destruct (Z.leb_spec e2 (emax - prec)) as [_|Hover]; [now split|].
  unfold emax, prec in Hover. lia.
Qed.

(** *** The operations of the program, on values that are not negative *)

Lemma finite_value_pos m e : (0 < inject_Z (Zpos m) * 2 ^ e)%Q.
Proof.
  apply Qmult_lt_0_compat; [|apply Qpower_0_lt; reflexivity].
  rewrite <- (Zlt_Qlt 0). lia.
Qed.

(** A finite [double] that is not negative is a zero or has sign bit 0. *)
Lemma nonneg_value_cases x v :
  double_value x = Some v -> (0 <= v)%Q ->
  (exists s, x = S754_zero s /\ v = 0%Q) \/
  (exists m e, x = S754_finite false m e /\ v = (inject_Z (Zpos m) * 2 ^ e)%Q).
Proof.
  intros Hx Hv. destruct x as [s|s| |s m e]; cbn [double_value] in Hx; try discriminate.
  - injection Hx as <-. left. now exists s.
  - injection Hx as <-. destruct s; [|right; now exists m, e].
    exfalso. pose proof (finite_value_pos m e) as Hpos.
    assert (Heq : (- inject_Z (Zpos m) * 2 ^ e == - (inject_Z (Zpos m) * 2 ^ e))%Q) by ring.
    rewrite Heq in Hv. lra.
Qed.

(** What the bound lemma says of the result of a rounding. *)
Lemma rounded_below x (B : Q) :
  match x with
  | S754_zero s => s = false
  | S754_finite s m' e' => s = false /\ (inject_Z (Zpos m') * 2 ^ e' <= B)%Q
  | _ => False
  end ->
  (0 <= B)%Q ->
  exists v, double_value x = Some v /\ (0 <= v <= B)%Q.
Proof.
  intros Hx HB. destruct x as [s|s| |s m e]; try contradiction.
  - exists 0%Q. split; [reflexivity|]. split; [apply Qle_refl|exact HB].
  - destruct Hx as [-> Hle]. eexists. split; [reflexivity|]. split; [|exact Hle].
    apply Qlt_le_weak, finite_value_pos.
Qed.

Lemma shl_align_value mx ex ex' :
  let '(mz, ez) := shl_align mx ex ex' in
  ez <= ex /\ Zpos mz = Zpos mx * 2 ^ (ex - ez).
Proof.
  unfold shl_align. destruct (ex' - ex) as [|d|d] eqn:Hd.
  - rewrite Z.sub_diag. lia.
  - rewrite Z.sub_diag. lia.
  - split; [lia|]. change (Pos.iter xO mx d) with (shift_pos d mx).
    rewrite shift_pos_correct. replace (ex - ex') with (Zpos d) by lia.
    change (Z.pow_pos 2 d) with (2 ^ Zpos d). lia.
Qed.

(** [(double)n] never exceeds a representable bound of [n]. *)
Lemma double_of_Z_upper n N k :
  0 <= n -> 0 <= N < 2 ^ 53 -> 0 <= k <= 900 -> n <= N * 2 ^ k ->
  exists v, double_value (double_of_Z n) = Some v /\
            (0 <= v <= inject_Z N * 2 ^ k)%Q.
Proof.
  intros Hn HN Hk Hle.
  assert (HB : (0 <= inject_Z N * 2 ^ k)%Q).
  { apply Qmult_le_0_compat; [rewrite <- (Zle_Qle 0); lia|].
    apply Qlt_le_weak, Qpower_0_lt. reflexivity. }
  apply rounded_below; [|exact HB].
  destruct n as [|p|p]; [reflexivity| |lia].
  unfold double_of_Z, binary_normalize, binary_round.
  pose proof (shl_align_value p 0 (fexp prec emax (Zpos (digits2_pos p) + 0))) as Hal.
  destruct (shl_align p 0 (fexp prec emax (Zpos (digits2_pos p) + 0))) as [mz ez].
  destruct Hal as [Hez Hmz].
  apply (binary_round_aux_upper (Zpos mz) ez loc_Exact (Zpos mz) 1 N k);
    try lia; [congruence|left; split; [reflexivity|lia]|].
  rewrite Z.mul_1_r. apply (Qdyadic_le _ ez N k ez); [lia|lia|].
  rewrite Z.sub_diag, Z.mul_1_r, Hmz.
  replace (k - ez) with (k + (0 - ez)) by lia. rewrite Z.pow_add_r by lia.
  assert (0 < 2 ^ (0 - ez)) by (apply Z.pow_pos_nonneg; lia). nia.
Qed.

(** A product of values that are not negative never exceeds a
    representable bound of the exact product. *)
Lemma double_mul_upper x y vx vy N k :
  double_value x = Some vx -> double_value y = Some vy ->
  (0 <= vx)%Q -> (0 <= vy)%Q ->
  0 <= N < 2 ^ 53 -> -1074 <= k <= 900 ->
  (vx * vy <= inject_Z N * 2 ^ k)%Q ->
  exists v, double_value (double_mul x y) = Some v /\
            (0 <= v <= inject_Z N * 2 ^ k)%Q.
Proof.
  intros Hx Hy Hvx Hvy HN Hk Hle.
  assert (HB : (0 <= inject_Z N * 2 ^ k)%Q).
  { eapply Qle_trans; [|exact Hle]. now apply Qmult_le_0_compat. }
  assert (Hzero : forall s, exists v, double_value (S754_zero s) = Some v /\
                                      (0 <= v <= inject_Z N * 2 ^ k)%Q).
  { intros s. exists 0%Q. split; [reflexivity|]. split; [apply Qle_refl|exact HB]. }
  destruct (nonneg_value_cases x vx Hx Hvx) as [(sx & -> & ->)|(mx & ex & -> & ->)];
    destruct (nonneg_value_cases y vy Hy Hvy) as [(sy & -> & ->)|(my & ey & -> & ->)];
    unfold double_mul; cbn [SFmul xorb]; try apply Hzero.
  apply rounded_below; [|exact HB].
  apply (binary_round_aux_upper _ _ loc_Exact (Zpos (mx * my)) 1 N k);
    try lia; [congruence|left; split; [reflexivity|lia]|].
  rewrite Z.mul_1_r, Pos2Z.inj_mul, inject_Z_mult, Qpower_plus by discriminate.
  eapply Qle_trans; [|exact Hle]. apply Qle_lteq. right. ring.
Qed.

(** [new_location] says [loc_Exact] when the remainder is 0. *)
Lemma new_location_exact nb_steps : new_location nb_steps 0 = loc_Exact.
Proof. unfold new_location. now destruct (Z.even nb_steps). Qed.

(** The quotient computed by [SFdiv_core_binary] has all the bits the
    rounding needs. *)
Lemma quotient_digits m1 m2 s q r :
  0 < m1 -> 0 < m2 -> 0 <= s ->
  m1 * 2 ^ s = m2 * q + r -> 0 <= r < m2 ->
  Zdigits2 m1 - Zdigits2 m2 + s <= Zdigits2 q.
Proof.
  intros Hm1 Hm2 Hs Heq Hr.
  assert (Hq : 0 <= q) by nia.
  pose proof (Zdigits2_nonneg q Hq) as Hdq.
  destruct (Zdigits2_bounds m1 Hm1) as [Hd1 [Hlow1 _]].
  destruct (Zdigits2_bounds m2 Hm2) as [Hd2 [_ Hup2]].
  destruct (Z_le_gt_dec (Zdigits2 m1 - Zdigits2 m2 + s) 0) as [Hsmall|Hbig]; [lia|].
  set (t := Zdigits2 m1 - Zdigits2 m2 + s - 1) in *.
  assert (Ht : 0 <= t) by lia.
  assert (Hpow : 2 ^ (Zdigits2 m1 - 1) * 2 ^ s = 2 ^ t * 2 ^ Zdigits2 m2).
  { rewrite <- !Z.pow_add_r by lia. f_equal. lia. }
  assert (0 < 2 ^ s) by (apply Z.pow_pos_nonneg; lia).
  assert (0 < 2 ^ t) by (apply Z.pow_pos_nonneg; lia).
  assert (Hqt : 2 ^ t <= q) by nia.
  destruct (Z.eq_dec q 0) as [->|Hq0]; [lia|].
  destruct (Zdigits2_bounds q) as [_ [_ Hupq]]; [lia|].
  assert (Hlt : 2 ^ t < 2 ^ Zdigits2 q) by lia.
  apply Z.pow_lt_mono_r_iff in Hlt; lia.
Qed.

(** A quotient of a value that is not negative by a positive one never
    exceeds a representable bound of the exact quotient. *)
Lemma double_div_upper x y vx my ey N k :
  double_value x = Some vx -> y = S754_finite false my ey ->
  (0 <= vx)%Q ->
  0 <= N < 2 ^ 53 -> -1074 <= k <= 900 ->
  (vx <= inject_Z N * 2 ^ k * (inject_Z (Zpos my) * 2 ^ ey))%Q ->
  exists v, double_value (double_div x y) = Some v /\
            (0 <= v <= inject_Z N * 2 ^ k)%Q.
Proof.
  intros Hx -> Hvx HN Hk Hle.
  assert (HB : (0 <= inject_Z N * 2 ^ k)%Q).
  { apply Qmult_le_0_compat; [rewrite <- (Zle_Qle 0); lia|].
    apply Qlt_le_weak, Qpower_0_lt. reflexivity. }
  destruct (nonneg_value_cases x vx Hx Hvx) as [(sx & -> & ->)|(mx & ex & -> & ->)];
    unfold double_div; cbn [SFdiv xorb].
  { exists 0%Q. split; [reflexivity|]. split; [apply Qle_refl|exact HB]. }
  apply rounded_below; [|exact HB].
  unfold SFdiv_core_binary.
  set (e' := Z.min (fexp prec emax (Zdigits2 (Zpos mx) + ex - (Zdigits2 (Zpos my) + ey)))
                   (ex - ey)).
  set (s := ex - ey - e').
  assert (Hs : 0 <= s) by (unfold s, e'; lia).
  assert (Hm' : match s with Zpos _ => Z.shiftl (Zpos mx) s | Z0 => Zpos mx | Zneg _ => 0 end
                = Zpos mx * 2 ^ s).
  { destruct s as [|p|p] eqn:Hsp; [cbn; lia| |lia]. apply Z.shiftl_mul_pow2. lia. }
  rewrite Hm'.
  pose proof (Z_div_mod (Zpos mx * 2 ^ s) (Zpos my) ltac:(lia)) as Hdiv.
  destruct (Z.div_eucl (Zpos mx * 2 ^ s) (Zpos my)) as [q r]. destruct Hdiv as [Heq Hr].
  assert (H2s : 0 < 2 ^ s) by (apply Z.pow_pos_nonneg; lia).
  assert (Hq : 0 <= q) by nia.
  apply (binary_round_aux_upper q e' (new_location (Zpos my) r) (Zpos mx * 2 ^ s)
           (Zpos my) N k); trivial; try lia; try nia.
  - intros Hloc. destruct (Z.eq_dec r 0) as [->|Hr0]; [|nia].
    now rewrite new_location_exact in Hloc.
  - right.
    pose proof (quotient_digits (Zpos mx) (Zpos my) s q r ltac:(lia) ltac:(lia) Hs Heq Hr)
      as Hdq.
    assert (He' : e' <= Z.max (Zdigits2 (Zpos mx) + ex - (Zdigits2 (Zpos my) + ey) - 53)
                              (-1074))
      by (unfold e'; rewrite fexp_eq; lia).
    rewrite fexp_eq. unfold s in Hdq. clearbody e'. lia.
  - rewrite inject_Z_mult, (inject_Z_mult N).
    assert (Hsplit : (inject_Z (2 ^ s) * 2 ^ e' * 2 ^ ey == 2 ^ ex)%Q).
    { rewrite Zpower_Qpower by lia. rewrite <- !Qpower_plus by discriminate.
      now replace (s + e' + ey) with ex by (unfold s; lia). }
    assert (Hey : (0 < 2 ^ ey)%Q) by (apply Qpower_0_lt; reflexivity).
    apply (Qmult_le_r _ _ (2 ^ ey)%Q Hey).
    apply Qle_trans with (inject_Z (Zpos mx) * 2 ^ ex)%Q.
    + rewrite <- Hsplit. apply Qle_lteq. right. ring.
    + eapply Qle_trans; [exact Hle|]. apply Qle_lteq. right. ring.
Qed.

(** [(unsigned long long)x] is defined and at most any integer bound
    below [2^64] of a value that is not negative. *)
Lemma ull_of_double_upper x v T :
  double_value x = Some v -> (0 <= v <= inject_Z T)%Q -> T < 2 ^ 64 ->
  exists t, ull_of_double x = Some t /\ 0 <= t <= T.
Proof.
  intros Hx [Hv HT] Hmax.
  assert (HT0 : 0 <= T) by (rewrite (Zle_Qle 0); now apply Qle_trans with v).
  destruct (nonneg_value_cases x v Hx Hv) as [(s & -> & ->)|(m & e & -> & ->)].
  { exists 0. split; [reflexivity|lia]. }
  cbn [ull_of_double].
  assert (Ht : 0 <= (if 0 <=? e then Zpos m * 2 ^ e else Zpos m / 2 ^ (- e)) <= T).
  { destruct (Z.leb_spec 0 e) as [He|He].
    - assert (HQ : (inject_Z (Zpos m) * 2 ^ e <= inject_Z T * 2 ^ 0)%Q).
      { eapply Qle_trans; [exact HT|]. apply Qle_lteq. right. cbn. ring. }
      apply (Qdyadic_le _ e T 0 0) in HQ; [|lia|lia].
      rewrite !Z.sub_0_r, Z.pow_0_r in HQ.
      assert (0 < 2 ^ e) by (apply Z.pow_pos_nonneg; lia). nia.
    - assert (HQ : (inject_Z (Zpos m) * 2 ^ e <= inject_Z T * 2 ^ 0)%Q).
      { eapply Qle_trans; [exact HT|]. apply Qle_lteq. right. cbn. ring. }
      apply (Qdyadic_le _ e T 0 e) in HQ; [|lia|lia].
      rewrite Z.sub_diag, Z.mul_1_r in HQ. replace (0 - e) with (- e) in HQ by lia.
      assert (0 < 2 ^ (- e)) by (apply Z.pow_pos_nonneg; lia).
      split; [apply Z.div_pos; lia|].
      apply Z.div_le_upper_bound; [lia|]. lia. }
  destruct (Z.ltb_spec (if 0 <=? e then Zpos m * 2 ^ e else Zpos m / 2 ^ (- e)) (2 ^ 64));
    [|lia].
  eexists. split; [reflexivity|exact Ht].
Qed.

(** *** The round and sticky bits

    For rounding to the nearest the record of a shift has to say on
    which side of the half-way point the value lies. *)

Ltac bool_iffs :=
  repeat match goal with
  | H : true = true <-> _ |- _ => pose proof (proj1 H eq_refl); clear H
  | H : false = false <-> _ |- _ => pose proof (proj1 H eq_refl); clear H
  | H : false = true <-> ?P |- _ =>
      assert (~ P) by (let HP := fresh in intros HP; apply H in HP; discriminate); clear H
  | H : true = false <-> ?P |- _ =>
      assert (~ P) by (let HP := fresh in intros HP; apply H in HP; discriminate); clear H
  end.

Lemma shr_1_located mrs num den :
  0 < den -> shr_located mrs num den -> shr_located (shr_1 mrs) num (den * 2).
Proof.
  intros Hden (Hm & Hb & HR & HS). destruct mrs as [m r s]. cbn [shr_m shr_r shr_s] in *.
  unfold shr_located.
  destruct m as [|[p|p|]|p]; try lia; cbn [shr_1 shr_m shr_r shr_s];
    try change (Zpos p~1) with (2 * Zpos p + 1) in *;
    try change (Zpos p~0) with (2 * Zpos p) in *;
    destruct r, s; cbn [orb]; bool_iffs;
    (split; [lia|]); (split; [nia|]);
    (split; (split; [intros ?; try discriminate; try nia|intros ?; try reflexivity; exfalso; nia])).
Qed.

Lemma iter_pos_located p : forall mrs num den,
  0 < den -> shr_located mrs num den ->
  shr_located (SpecFloat.iter_pos shr_1 p mrs) num (den * 2 ^ Zpos p).
Proof.
  induction p as [p IH|p IH|]; intros mrs num den Hden Hb; cbn [SpecFloat.iter_pos].
  - apply shr_1_located in Hb; [|trivial].
    apply IH in Hb; [|lia].
    apply IH in Hb; [|assert (0 < 2 ^ Zpos p) by (apply Z.pow_pos_nonneg; lia); nia].
    replace (den * 2 ^ Zpos p~1) with (den * 2 * 2 ^ Zpos p * 2 ^ Zpos p); [exact Hb|].
    replace (Zpos p~1) with (Zpos p + Zpos p + 1) by lia.
    rewrite !Z.pow_add_r, Z.pow_1_r by lia. ring.
  - apply IH in Hb; [|lia].
    apply IH in Hb; [|assert (0 < 2 ^ Zpos p) by (apply Z.pow_pos_nonneg; lia); nia].
    replace (den * 2 ^ Zpos p~0) with (den * 2 ^ Zpos p * 2 ^ Zpos p); [exact Hb|].
    replace (Zpos p~0) with (Zpos p + Zpos p) by lia.
    rewrite Z.pow_add_r by lia. ring.
  - apply shr_1_located in Hb; [|trivial]. now rewrite Z.pow_1_r.
Qed.

Lemma shr_located_shift mrs e n num den :
  0 < den -> shr_located mrs num den ->
  snd (shr mrs e n) = e + Z.max n 0 /\
  shr_located (fst (shr mrs e n)) num (den * 2 ^ Z.max n 0).
Proof.
  intros Hden Hb. destruct n as [|p|p]; cbn [shr fst snd].
  - rewrite Z.max_r, Z.add_0_r, Z.mul_1_r by lia. now split.
  - rewrite Z.max_l by lia. split; [reflexivity|now apply iter_pos_located].
  - rewrite Z.max_r, Z.add_0_r, Z.mul_1_r by lia. now split.
Qed.

(** The record made for an exact mantissa. *)
Lemma exact_located m : 0 <= m -> shr_located (shr_record_of_loc m loc_Exact) m 1.
Proof.
  intros Hm. unfold shr_located. cbn [shr_record_of_loc shr_m shr_r shr_s].
  split; [exact Hm|]. split; [lia|]. split; split; intros; try discriminate; try lia.
Qed.

Ltac located_cases :=
  cbn [shr_record_of_loc shr_m shr_r shr_s];
  split; [assumption|]; split; [nia|]; split; split; intros ?;
  first [ discriminate | reflexivity | nia | (left; nia) | (right; nia)
        | match goal with H : _ \/ _ |- _ => destruct H; nia end ].

(** The record made for the quotient and remainder of a division. *)
Lemma quotient_located n d q r :
  0 < d -> n = d * q + r -> 0 <= r < d -> 0 <= q ->
  shr_located (shr_record_of_loc q (new_location d r)) n d.
Proof.
  intros Hd Hn Hr Hq. unfold shr_located, new_location, new_location_even, new_location_odd.
  destruct (Z.even d) eqn:Hev; destruct (Z.eqb_spec r 0) as [Hr0|Hr0].
  - subst r. located_cases.
  - destruct (Z.compare_spec (2 * r) d) as [Heq|Hlt|Hgt]; located_cases.
  - subst r. located_cases.
  - assert (Hodd : d <> 2 * r).
    { intros Heq. rewrite Heq, Z.even_mul in Hev. discriminate. }
    destruct (Z.compare_spec (2 * r + 1) d) as [Heq|Hlt|Hgt]; located_cases.
Qed.

(** Rounding to nearest, ties to even, read off a located record. *)
Lemma round_nearest_even_located mrs num den :
  0 < den -> shr_located mrs num den ->
  let f := shr_m mrs in
  let r := round_nearest_even f (loc_of_shr_record mrs) in
  (r = f \/ r = f + 1) /\
  (r = f + 1 <->
   (2 * f + 1) * den < 2 * num \/ ((2 * f + 1) * den = 2 * num /\ Z.odd f = true)).
Proof.
  intros Hden (Hm & Hb & HR & HS). destruct mrs as [m r s]. cbn [shr_m shr_r shr_s] in *.
  cbv zeta. destruct r, s; cbn [loc_of_shr_record round_nearest_even]; bool_iffs.
  - split; [now right|]. split; [intros _; left; lia|reflexivity].
  - rewrite <- Z.negb_odd. destruct (Z.odd m) eqn:Hodd; cbn [negb].
    + split; [now right|]. split; [intros _; right; split; [lia|reflexivity]|reflexivity].
    + split; [now left|]. split; [lia|]. intros [Hlt|[_ Hf]]; [lia|discriminate].
  - split; [now left|]. split; [lia|]. intros [Hlt|[Heq _]]; lia.
  - split; [now left|]. split; [lia|]. intros [Hlt|[Heq _]]; lia.
Qed.

(** *** Rounding is to the nearest, and monotone *)

Lemma Qdyadic_lt (a ea b eb c : Z) :
  c <= ea -> c <= eb ->
  (inject_Z a * 2 ^ ea < inject_Z b * 2 ^ eb)%Q <-> a * 2 ^ (ea - c) < b * 2 ^ (eb - c).
Proof.
  intros Ha Hb. pose proof (Qdyadic_le b eb a ea c Hb Ha) as Hle.
  split; intros Hlt.
  - apply Z.nle_gt. intros Hge. apply Hle in Hge. now apply Qle_not_lt in Hge.
  - apply Qnot_le_lt. intros Hge. apply Hle in Hge. lia.
Qed.

Lemma nearest_even_monotone x x' q f R q' f' R' :
  nearest_even x q f R -> nearest_even x' q' f' R' -> (x <= x')%Q ->
  (inject_Z R * 2 ^ q <= inject_Z R' * 2 ^ q')%Q.
Proof.
  intros (Hq & Hf & Hnorm & Hlo & Hhi & HR & Hup) (Hq' & Hf' & Hnorm' & Hlo' & Hhi' & HR' & Hup')
    Hxx.
  assert (Hcross : (inject_Z f * 2 ^ q < inject_Z (f' + 1) * 2 ^ q')%Q).
  { eapply Qle_lt_trans; [exact Hlo|]. eapply Qle_lt_trans; [exact Hxx|exact Hhi']. }
  destruct (Z.lt_trichotomy q q') as [Hlt|[Heq|Hgt]].
  - apply (Qdyadic_le R q R' q' q); [lia|lia|]. rewrite Z.sub_diag, Z.mul_1_r.
    assert (2 <= 2 ^ (q' - q)).
    { change 2 with (2 ^ 1) at 1. apply Z.pow_le_mono_r; lia. }
    specialize (Hnorm' ltac:(lia)). nia.
  - subst q'. apply (Qdyadic_le R q R' q q); [lia|lia|]. rewrite Z.sub_diag, !Z.mul_1_r.
    apply (Qdyadic_lt f q (f' + 1) q q) in Hcross; [|lia|lia].
    rewrite Z.sub_diag, !Z.mul_1_r in Hcross.
    destruct (Z.eq_dec f f') as [<-|Hne]; [|lia].
    destruct HR as [HR|HR]; [lia|]. subst R. enough (R' = f + 1) by lia.
    apply Hup'. destruct (proj1 Hup eq_refl) as [Hmid|[Hmid Hodd]].
    + left. eapply Qlt_le_trans; [exact Hmid|].
      apply Qmult_le_l; [reflexivity|exact Hxx].
    + destruct (Qle_lt_or_eq _ _ Hxx) as [Hstrict|Hsame].
      * left. rewrite Hmid. apply Qmult_lt_l; [reflexivity|exact Hstrict].
      * right. split; [|exact Hodd]. now rewrite Hmid, Hsame.
  - exfalso. apply (Qdyadic_lt f q (f' + 1) q' q') in Hcross; [|lia|lia].
    rewrite Z.sub_diag, Z.mul_1_r in Hcross.
    assert (2 <= 2 ^ (q - q')).
    { change 2 with (2 ^ 1) at 1. apply Z.pow_le_mono_r; lia. }
    specialize (Hnorm ltac:(lia)). nia.
Qed.

(** Comparing [a * 2^q] with the value [x = num / den * 2^e]. *)
Lemma Qscaled_le x num den e a q :
  0 < den -> (x * inject_Z den == inject_Z num * 2 ^ e)%Q -> e <= q ->
  (inject_Z a * 2 ^ q <= x)%Q <-> a * (den * 2 ^ (q - e)) <= num.
Proof.
  intros Hden Hx Hq.
  assert (Hd : (0 < inject_Z den)%Q) by (rewrite <- (Zlt_Qlt 0); lia).
  rewrite <- (Qmult_le_r _ _ _ Hd), Hx.
  assert (Heq : (inject_Z a * 2 ^ q * inject_Z den == inject_Z (a * den) * 2 ^ q)%Q)
    by (rewrite inject_Z_mult; ring).
  rewrite Heq, (Qdyadic_le (a * den) q num e e) by lia.
  rewrite Z.sub_diag, Z.mul_1_r. now replace (a * den * 2 ^ (q - e)) with (a * (den * 2 ^ (q - e))) by ring.
Qed.

Lemma Qscaled_ge x num den e a q :
  0 < den -> (x * inject_Z den == inject_Z num * 2 ^ e)%Q -> e <= q ->
  (x <= inject_Z a * 2 ^ q)%Q <-> num <= a * (den * 2 ^ (q - e)).
Proof.
  intros Hden Hx Hq.
  assert (Hd : (0 < inject_Z den)%Q) by (rewrite <- (Zlt_Qlt 0); lia).
  rewrite <- (Qmult_le_r _ _ _ Hd), Hx.
  assert (Heq : (inject_Z a * 2 ^ q * inject_Z den == inject_Z (a * den) * 2 ^ q)%Q)
    by (rewrite inject_Z_mult; ring).
  rewrite Heq, (Qdyadic_le num e (a * den) q e) by lia.
  rewrite Z.sub_diag, Z.mul_1_r. now replace (a * den * 2 ^ (q - e)) with (a * (den * 2 ^ (q - e))) by ring.
Qed.

Lemma Qscaled_lt x num den e a q :
  0 < den -> (x * inject_Z den == inject_Z num * 2 ^ e)%Q -> e <= q ->
  (inject_Z a * 2 ^ q < x)%Q <-> a * (den * 2 ^ (q - e)) < num.
Proof.
  intros Hden Hx Hq. pose proof (Qscaled_ge x num den e a q Hden Hx Hq) as Hge.
  split; intros Hlt.
  - apply Z.nle_gt. intros Hle. apply Hge in Hle. now apply Qle_not_lt in Hle.
  - apply Qnot_le_lt. intros Hle. apply Hge in Hle. lia.
Qed.

Lemma Qscaled_gt x num den e a q :
  0 < den -> (x * inject_Z den == inject_Z num * 2 ^ e)%Q -> e <= q ->
  (x < inject_Z a * 2 ^ q)%Q <-> num < a * (den * 2 ^ (q - e)).
Proof.
  intros Hden Hx Hq. pose proof (Qscaled_le x num den e a q Hden Hx Hq) as Hge.
  split; intros Hlt.
  - apply Z.nle_gt. intros Hle. apply Hge in Hle. now apply Qle_not_lt in Hle.
  - apply Qnot_le_lt. intros Hle. apply Hge in Hle. lia.
Qed.

Lemma Qscaled_eq x num den e a q :
  0 < den -> (x * inject_Z den == inject_Z num * 2 ^ e)%Q -> e <= q ->
  (inject_Z a * 2 ^ q == x)%Q <-> a * (den * 2 ^ (q - e)) = num.
Proof.
  intros Hden Hx Hq.
  pose proof (Qscaled_le x num den e a q Hden Hx Hq) as Hle.
  pose proof (Qscaled_ge x num den e a q Hden Hx Hq) as Hge.
  split; intros Heq.
  - apply Z.le_antisymm; [apply Hle|apply Hge]; rewrite Heq; apply Qle_refl.
  - apply Qle_antisym; [apply Hle|apply Hge]; lia.
Qed.

Lemma shr_m_of_loc m l : shr_m (shr_record_of_loc m l) = m.
Proof. now destruct l as [|[| |]]. Qed.

Lemma Zdigits2_le_53 r : 0 <= r < 2 ^ 53 -> Zdigits2 r <= 53.
Proof.
  intros Hr. destruct (Z.eq_dec r 0) as [->|Hr0]; [cbn; lia|].
  destruct (Zdigits2_bounds r) as [Hd [Hlow _]]; [lia|].
  assert (Hlt : 2 ^ (Zdigits2 r - 1) < 2 ^ 53) by lia.
  apply Z.pow_lt_mono_r_iff in Hlt; lia.
Qed.

(** The first stage of [binary_round_aux]: the shift to the exponent of
    the format and the rounding of the mantissa. *)
Lemma round_stage_nearest m e l num den x :
  0 < den -> shr_located (shr_record_of_loc m l) num den ->
  (l = loc_Exact /\ num = m * den /\ 0 < m) \/ e <= fexp prec emax (Zdigits2 m + e) ->
  (x * inject_Z den == inject_Z num * 2 ^ e)%Q ->
  let mrs1 := fst (shr_fexp prec emax m e l) in
  let e1 := snd (shr_fexp prec emax m e l) in
  let r := round_nearest_even (shr_m mrs1) (loc_of_shr_record mrs1) in
  exists q f R,
    nearest_even x q f R /\ (inject_Z r * 2 ^ e1 == inject_Z R * 2 ^ q)%Q /\ 0 <= r /\
    ((r < 2 ^ 53 /\ fexp prec emax (Zdigits2 r + e1) <= e1) \/
     (r = 2 ^ 53 /\ fexp prec emax (Zdigits2 r + e1) = e1 + 1)).
Proof.
  intros Hden Hloc Hprec Hx. cbv zeta. unfold shr_fexp.
  set (q := fexp prec emax (Zdigits2 m + e)).
  assert (Hqdef : q = Z.max (Zdigits2 m + e - 53) (-1074)) by apply fexp_eq.
  pose proof Hloc as (Hm & Hbm & _). rewrite shr_m_of_loc in Hm, Hbm.
  destruct (Z_le_gt_dec e q) as [Hq|Hq].
  - (* the value is rounded at the exponent [q] *)
    destruct (shr_located_shift (shr_record_of_loc m l) e (q - e) num den Hden Hloc)
      as [He1 Hb1].
    rewrite He1. rewrite Z.max_l in * by lia. replace (e + (q - e)) with q by lia.
    set (mrs1 := fst (shr (shr_record_of_loc m l) e (q - e))) in *.
    assert (Hpow : 0 < 2 ^ (q - e)) by (apply Z.pow_pos_nonneg; lia).
    assert (Hden1 : 0 < den * 2 ^ (q - e)) by nia.
    destruct (round_nearest_even_located mrs1 num _ Hden1 Hb1) as [Hr Hup].
    destruct Hb1 as (Hf & Hbf & _).
    set (f := shr_m mrs1) in *.
    set (r := round_nearest_even f (loc_of_shr_record mrs1)) in *.
    assert (Hfm : f * 2 ^ (q - e) <= m < (f + 1) * 2 ^ (q - e)) by nia.
    assert (Hf53 : f < 2 ^ 53).
    { destruct (Z.eq_dec m 0) as [Hm0|Hm0]; [nia|].
      destruct (Zdigits2_bounds m) as [Hd [_ Hhigh]]; [lia|].
      assert (Hlt : 1 * 2 ^ (q - e) <= 2 ^ 53 * 2 ^ (q - e)) by nia.
      destruct (Z_le_gt_dec (Zdigits2 m) (q - e)) as [Hsmall|Hbig].
      - assert (2 ^ Zdigits2 m <= 2 ^ (q - e)) by (apply Z.pow_le_mono_r; lia). nia.
      - assert (Hsplit : 2 ^ Zdigits2 m = 2 ^ (Zdigits2 m - (q - e)) * 2 ^ (q - e)).
        { rewrite <- Z.pow_add_r by lia. f_equal. lia. }
        assert (2 ^ (Zdigits2 m - (q - e)) <= 2 ^ 53) by (apply Z.pow_le_mono_r; lia).
        nia. }
    assert (Hf52 : -1074 < q -> 2 ^ 52 <= f).
    { intros Hbig.
      destruct (Z.eq_dec m 0) as [Hm0|Hm0].
      { subst m. cbn [Zdigits2] in Hqdef. lia. }
      destruct (Zdigits2_bounds m) as [Hd [Hlow _]]; [lia|].
      assert (Hs : q - e = Zdigits2 m - 53) by lia.
      assert (Hsplit : 2 ^ (Zdigits2 m - 1) = 2 ^ 52 * 2 ^ (q - e)).
      { rewrite <- Z.pow_add_r by lia. f_equal. lia. }
      nia. }
    exists q, f, r. split; [|split; [reflexivity|split]].
    + unfold nearest_even. split; [lia|]. split; [lia|]. split; [exact Hf52|].
      split; [apply (Qscaled_le x num den e f q Hden Hx Hq); lia|].
      split; [apply (Qscaled_gt x num den e (f + 1) q Hden Hx Hq); lia|].
      split; [exact Hr|].
      assert (Hx2 : ((2 # 1) * x * inject_Z den == inject_Z (2 * num) * 2 ^ e)%Q).
      { rewrite inject_Z_mult, <- Qmult_assoc, Hx. change (inject_Z 2) with (2 # 1). ring. }
      rewrite (Qscaled_lt _ _ _ _ (2 * f + 1) q Hden Hx2 Hq).
      rewrite (Qscaled_eq _ _ _ _ (2 * f + 1) q Hden Hx2 Hq).
      rewrite Hup. split; (intros [Hlt|[Heq Hodd]]; [left; lia|right; split; [lia|exact Hodd]]).
    + lia.
    + destruct (Z.eq_dec r (2 ^ 53)) as [Hr53|Hr53].
      * right. split; [exact Hr53|]. rewrite Hr53, fexp_eq.
        change (Zdigits2 (2 ^ 53)) with 54. lia.
      * left. split; [lia|]. rewrite fexp_eq.
        pose proof (Zdigits2_le_53 r ltac:(lia)). lia.
  - (* no shift: the value is a number of the format already *)
    destruct Hprec as [(-> & -> & Hmpos)|Hprec]; [|lia].
    assert (Hneg : q - e < 0) by lia.
    destruct (q - e) as [|p|p] eqn:Hn; try lia.
    cbn [shr shr_record_of_loc fst snd shr_m loc_of_shr_record round_nearest_even].
    destruct (Zdigits2_bounds m Hmpos) as [Hd [Hlow Hhigh]].
    assert (Hpow : 0 < 2 ^ (e - q)) by (apply Z.pow_pos_nonneg; lia).
    assert (Hxm : (x == inject_Z m * 2 ^ e)%Q).
    { assert (Hd1 : (0 < inject_Z den)%Q) by (rewrite <- (Zlt_Qlt 0); lia).
      apply (Qmult_inj_r _ _ (inject_Z den)); [intros H0; rewrite H0 in Hd1; discriminate|].
      rewrite Hx, inject_Z_mult. ring. }
    assert (Hf53 : m * 2 ^ (e - q) < 2 ^ 53).
    { assert (Hsplit : 2 ^ (Zdigits2 m + (e - q)) = 2 ^ Zdigits2 m * 2 ^ (e - q))
        by (apply Z.pow_add_r; lia).
      assert (2 ^ (Zdigits2 m + (e - q)) <= 2 ^ 53) by (apply Z.pow_le_mono_r; lia).
      nia. }
    exists q, (m * 2 ^ (e - q)), (m * 2 ^ (e - q)).
    assert (Hval : (inject_Z m * 2 ^ e == inject_Z (m * 2 ^ (e - q)) * 2 ^ q)%Q).
    { rewrite inject_Z_mult, (Qpower_split e q) by lia. ring. }
    split; [|split; [exact Hval|split; [lia|]]].
    + unfold nearest_even. split; [lia|]. split; [nia|]. split.
      { intros Hbig. assert (Hs : e - q = 53 - Zdigits2 m) by lia.
        assert (Hsplit : 2 ^ 52 = 2 ^ (Zdigits2 m - 1) * 2 ^ (e - q)).
        { rewrite <- Z.pow_add_r by lia. f_equal. lia. }
        nia. }
      rewrite Hxm.
      split; [rewrite Hval; apply Qle_refl|].
      split; [apply (Qdyadic_lt m e _ q q); [lia|lia|]; rewrite Z.sub_diag; lia|].
      split; [now left|].
      assert (H2x : ((2 # 1) * (inject_Z m * 2 ^ e) == inject_Z (2 * m) * 2 ^ e)%Q).
      { rewrite inject_Z_mult. change (inject_Z 2) with (2 # 1). ring. }
      rewrite H2x. split; [lia|]. intros [Hlt|[Heq _]]; exfalso.
      * apply (Qdyadic_lt _ q (2 * m) e q) in Hlt; [|lia|lia]. rewrite Z.sub_diag in Hlt. lia.
      * assert (Hle : (inject_Z (2 * (m * 2 ^ (e - q)) + 1) * 2 ^ q <= inject_Z (2 * m) * 2 ^ e)%Q)
          by (rewrite Heq; apply Qle_refl).
        apply (Qdyadic_le _ q (2 * m) e q) in Hle; [|lia|lia]. rewrite Z.sub_diag in Hle. lia.
    + left. split; [|fold q; lia].
      assert (2 ^ Zdigits2 m <= 2 ^ 53) by (apply Z.pow_le_mono_r; lia). lia.
Qed.

(** [binary_round_aux] overflows to an infinity or returns the value
    rounded to the nearest, ties to even. *)
Lemma binary_round_aux_nearest m e l num den x :
  0 < den -> shr_located (shr_record_of_loc m l) num den ->
  (l = loc_Exact /\ num = m * den /\ 0 < m) \/ e <= fexp prec emax (Zdigits2 m + e) ->
  (x * inject_Z den == inject_Z num * 2 ^ e)%Q ->
  binary_round_aux prec emax false m e l = S754_infinity false \/
  exists v q f R,
    double_value (binary_round_aux prec emax false m e l) = Some v /\
    (v == inject_Z R * 2 ^ q)%Q /\ nearest_even x q f R.
Proof.
  intros Hden Hloc Hprec Hx.
  destruct (round_stage_nearest m e l num den x Hden Hloc Hprec Hx)
    as (q & f & R & Hnear & Hval & Hr & Hsecond).
  unfold binary_round_aux.
  destruct (shr_fexp prec emax m e l) as [mrs1 e1]. cbn [fst snd] in Hval, Hr, Hsecond.
  set (r := round_nearest_even (shr_m mrs1) (loc_of_shr_record mrs1)) in *.
  unfold shr_fexp.
  set (n2 := fexp prec emax (Zdigits2 r + e1) - e1).
  destruct (shr_located_shift (shr_record_of_loc r loc_Exact) e1 n2 r 1) as [He2 Hb2];
    [lia|now apply exact_located|].
  destruct (shr (shr_record_of_loc r loc_Exact) e1 n2) as [mrs2 e2].
  cbn [fst snd] in He2, Hb2. destruct Hb2 as (Hm2 & Hfloor & _).
  assert (Hsame : (inject_Z (shr_m mrs2) * 2 ^ e2 == inject_Z R * 2 ^ q)%Q).
  { rewrite <- Hval. rewrite He2.
    destruct Hsecond as [[Hsmall Hn2]|[Hbig Hn2]].
    - rewrite Z.max_r in * by lia. rewrite Z.add_0_r.
      replace (shr_m mrs2) with r by lia. reflexivity.
    - rewrite Z.max_l in * by lia. replace n2 with 1 in * by lia.
      replace (shr_m mrs2) with (2 ^ 52) by lia. rewrite Hbig.
      rewrite Qpower_plus by discriminate. 
      change (inject_Z (2 ^ 53)) with (inject_Z (2 ^ 52) * 2 ^ 1)%Q. ring. }
  destruct (shr_m mrs2) as [|m2|m2]; [| |lia].
  - right. exists 0%Q, q, f, R. split; [reflexivity|]. split; [|exact Hnear].
    rewrite <- Hsame. ring.
  - destruct (Z.leb_spec e2 (emax - prec)) as [_|Hover]; [|now left].
    right. exists (inject_Z (Zpos m2) * 2 ^ e2)%Q, q, f, R.
    split; [reflexivity|]. split; [exact Hsame|exact Hnear].
Qed.

(** A value rounded to the nearest is not negative. *)
Lemma nearest_even_nonneg x q f R : nearest_even x q f R -> (0 <= inject_Z R * 2 ^ q)%Q.
Proof.
  intros (_ & Hf & _ & _ & _ & HR & _).
  apply Qmult_le_0_compat; [rewrite <- (Zle_Qle 0); lia|].
  apply Qlt_le_weak, Qpower_0_lt. reflexivity.
Qed.

(** The product of two positive numbers, rounded. *)
Lemma double_mul_nearest mx ex my ey :
  let z := double_mul (S754_finite false mx ex) (S754_finite false my ey) in
  z = S754_infinity false \/
  exists v q f R,
    double_value z = Some v /\ (v == inject_Z R * 2 ^ q)%Q /\
    nearest_even (inject_Z (Zpos mx) * 2 ^ ex * (inject_Z (Zpos my) * 2 ^ ey)) q f R.
Proof.
  cbv zeta. unfold double_mul. cbn [SFmul xorb].
  apply (binary_round_aux_nearest _ _ loc_Exact (Zpos (mx * my)) 1).
  - lia.
  - apply exact_located. lia.
  - left. split; [reflexivity|]. split; lia.
  - rewrite Pos2Z.inj_mul, inject_Z_mult, Qpower_plus by discriminate.
    change (inject_Z 1) with 1%Q. ring.
Qed.

(** The quotient of two positive numbers, rounded. *)
Lemma double_div_nearest mx ex my ey x :
  (x * (inject_Z (Zpos my) * 2 ^ ey) == inject_Z (Zpos mx) * 2 ^ ex)%Q ->
  let z := double_div (S754_finite false mx ex) (S754_finite false my ey) in
  z = S754_infinity false \/
  exists v q f R,
    double_value z = Some v /\ (v == inject_Z R * 2 ^ q)%Q /\ nearest_even x q f R.
Proof.
  intros Hx. cbv zeta. unfold double_div. cbn [SFdiv xorb].
  unfold SFdiv_core_binary.
  set (e' := Z.min (fexp prec emax (Zdigits2 (Zpos mx) + ex - (Zdigits2 (Zpos my) + ey)))
                   (ex - ey)).
  set (s := ex - ey - e').
  assert (Hs : 0 <= s) by (unfold s, e'; lia).
  assert (Hm' : match s with Zpos _ => Z.shiftl (Zpos mx) s | Z0 => Zpos mx | Zneg _ => 0 end
                = Zpos mx * 2 ^ s).
  { destruct s as [|p|p] eqn:Hsp; [cbn; lia| |lia]. apply Z.shiftl_mul_pow2. lia. }
  rewrite Hm'.
  pose proof (Z_div_mod (Zpos mx * 2 ^ s) (Zpos my) ltac:(lia)) as Hdiv.
  destruct (Z.div_eucl (Zpos mx * 2 ^ s) (Zpos my)) as [q r]. destruct Hdiv as [Heq Hr].
  assert (H2s : 0 < 2 ^ s) by (apply Z.pow_pos_nonneg; lia).
  assert (Hq : 0 <= q) by nia.
  apply (binary_round_aux_nearest q e' (new_location (Zpos my) r) (Zpos mx * 2 ^ s) (Zpos my)).
  - lia.
  - apply quotient_located; trivial; lia.
  - right.
    pose proof (quotient_digits (Zpos mx) (Zpos my) s q r ltac:(lia) ltac:(lia) Hs Heq Hr)
      as Hdq.
    assert (He' : e' <= Z.max (Zdigits2 (Zpos mx) + ex - (Zdigits2 (Zpos my) + ey) - 53)
                              (-1074))
      by (unfold e'; rewrite fexp_eq; lia).
    rewrite fexp_eq. unfold s in Hdq. clearbody e'. lia.
  - assert (Hey : (0 < 2 ^ ey)%Q) by (apply Qpower_0_lt; reflexivity).
    apply (Qmult_inj_r _ _ (2 ^ ey)%Q); [intros H0; rewrite H0 in Hey; discriminate|].
    assert (Hsplit : (inject_Z (2 ^ s) * 2 ^ e' * 2 ^ ey == 2 ^ ex)%Q).
    { rewrite Zpower_Qpower by lia. rewrite <- !Qpower_plus by discriminate.
      now replace (s + e' + ey) with ex by (unfold s; lia). }
    rewrite inject_Z_mult.
    transitivity (x * (inject_Z (Zpos my) * 2 ^ ey))%Q; [ring|].
    rewrite Hx, <- Hsplit. ring.
Qed.

(** Multiplying by a fixed number that is not negative is monotone. *)
Lemma double_mul_monotone x p p' vx vp vp' w w' :
  double_value x = Some vx -> (0 <= vx)%Q ->
  double_value p = Some vp -> double_value p' = Some vp' ->
  (0 <= vp)%Q -> (vp <= vp')%Q ->
  double_value (double_mul x p) = Some w -> double_value (double_mul x p') = Some w' ->
  (0 <= w)%Q /\ (w <= w')%Q.
Proof.
  intros Hx Hvx Hp Hp' Hvp Hle Hw Hw'.
  assert (Hvp' : (0 <= vp')%Q) by now apply Qle_trans with vp.
  destruct (nonneg_value_cases x vx Hx Hvx) as [(sx & -> & ->)|(mx & ex & -> & ->)];
    destruct (nonneg_value_cases p vp Hp Hvp) as [(sp & -> & ->)|(mp & ep & -> & ->)];
    destruct (nonneg_value_cases p' vp' Hp' Hvp') as [(sp' & -> & ->)|(mp' & ep' & -> & ->)];
    try (cbn in Hw, Hw'; injection Hw as <-; injection Hw' as <-;
         split; apply Qle_refl).
  - (* [p] is a zero *)
    cbn in Hw. injection Hw as <-. split; [apply Qle_refl|].
    destruct (double_mul_nearest mx ex mp' ep') as [Hinf|(v & q & f & R & Hv & Heq & Hnear)].
    + cbv zeta in Hinf. rewrite Hinf in Hw'. discriminate.
    + cbv zeta in Hv. rewrite Hv in Hw'. injection Hw' as <-. rewrite Heq.
      exact (nearest_even_nonneg _ q f R Hnear).
  - (* [p'] is a zero and [p] is not *)
    exfalso. pose proof (finite_value_pos mp ep) as Hpos. lra.
  - destruct (double_mul_nearest mx ex mp ep) as [Hinf|(v & q & f & R & Hv & Heq & Hnear)];
      [cbv zeta in Hinf; rewrite Hinf in Hw; discriminate|].
    destruct (double_mul_nearest mx ex mp' ep')
      as [Hinf|(v' & q' & f' & R' & Hv' & Heq' & Hnear')];
      [cbv zeta in Hinf; rewrite Hinf in Hw'; discriminate|].
    cbv zeta in Hv, Hv'. rewrite Hv in Hw. rewrite Hv' in Hw'.
    injection Hw as <-. injection Hw' as <-. rewrite Heq, Heq'. split.
    + exact (nearest_even_nonneg _ q f R Hnear).
    + apply (nearest_even_monotone _ _ _ _ _ _ _ _ Hnear Hnear').
      apply Qmult_le_l; [apply finite_value_pos|exact Hle].
Qed.

(** Dividing by a fixed positive number is monotone. *)
Lemma double_div_monotone x x' my ey vx vx' w w' :
  double_value x = Some vx -> double_value x' = Some vx' ->
  (0 <= vx)%Q -> (vx <= vx')%Q ->
  double_value (double_div x (S754_finite false my ey)) = Some w ->
  double_value (double_div x' (S754_finite false my ey)) = Some w' ->
  (0 <= w)%Q /\ (w <= w')%Q.
Proof.
  intros Hx Hx' Hvx Hle Hw Hw'.
  assert (Hvx' : (0 <= vx')%Q) by now apply Qle_trans with vx.
  pose proof (finite_value_pos my ey) as Hd.
  assert (Hd0 : ~ (inject_Z (Zpos my) * 2 ^ ey == 0)%Q) by (intros H0; rewrite H0 in Hd; discriminate).
  destruct (nonneg_value_cases x vx Hx Hvx) as [(sx & -> & ->)|(mx & ex & -> & ->)];
    destruct (nonneg_value_cases x' vx' Hx' Hvx') as [(sx' & -> & ->)|(mx' & ex' & -> & ->)].
  - cbn in Hw, Hw'. injection Hw as <-. injection Hw' as <-. split; apply Qle_refl.
  - cbn in Hw. injection Hw as <-. split; [apply Qle_refl|].
    destruct (double_div_nearest mx' ex' my ey
                (inject_Z (Zpos mx') * 2 ^ ex' / (inject_Z (Zpos my) * 2 ^ ey))%Q)
      as [Hinf|(v & q & f & R & Hv & Heq & Hnear)].
    + rewrite Qmult_comm. apply Qmult_div_r. exact Hd0.
    + cbv zeta in Hinf. rewrite Hinf in Hw'. discriminate.
    + cbv zeta in Hv. rewrite Hv in Hw'. injection Hw' as <-. rewrite Heq.
      exact (nearest_even_nonneg _ q f R Hnear).
  - exfalso. pose proof (finite_value_pos mx ex) as Hpos. lra.
  - destruct (double_div_nearest mx ex my ey
                (inject_Z (Zpos mx) * 2 ^ ex / (inject_Z (Zpos my) * 2 ^ ey))%Q)
      as [Hinf|(v & q & f & R & Hv & Heq & Hnear)];
      [rewrite Qmult_comm; apply Qmult_div_r; exact Hd0|cbv zeta in Hinf; rewrite Hinf in Hw; discriminate|].
    destruct (double_div_nearest mx' ex' my ey
                (inject_Z (Zpos mx') * 2 ^ ex' / (inject_Z (Zpos my) * 2 ^ ey))%Q)
      as [Hinf|(v' & q' & f' & R' & Hv' & Heq' & Hnear')];
      [rewrite Qmult_comm; apply Qmult_div_r; exact Hd0|cbv zeta in Hinf; rewrite Hinf in Hw'; discriminate|].
    cbv zeta in Hv, Hv'. rewrite Hv in Hw. rewrite Hv' in Hw'.
    injection Hw as <-. injection Hw' as <-. rewrite Heq, Heq'. split.
    + exact (nearest_even_nonneg _ q f R Hnear).
    + apply (nearest_even_monotone _ _ _ _ _ _ _ _ Hnear Hnear').
      apply Qmult_le_r; [apply Qinv_lt_0_compat; exact Hd|exact Hle].
Qed.

(** [(unsigned long long)x] is the integral part of [x]. *)
Lemma ull_of_double_floor x v t :
  double_value x = Some v -> (0 <= v)%Q -> ull_of_double x = Some t ->
  forall T, T <= t <-> (inject_Z T <= v)%Q.
Proof.
  intros Hx Hv Ht T.
  destruct (nonneg_value_cases x v Hx Hv) as [(s & -> & ->)|(m & e & -> & ->)].
  { cbn in Ht. injection Ht as <-. change 0%Q with (inject_Z 0). now rewrite <- Zle_Qle. }
  cbn [ull_of_double] in Ht.
  destruct (Z.ltb_spec (if 0 <=? e then Zpos m * 2 ^ e else Zpos m / 2 ^ (- e)) (2 ^ 64));
    [|discriminate].
  injection Ht as <-.
  assert (HT : (inject_Z T == inject_Z T * 2 ^ 0)%Q) by (cbn; ring).
  rewrite HT.
  destruct (Z.leb_spec 0 e) as [He|He].
  - rewrite (Qdyadic_le T 0 (Zpos m) e 0) by lia.
    now rewrite !Z.sub_0_r, Z.pow_0_r, Z.mul_1_r.
  - rewrite (Qdyadic_le T 0 (Zpos m) e e) by lia.
    rewrite Z.sub_diag, Z.mul_1_r. replace (0 - e) with (- e) by lia.
    assert (0 < 2 ^ (- e)) by (apply Z.pow_pos_nonneg; lia).
    split; intros Hle.
    + pose proof (Z.mul_div_le (Zpos m) (2 ^ (- e)) ltac:(lia)). nia.
    + apply Z.div_le_lower_bound; lia.
Qed.

Lemma ull_of_double_monotone x x' v v' t t' :
  double_value x = Some v -> double_value x' = Some v' ->
  (0 <= v)%Q -> (v <= v')%Q ->
  ull_of_double x = Some t -> ull_of_double x' = Some t' -> t <= t'.
Proof.
  intros Hx Hx' Hv Hle Ht Ht'.
  assert (Hv' : (0 <= v')%Q) by now apply Qle_trans with v.
  apply (ull_of_double_floor x' v' t' Hx' Hv' Ht' t).
  apply Qle_trans with v; [|exact Hle].
  apply (ull_of_double_floor x v t Hx Hv Ht t). lia.
Qed.

(** [(double)n] for [n] that is not negative: an infinity when [n] is
    beyond the largest [double], else a number that is not negative. *)
Lemma double_of_Z_cases n :
  0 <= n ->
  double_of_Z n = S754_infinity false \/
  exists v, double_value (double_of_Z n) = Some v /\ (0 <= v)%Q.
Proof.
  intros Hn. destruct n as [|p|p]; [| |lia].
  { right. exists 0%Q. split; [reflexivity|apply Qle_refl]. }
  unfold double_of_Z, binary_normalize, binary_round.
  pose proof (shl_align_value p 0 (fexp prec emax (Zpos (digits2_pos p) + 0))) as Hal.
  destruct (shl_align p 0 (fexp prec emax (Zpos (digits2_pos p) + 0))) as [mz ez].
  destruct Hal as [Hez Hmz].
  destruct (binary_round_aux_nearest (Zpos mz) ez loc_Exact (Zpos mz) 1
              (inject_Z (Zpos mz) * 2 ^ ez)%Q)
    as [Hinf|(v & q & f & R & Hv & Heq & Hnear)].
  - lia.
  - apply exact_located. lia.
  - left. split; [reflexivity|]. split; lia.
  - change (inject_Z 1) with 1%Q. ring.
  - now left.
  - right. exists v. split; [exact Hv|]. rewrite Heq.
    exact (nearest_even_nonneg _ q f R Hnear).
Qed.

Lemma double_of_Z_100 : double_of_Z 100 = S754_finite false 7036874417766400 (-46).
Proof. reflexivity. Qed.

(** A conversion that is defined is of a zero or a finite number. *)
Lemma ull_of_double_value x t :
  ull_of_double x = Some t -> exists v, double_value x = Some v.
Proof. destruct x; cbn; try discriminate; eauto. Qed.

(** A quotient by a finite number has a value only when the dividend
    has one. *)
Lemma double_div_value x s m e w :
  double_value (double_div x (S754_finite s m e)) = Some w ->
  exists v, double_value x = Some v.
Proof. destruct x; cbn; try discriminate; eauto. Qed.

End Binary64Facts.

(** ** io_latency_tracer.c *)

Module IoLatencyUserSpec.
Import IoStats Binary64 IoLatencyUser BlockRun Binary64Facts.

Lemma slot_of_nat h n : slot h (Z.of_nat n) = default 0 (slots h !! n).
Proof. unfold slot. now rewrite Nat2Z.id. Qed.

(** Reading the 32 slots by index gives back the array. *)
Lemma slots_by_index h :
  length (slots h) = Z.to_nat MAX_SLOTS ->
  slot h <$> seqZ 0 MAX_SLOTS = slots h.
Proof.
  intros Hlen. apply list_eq. intros n. rewrite list_lookup_fmap.
  destruct (decide (Z.of_nat n < MAX_SLOTS)) as [Hlt|Hge].
  - rewrite lookup_seqZ_lt by trivial. cbn [fmap option_fmap option_map].
    rewrite Z.add_0_l, slot_of_nat.
    destruct (slots h !! n) eqn:Hn; [reflexivity|].
    apply lookup_ge_None in Hn. lia.
  - rewrite lookup_seqZ_ge by lia. symmetry. apply lookup_ge_None. lia.
Qed.

Lemma sum_bounds (l : list Z) (B : Z) :
  Forall (fun c => 0 <= c < B) l ->
  0 <= foldr Z.add 0 l <= Z.of_nat (length l) * B.
Proof.
  induction 1 as [|c l Hc _ IH]; cbn [foldr length]; [lia|].
  rewrite Nat2Z.inj_succ. nia.
Qed.

Lemma hist_total_bound h : hist_ok h -> 0 <= hist_total h <= 32 * 2 ^ 32.
Proof.
  intros [Hlen Hall]. pose proof (sum_bounds _ _ Hall) as Hsum.
  rewrite Hlen in Hsum. exact Hsum.
Qed.

Lemma slot_range h i : hist_ok h -> 0 <= slot h i < 2 ^ 32.
Proof.
  intros [_ Hall]. unfold slot.
  destruct (slots h !! Z.to_nat i) as [c|] eqn:Hc; cbn; [|lia].
  rewrite Forall_forall in Hall. apply Hall.
  apply list_elem_of_lookup. eauto.
Qed.

(** The loop returns from inside as soon as the counters still to be
    added reach the target. *)
Lemma percentile_loop_reaches h target rest :
  forall i c,
    0 <= c ->
    Forall (fun j => 0 <= slot h j) (i :: rest) ->
    c + foldr Z.add 0 (slot h <$> i :: rest) < 2 ^ 64 ->
    target <= c + foldr Z.add 0 (slot h <$> i :: rest) ->
    exists j, j ∈ i :: rest /\
      percentile_loop h target (i :: rest) c = (ReturnInLoop j, bucket_midpoint j).
Proof.
  induction rest as [|i' rest IH]; intros i c Hc Hnn Hfit Hreach.
  - apply Forall_cons in Hnn as [Hi _].
    rewrite fmap_cons in Hfit, Hreach. cbn [fmap list_fmap foldr] in Hfit, Hreach.
    cbn [percentile_loop]. rewrite to_u64_small by lia.
    destruct (Z.leb_spec target (c + slot h i)); [|lia].
    exists i. split; [apply list_elem_of_here|reflexivity].
  - apply Forall_cons in Hnn as [Hi Hnn].
    rewrite fmap_cons in Hfit, Hreach. cbn [foldr] in Hfit, Hreach.
    assert (Hrest : 0 <= foldr Z.add 0 (slot h <$> i' :: rest)).
    { clear -Hnn. induction Hnn as [|j l Hj _ IHl]; cbn; [lia|].
      change (foldr Z.add 0 (map (slot h) l)) with (foldr Z.add 0 (slot h <$> l)) in *.
      lia. }
    change (percentile_loop h target (i :: i' :: rest) c) with
      (let cumulative := to_u64 (c + slot h i) in
       if target <=? cumulative then (ReturnInLoop i, bucket_midpoint i)
       else percentile_loop h target (i' :: rest) cumulative).
    cbv zeta. rewrite to_u64_small by lia.
    destruct (Z.leb_spec target (c + slot h i)).
    + exists i. split; [apply list_elem_of_here|reflexivity].
    + destruct (IH i' (c + slot h i)) as (j & Hj & Hloop); try lia; trivial.
      exists j. split; [now apply list_elem_of_further|exact Hloop].
Qed.

(** *** The target, in binary64 *)

Lemma ull_of_double_range x t : ull_of_double x = Some t -> 0 <= t < 2 ^ 64.
Proof.
  destruct x as [s|s| |s m e]; cbn [ull_of_double]; try discriminate.
  - intros [= <-]. lia.
  - set (v := if 0 <=? e then Zpos m * 2 ^ e else Zpos m / 2 ^ (- e)).
    assert (Hv : 0 <= v).
    { unfold v. destruct (Z.leb_spec 0 e) as [He|He].
      - assert (0 < 2 ^ e) by (apply Z.pow_pos_nonneg; lia). lia.
      - apply Z.div_pos; [lia|]. apply Z.pow_pos_nonneg; lia. }
    destruct s.
    + destruct (v =? 0); [intros [= <-]; lia|discriminate].
    + destruct (Z.ltb_spec v (2 ^ 64)); [intros [= <-]; lia|discriminate].
Qed.

Lemma percentile_target_range total p t :
  percentile_target total p = Some t -> 0 <= t < 2 ^ 64.
Proof. apply ull_of_double_range. Qed.

Lemma inject_Z_pow2 N k : 0 <= k -> (inject_Z N * 2 ^ k == inject_Z (N * 2 ^ k))%Q.
Proof.
  intros Hk. rewrite inject_Z_mult, Zpower_Qpower by lia. reflexivity.
Qed.

(** The three roundings of the target, bounded one after the other:
    [N0 * 2^k0] bounds the converted total, [N1 * 2^k1] the product and
    [N2 * 2^k2] the quotient; each bound is one a [double] holds. *)
Lemma percentile_target_upper total p vp N0 k0 N1 k1 N2 k2 :
  0 <= total <= N0 * 2 ^ k0 ->
  double_value p = Some vp -> (0 <= vp)%Q ->
  0 <= N0 < 2 ^ 53 -> 0 <= k0 <= 900 ->
  0 <= N1 < 2 ^ 53 -> 0 <= k1 <= 900 ->
  0 <= N2 < 2 ^ 53 -> 0 <= k2 <= 900 ->
  (vp * inject_Z (N0 * 2 ^ k0) <= inject_Z (N1 * 2 ^ k1))%Q ->
  N1 * 2 ^ k1 <= 100 * (N2 * 2 ^ k2) ->
  N2 * 2 ^ k2 < 2 ^ 64 ->
  exists target,
    percentile_target total p = Some target /\ 0 <= target <= N2 * 2 ^ k2.
Proof.
  intros Htotal Hp Hvp HN0 Hk0 HN1 Hk1 HN2 Hk2 Hprod Hquot Hmax.
  destruct (double_of_Z_upper total N0 k0) as (v0 & H0 & Hv0); try lia.
  destruct (double_mul_upper (double_of_Z total) p v0 vp N1 k1 H0 Hp) as (v1 & H1 & Hv1);
    try lia; trivial; [apply Hv0| |].
  { rewrite (inject_Z_pow2 N1 k1) by lia. eapply Qle_trans; [|exact Hprod].
    rewrite (Qmult_comm vp). apply Qmult_le_compat_r; [|exact Hvp].
    rewrite <- (inject_Z_pow2 N0 k0) by lia. apply Hv0. }
  destruct (double_div_upper (double_mul (double_of_Z total) p) (double_of_Z 100)
              v1 7036874417766400 (-46) N2 k2 H1 eq_refl) as (v2 & H2 & Hv2);
    try lia; [apply Hv1| |].
  { assert (Hhundred : (inject_Z (Zpos 7036874417766400) * 2 ^ (-46) == 100 # 1)%Q)
      by reflexivity.
    rewrite Hhundred. eapply Qle_trans; [apply Hv1|].
    rewrite (inject_Z_pow2 N1 k1), (inject_Z_pow2 N2 k2) by lia.
    change (100 # 1)%Q with (inject_Z 100). rewrite <- inject_Z_mult, <- Zle_Qle. lia. }
  destruct (ull_of_double_upper _ v2 (N2 * 2 ^ k2) H2) as (t & Ht & Hrange);
    [|exact Hmax|].
  { rewrite <- (inject_Z_pow2 N2 k2) by lia. exact Hv2. }
  exists t. split; [exact Ht|exact Hrange].
Qed.

(** A percentile from 0 to 100 of a total that 32 [__u32] counters can
    add up to gives a target of at most [total]. *)
Lemma percentile_target_le_total total p vp :
  0 <= total < 2 ^ 46 ->
  double_value p = Some vp -> (0 <= vp <= 100 # 1)%Q ->
  exists target, percentile_target total p = Some target /\ 0 <= target <= total.
Proof.
  intros Htotal Hp [Hp0 Hp100].
  destruct (percentile_target_upper total p vp total 0 (100 * total) 0 total 0)
    as (t & Ht & Hr); trivial; try lia.
  - rewrite !Z.pow_0_r, !Z.mul_1_r, inject_Z_mult.
    apply Qmult_le_compat_r; [exact Hp100|]. rewrite <- (Zle_Qle 0). lia.
  - exists t. split; [exact Ht|lia].
Qed.

(** For a percentile from 0 to 99 the conversion of the target is
    defined, whatever [unsigned long long] the total is. *)
Lemma percentile_target_defined total p vp :
  0 <= total < 2 ^ 64 ->
  double_value p = Some vp -> (0 <= vp <= 99 # 1)%Q ->
  exists target, percentile_target total p = Some target.
Proof.
  intros Htotal Hp [Hp0 Hp99].
  destruct (percentile_target_upper total p vp (2 ^ 52) 12 (99 * 2 ^ 46) 18
              (2 ^ 53 - 1) 11) as (t & Ht & _); trivial; try lia.
  - change (inject_Z (99 * 2 ^ 46 * 2 ^ 18))
      with ((99 # 1) * inject_Z (2 ^ 52 * 2 ^ 12))%Q.
    apply Qmult_le_compat_r; [exact Hp99|]. vm_compute. discriminate.
  - now exists t.
Qed.

(** *** The walk over the slots *)

Lemma sum_app (l k : list Z) :
  foldr Z.add 0 (l ++ k) = foldr Z.add 0 l + foldr Z.add 0 k.
Proof. induction l as [|x l IH]; cbn [app foldr]; lia. Qed.

Lemma sum_nonneg (l : list Z) : Forall (fun c => 0 <= c) l -> 0 <= foldr Z.add 0 l.
Proof. induction 1; cbn [foldr]; lia. Qed.

Lemma cumulative_count_before h : cumulative_count h (-1) = 0.
Proof. reflexivity. Qed.

Lemma cumulative_count_step h i :
  0 <= i -> cumulative_count h i = cumulative_count h (i - 1) + slot h i.
Proof.
  intros Hi. unfold cumulative_count.
  replace (i - 1 + 1) with i by lia.
  rewrite (seqZ_app 0 i 1), fmap_app, sum_app by lia.
  rewrite (seqZ_cons (0 + i) 1), (seqZ_nil _ (Z.pred 1)) by lia. cbn [fmap list_fmap foldr].
  rewrite Z.add_0_l, Z.add_0_r. reflexivity.
Qed.

Lemma cumulative_count_all h :
  hist_ok h -> cumulative_count h 31 = hist_total h.
Proof.
  intros [Hlen _]. unfold cumulative_count, hist_total.
  change (31 + 1) with MAX_SLOTS. now rewrite slots_by_index.
Qed.

Lemma cumulative_count_range h i :
  hist_ok h -> -1 <= i <= 31 -> 0 <= cumulative_count h i <= hist_total h.
Proof.
  intros Hok Hi. rewrite <- (cumulative_count_all h Hok). unfold cumulative_count.
  replace (31 + 1) with ((i + 1) + (31 - i)) by lia.
  rewrite (seqZ_app 0 (i + 1) (31 - i)), fmap_app, sum_app by lia.
  assert (Hnn : forall l, 0 <= foldr Z.add 0 (slot h <$> l)).
  { intros l. apply sum_nonneg, Forall_fmap, Forall_forall.
    intros j _. apply (slot_range h j Hok). }
  pose proof (Hnn (seqZ 0 (i + 1))). pose proof (Hnn (seqZ (0 + (i + 1)) (31 - i))). lia.
Qed.

Lemma cumulative_count_monotone h i j :
  hist_ok h -> -1 <= i <= j -> cumulative_count h i <= cumulative_count h j.
Proof.
  intros Hok Hij. unfold cumulative_count.
  replace (j + 1) with ((i + 1) + (j - i)) by lia.
  rewrite (seqZ_app 0 (i + 1) (j - i)), fmap_app, sum_app by lia.
  assert (0 <= foldr Z.add 0 (slot h <$> seqZ (0 + (i + 1)) (j - i))); [|lia].
  apply sum_nonneg, Forall_fmap, Forall_forall.
  intros k _. apply (slot_range h k Hok).
Qed.

(** The walk stops at the first slot at which the cumulative count
    reaches the target. *)
Lemma percentile_loop_first h target :
  hist_ok h ->
  forall (n : nat) a c i v,
    0 <= a -> a + Z.of_nat n <= 32 ->
    c = cumulative_count h (a - 1) ->
    percentile_loop h target (seqZ a (Z.of_nat n)) c = (ReturnInLoop i, v) ->
    a <= i < a + Z.of_nat n /\ v = bucket_midpoint i /\
    target <= cumulative_count h i /\
    forall j, a <= j < i -> cumulative_count h j < target.
Proof.
  intros Hok. induction n as [|n IH]; intros a c i v Ha Han Hc Hloop.
  - cbn in Hloop. discriminate.
  - rewrite seqZ_cons in Hloop by lia.
    replace (Z.pred (Z.of_nat (S n))) with (Z.of_nat n) in Hloop by lia.
    cbn [percentile_loop] in Hloop.
    assert (Hcum : to_u64 (c + slot h a) = cumulative_count h a).
    { rewrite (cumulative_count_step h a Ha), <- Hc. apply to_u64_small.
      pose proof (cumulative_count_range h a Hok ltac:(lia)) as Hr.
      rewrite (cumulative_count_step h a Ha), <- Hc in Hr.
      pose proof (hist_total_bound h Hok). lia. }
    rewrite Hcum in Hloop.
    destruct (Z.leb_spec target (cumulative_count h a)) as [Hreach|Hnot].
    + injection Hloop as <- <-. repeat split; try lia.
    + destruct (IH (Z.succ a) (cumulative_count h a) i v) as (Hi & Hv & Ht & Hfirst);
        [lia|lia|f_equal; lia|exact Hloop|].
      repeat split; try lia; trivial.
      intros j Hj. destruct (Z.eq_dec j a) as [->|Hne]; [exact Hnot|].
      apply Hfirst. lia.
Qed.

(** The walk does return from inside the loop when the target is at
    most the number of events counted, and then at the first slot whose
    cumulative count reaches the target. *)
Lemma percentile_loop_found h target :
  hist_ok h -> 0 <= target <= hist_total h ->
  exists i, 0 <= i < MAX_SLOTS /\
    percentile_loop h target (seqZ 0 MAX_SLOTS) 0 = (ReturnInLoop i, bucket_midpoint i) /\
    target <= cumulative_count h i /\
    forall j, 0 <= j < i -> cumulative_count h j < target.
Proof.
  intros Hok Ht. pose proof (hist_total_bound h Hok) as Hbound.
  assert (Hsame : foldr Z.add 0 (slot h <$> seqZ 0 MAX_SLOTS) = hist_total h).
  { rewrite slots_by_index by apply Hok. reflexivity. }
  assert (Hfound : exists j, 0 <= j < MAX_SLOTS /\
            percentile_loop h target (seqZ 0 MAX_SLOTS) 0 =
              (ReturnInLoop j, bucket_midpoint j)).
  { change (seqZ 0 MAX_SLOTS) with (0 :: seqZ 1 31) in *.
    destruct (percentile_loop_reaches h target (seqZ 1 31) 0 0) as (j & Hj & Hloop).
    - lia.
    - apply Forall_forall. intros j _. apply (slot_range h j Hok).
    - rewrite Hsame. lia.
    - rewrite Hsame. lia.
    - exists j. split; [|exact Hloop].
      change (0 :: seqZ 1 31) with (seqZ 0 32) in Hj.
      apply elem_of_seqZ in Hj. unfold MAX_SLOTS. lia. }
  destruct Hfound as (i & Hi & Hloop). exists i.
  split; [exact Hi|]. split; [exact Hloop|].
  change MAX_SLOTS with (Z.of_nat 32) in Hloop.
  destruct (percentile_loop_first h target Hok 32 0 0 i _ ltac:(lia) ltac:(lia) eq_refl Hloop)
    as (_ & _ & Hreach & Hbefore).
  split; [exact Hreach|]. intros j Hj. apply Hbefore. lia.
Qed.


Lemma single_slot_ok i n : 0 <= n < 2 ^ 32 -> hist_ok (single_slot i n).
Proof.
  intros Hn. split; cbn [single_slot slots].
  - now rewrite length_insert, length_replicate.
  - apply Forall_insert; [|exact Hn].
    apply Forall_replicate. lia.
Qed.

Lemma single_slot_at i n : 0 <= i < MAX_SLOTS -> slot (single_slot i n) i = n.
Proof.
  intros Hi. unfold slot, single_slot. cbn [slots].
  rewrite list_lookup_insert_eq; [reflexivity|].
  rewrite length_replicate. unfold MAX_SLOTS in *. lia.
Qed.

Lemma single_slot_off i n j : 0 <= i -> 0 <= j -> j <> i -> slot (single_slot i n) j = 0.
Proof.
  intros Hi Hj Hne. unfold slot, single_slot. cbn [slots].
  rewrite list_lookup_insert_ne by lia.
  destruct (replicate _ _ !! _) as [c|] eqn:Hc; [|reflexivity].
  apply lookup_replicate_1 in Hc as [-> _]. reflexivity.
Qed.

(** Slots that hold nothing are walked past while the target has not
    been reached. *)
Lemma percentile_loop_skip h target rest pre :
  forall c,
    Forall (fun j => slot h j = 0) pre ->
    0 <= c < 2 ^ 64 -> c < target ->
    percentile_loop h target (pre ++ rest) c = percentile_loop h target rest c.
Proof.
  induction pre as [|j pre IH]; intros c Hzero Hc Hlt; [reflexivity|].
  apply Forall_cons in Hzero as [Hj Hzero].
  rewrite <- app_comm_cons. cbn [percentile_loop].
  rewrite Hj, Z.add_0_r, to_u64_small by lia.
  destruct (Z.leb_spec target c); [lia|].
  now apply IH.
Qed.

(** With a target of at least one event and all [n] events in slot
    [i], the walk stops at slot [i] and returns its midpoint. *)
Lemma percentile_single_slot i n total (p : double) t :
  0 <= i < MAX_SLOTS -> 0 < n < 2 ^ 32 -> total <> 0 ->
  percentile_target total p = Some t ->
  1 <= t <= n ->
  calculate_percentile_at (single_slot i n) total p =
    Some (ReturnInLoop i, bucket_midpoint i).
Proof.
  intros Hi Hn Htotal Ht Htn. unfold calculate_percentile_at.
  apply Z.eqb_neq in Htotal. rewrite Htotal, Ht. cbn [mbind option_bind].
  f_equal. unfold MAX_SLOTS in *.
  replace 32 with (i + (32 - i)) at 1 by lia.
  rewrite seqZ_app, (seqZ_cons (0 + i)) by lia.
  rewrite percentile_loop_skip.
  - cbn [percentile_loop]. rewrite Z.add_0_l at 1.
    rewrite single_slot_at by (unfold MAX_SLOTS; lia).
    rewrite to_u64_small by lia.
    destruct (Z.leb_spec t n); [reflexivity|lia].
  - apply Forall_seqZ. intros j Hj. apply single_slot_off; lia.
  - lia.
  - lia.
Qed.

(** The midpoint of slot [i >= 1] is [(2^i + 2^(i+1)) / 2]; slot 0
    starts at 0 and has midpoint 1. *)
Lemma bucket_midpoint_value i :
  1 <= i < MAX_SLOTS ->
  (bucket_midpoint i == inject_Z (2 ^ i + 2 ^ (i + 1)) / (2 # 1))%Q.
Proof.
  intros Hi. unfold bucket_midpoint, MAX_SLOTS in *.
  destruct (Z.eqb_spec i 0) as [->|_]; [lia|].
  rewrite !Z.shiftl_1_l.
  assert (Hlo : 0 < 2 ^ i) by (apply Z.pow_pos_nonneg; lia).
  assert (Hhi : 2 ^ (i + 1) <= 2 ^ 32) by (apply Z.pow_le_mono_r; lia).
  assert (Hmid : 2 ^ i < 2 ^ (i + 1)) by (apply Z.pow_lt_mono_r; lia).
  assert (Hmax : 2 ^ 32 < 2 ^ 64) by reflexivity.
  rewrite (to_u64_small (2 ^ i)), (to_u64_small (2 ^ (i + 1))) by lia.
  rewrite to_u64_small by lia. reflexivity.
Qed.

(** C10, as the code has it.  The percentile walk is safe: for every
    histogram, total and percentile with [0 < total], a finite
    percentile from 0 to 100 and slot counters that add up to at least
    [total], the target, computed in binary64 as the program computes
    it, is defined and at most [total]; the walk returns from inside
    the loop, at the first of the 32 slots whose cumulative count
    reaches the target, with the midpoint of that slot; the [return]
    after the loop is not reached. *)
Theorem percentile_walk_safe (h : hist) (total : Z) (p : double) (vp : Q) :
  hist_ok h -> 0 < total -> total <= hist_total h ->
  double_value p = Some vp -> (0 <= vp <= 100 # 1)%Q ->
  exists target i,
    percentile_target total p = Some target /\
    0 <= target <= total /\
    0 <= i < MAX_SLOTS /\
    target <= cumulative_count h i /\
    (forall j, 0 <= j < i -> cumulative_count h j < target) /\
    calculate_percentile_at h total p = Some (ReturnInLoop i, bucket_midpoint i) /\
    calculate_percentile h total p = Some (bucket_midpoint i) /\
    (forall v, calculate_percentile_at h total p <> Some (ReturnAfterLoop, v)).
Proof.
  intros Hok Htotal Hsum Hp Hvp.
  pose proof (hist_total_bound h Hok) as Hbound.
  destruct (percentile_target_le_total total p vp) as (t & Ht & Hr); trivial; [lia|].
  destruct (percentile_loop_found h t Hok) as (i & Hi & Hloop & Hreach & Hbefore); [lia|].
  assert (Hnz : (total =? 0) = false) by (apply Z.eqb_neq; lia).
  assert (Hat : calculate_percentile_at h total p =
                Some (ReturnInLoop i, bucket_midpoint i)).
  { unfold calculate_percentile_at. rewrite Hnz, Ht. cbn [mbind option_bind].
    now rewrite Hloop. }
  exists t, i. split; [exact Ht|]. split; [exact Hr|]. split; [exact Hi|].
  split; [exact Hreach|]. split; [exact Hbefore|]. split; [exact Hat|].
  split; [unfold calculate_percentile; now rewrite Hat|].
  intros v. rewrite Hat. discriminate.
Qed.

Lemma percentile_walk_safe_witness :
  exists target i,
    percentile_target 10 (double_of_Z 50) = Some target /\
    target <= cumulative_count (single_slot 10 10) i /\
    calculate_percentile_at (single_slot 10 10) 10 (double_of_Z 50) =
      Some (ReturnInLoop i, bucket_midpoint i).
Proof.
  edestruct (percentile_walk_safe (single_slot 10 10) 10 (double_of_Z 50))
    as (target & i & Ht & _ & _ & Hreach & _ & Hat & _).
  - apply single_slot_ok. lia.
  - lia.
  - vm_compute. discriminate.
  - reflexivity.
  - split; vm_compute; discriminate.
  - exists target, i. split; [exact Ht|]. split; [exact Hreach|exact Hat].
Defined.

(** Below 0 the claim does not hold: for the percentile -200.0 the
    product [total * percentile / 100.0] is -20.0, which
    [unsigned long long] cannot hold; C leaves the conversion
    undefined, and with it the target and what the walk does. *)
Lemma percentile_undefined_below_zero :
  hist_ok (single_slot 10 10) /\
  0 < 10 <= hist_total (single_slot 10 10) /\
  (exists vp, double_value (double_of_Z (-200)) = Some vp /\ (vp <= 100 # 1)%Q) /\
  double_div (double_mul (double_of_Z 10) (double_of_Z (-200))) (double_of_Z 100) =
    double_of_Z (-20) /\
  percentile_target 10 (double_of_Z (-200)) = None /\
  calculate_percentile_at (single_slot 10 10) 10 (double_of_Z (-200)) = None.
Proof.
  split; [apply single_slot_ok; lia|].
  split; [vm_compute; split; [reflexivity|discriminate]|].
  split; [eexists; split; [reflexivity|vm_compute; discriminate]|].
  repeat split; reflexivity.
Qed.

(** C3 at the input where the code departs from it: a single event, in
    slot 10, and the median asked for.  The target is
    [(unsigned long long)(1 * 50.0 / 100.0) = 0], which the empty slot 0 already
    reaches, so the walk returns the midpoint of slot 0, which is 1,
    and not the midpoint 1536 of the slot that holds the event. *)
Theorem percentile_single_event_in_slot_10 :
  hist_ok (single_slot 10 1) /\
  hist_total (single_slot 10 1) = 1 /\
  slot (single_slot 10 1) 10 = 1 /\
  percentile_target 1 (double_of_Z 50) = Some 0 /\
  calculate_percentile_at (single_slot 10 1) 1 (double_of_Z 50) =
    Some (ReturnInLoop 0, bucket_midpoint 0) /\
  (bucket_midpoint 0 == 1 # 1)%Q /\
  (bucket_midpoint 10 == 1536 # 1)%Q /\
  ~ (bucket_midpoint 0 == bucket_midpoint 10)%Q.
Proof.
  split; [apply single_slot_ok; lia|].
  repeat split; try reflexivity.
  intros Heq. vm_compute in Heq. discriminate.
Qed.


(** *** Merging the shards *)

Lemma slot_hist_add a b i :
  0 <= i < MAX_SLOTS -> slot (hist_add a b) i = to_u32 (slot a i + slot b i).
Proof.
  intros Hi. unfold slot at 1, hist_add. cbn [slots].
  rewrite list_lookup_fmap, lookup_seqZ_lt by (rewrite Z2Nat.id; lia).
  cbn [fmap option_fmap option_map default]. rewrite Z.add_0_l, Z2Nat.id by lia.
  reflexivity.
Qed.

Lemma by_slot (f g : Z -> Z) :
  (forall i, 0 <= i < MAX_SLOTS -> f i = g i) ->
  f <$> seqZ 0 MAX_SLOTS = g <$> seqZ 0 MAX_SLOTS.
Proof.
  intros Hfg. apply Forall_fmap_ext_1, Forall_seqZ.
  intros i Hi. apply Hfg. lia.
Qed.

Lemma hist_add_comm a b : hist_add a b = hist_add b a.
Proof.
  unfold hist_add. f_equal. apply by_slot. intros i _. now rewrite Z.add_comm.
Qed.

Lemma hist_add_assoc a b c : hist_add (hist_add a b) c = hist_add a (hist_add b c).
Proof.
  unfold hist_add at 1 3. f_equal. apply by_slot. intros i Hi.
  rewrite !slot_hist_add by trivial. unfold to_u32.
  rewrite Z.add_mod_idemp_l, Z.add_mod_idemp_r by lia.
  now rewrite Z.add_assoc.
Qed.

Lemma to_u64_add_assoc a b c : to_u64 (to_u64 (a + b) + c) = to_u64 (a + to_u64 (b + c)).
Proof.
  unfold to_u64. rewrite Z.add_mod_idemp_l, Z.add_mod_idemp_r by lia.
  now rewrite Z.add_assoc.
Qed.

Lemma merge_cpu_comm a b : merge_cpu a b = merge_cpu b a.
Proof.
  unfold merge_cpu.
  rewrite (hist_add_comm (read_hist a)), (hist_add_comm (write_hist a)).
  rewrite (Z.add_comm (read_count a)), (Z.add_comm (write_count a)),
    (Z.add_comm (read_bytes a)), (Z.add_comm (write_bytes a)).
  reflexivity.
Qed.

Lemma merge_cpu_assoc a b c : merge_cpu (merge_cpu a b) c = merge_cpu a (merge_cpu b c).
Proof.
  unfold merge_cpu. cbn [read_hist write_hist read_count write_count read_bytes write_bytes].
  now rewrite !hist_add_assoc, !to_u64_add_assoc.
Qed.

Lemma merge_cpu_swap m a b : merge_cpu (merge_cpu m a) b = merge_cpu (merge_cpu m b) a.
Proof.
  now rewrite !merge_cpu_assoc, (merge_cpu_comm a b).
Qed.

(** The loop over the CPUs does not depend on their order. *)
Lemma merge_loop_permutation l l' :
  l ≡ₚ l' -> forall acc, fold_left merge_cpu l acc = fold_left merge_cpu l' acc.
Proof.
  induction 1 as [|x l l' _ IH|x y l|l l' l'' _ IH1 _ IH2]; intros acc; cbn [fold_left].
  - reflexivity.
  - apply IH.
  - now rewrite merge_cpu_swap.
  - now rewrite IH1.
Qed.

Lemma sum_of_snoc f l x : sum_of f (l ++ [x]) = sum_of f l + f x.
Proof.
  unfold sum_of. induction l as [|y l IH]; cbn [app fmap list_fmap foldr]; [lia|].
  change (foldr Z.add 0 (list_fmap _ _ f (l ++ [x]))) with (foldr Z.add 0 (f <$> l ++ [x])).
  rewrite IH. change (list_fmap _ _ f l) with (f <$> l). lia.
Qed.

(** A counter that each merge step adds modulo [M] ends as the sum over
    the shards modulo [M]. *)
Lemma merged_counter (f : io_stats -> Z) (M : Z) :
  0 < M -> f zero_stats = 0 ->
  (forall m c, f (merge_cpu m c) = (f m + f c) mod M) ->
  forall l, f (fold_left merge_cpu l zero_stats) = sum_of f l mod M.
Proof.
  intros HM Hzero Hstep l. induction l as [|x l IH] using rev_ind.
  - cbn. rewrite Hzero. symmetry. now apply Z.mod_0_l, Z.neq_sym, Z.lt_neq.
  - rewrite fold_left_app, sum_of_snoc. cbn [fold_left].
    rewrite Hstep, IH. apply Z.add_mod_idemp_l. lia.
Qed.

Lemma zero_slot i : slot zero_hist i = 0.
Proof.
  unfold slot, zero_hist. cbn [slots].
  destruct (replicate _ _ !! _) as [c|] eqn:Hc; [|reflexivity].
  apply lookup_replicate_1 in Hc as [-> _]. reflexivity.
Qed.

Lemma merge_stats_loop shards before :
  merge_stats true shards before = fold_left merge_cpu shards zero_stats.
Proof. reflexivity. Qed.

(** C5. The merge of the per-CPU shards does not depend on the order
    of the shards, its step is commutative and associative, and its
    result is the element-wise sum: each of the four totals is the sum
    over the shards as a [__u64], each of the 32 slots of the two
    histograms the sum over the shards as a [__u32], and so the plain
    sum whenever that fits the counter.  Three shards with 3, 5 and 2
    reads in slot 10 merge to 10 reads in slot 10, and the median over
    these 10 is 1536. *)
Theorem merge_stats_elementwise (shards shards' : list io_stats) (before : io_stats) :
  shards ≡ₚ shards' ->
  let merged := merge_stats true shards before in
  let three :=
    merge_stats true [reads_in_slot_10 3; reads_in_slot_10 5; reads_in_slot_10 2] before in
  merge_stats true shards' before = merged /\
  (forall a b, merge_cpu a b = merge_cpu b a) /\
  (forall a b c, merge_cpu (merge_cpu a b) c = merge_cpu a (merge_cpu b c)) /\
  read_count merged = to_u64 (sum_of read_count shards) /\
  write_count merged = to_u64 (sum_of write_count shards) /\
  read_bytes merged = to_u64 (sum_of read_bytes shards) /\
  write_bytes merged = to_u64 (sum_of write_bytes shards) /\
  (forall i, 0 <= i < MAX_SLOTS ->
     slot (read_hist merged) i = to_u32 (sum_of (fun s => slot (read_hist s) i) shards) /\
     slot (write_hist merged) i = to_u32 (sum_of (fun s => slot (write_hist s) i) shards)) /\
  (forall n, 0 <= n < 2 ^ 64 -> to_u64 n = n) /\
  (forall n, 0 <= n < 2 ^ 32 -> to_u32 n = n) /\
  slot (read_hist three) 10 = 10 /\
  read_count three = 10 /\
  calculate_percentile_at (read_hist three) (read_count three) (double_of_Z 50) =
    Some (ReturnInLoop 10, bucket_midpoint 10) /\
  (bucket_midpoint 10 == 1536 # 1)%Q.
Proof.
  intros Hperm merged three. unfold merged. rewrite !merge_stats_loop.
  split; [symmetry; now apply merge_loop_permutation|].
  split; [exact merge_cpu_comm|].
  split; [exact merge_cpu_assoc|].
  split; [now apply (merged_counter read_count (2 ^ 64))|].
  split; [now apply (merged_counter write_count (2 ^ 64))|].
  split; [now apply (merged_counter read_bytes (2 ^ 64))|].
  split; [now apply (merged_counter write_bytes (2 ^ 64))|].
  split.
  { intros i Hi. split.
    - apply (merged_counter (fun s => slot (read_hist s) i) (2 ^ 32)); [lia| |].
      + apply zero_slot.
      + intros m c. now apply slot_hist_add.
    - apply (merged_counter (fun s => slot (write_hist s) i) (2 ^ 32)); [lia| |].
      + apply zero_slot.
      + intros m c. now apply slot_hist_add. }
  split; [exact to_u64_small|].
  split; [exact to_u32_small|].
  repeat split; reflexivity.
Qed.

Lemma merge_stats_elementwise_witness :
  merge_stats true [reads_in_slot_10 2; reads_in_slot_10 3; reads_in_slot_10 5] zero_stats =
  merge_stats true [reads_in_slot_10 3; reads_in_slot_10 5; reads_in_slot_10 2] zero_stats.
Proof.
  destruct (merge_stats_elementwise
              [reads_in_slot_10 3; reads_in_slot_10 5; reads_in_slot_10 2]
              [reads_in_slot_10 2; reads_in_slot_10 3; reads_in_slot_10 5]
              zero_stats) as (Hsame & _).
  - exact (Permutation_app_comm [reads_in_slot_10 3; reads_in_slot_10 5]
             [reads_in_slot_10 2]).
  - exact Hsame.
Defined.


(** *** One turn of the consumer loop *)

Lemma merged_counts_range shards before :
  let merged := merge_stats true shards before in
  0 <= read_count merged < 2 ^ 64 /\ 0 <= write_count merged < 2 ^ 64.
Proof.
  cbv zeta. rewrite merge_stats_loop.
  rewrite (merged_counter read_count (2 ^ 64)), (merged_counter write_count (2 ^ 64))
    by (trivial; lia).
  split; apply Z.mod_pos_bound; lia.
Qed.

Lemma calculate_percentile_defined h total p vp :
  0 <= total < 2 ^ 64 ->
  double_value p = Some vp -> (0 <= vp <= 99 # 1)%Q ->
  exists v, calculate_percentile h total p = Some v.
Proof.
  intros Htotal Hp Hvp. unfold calculate_percentile, calculate_percentile_at.
  destruct (Z.eqb_spec total 0) as [->|Hnz]; [eexists; reflexivity|].
  destruct (percentile_target_defined total p vp) as [t Ht]; trivial.
  rewrite Ht. eexists. reflexivity.
Qed.

(** One direction of [print_stats]: the three percentiles and the
    maximum of the direction's histogram when the direction saw an
    operation, and four zeros when it saw none. *)
Lemma direction_latencies_values h count :
  0 <= count < 2 ^ 64 ->
  exists p50 p95 p99 pmax,
    direction_latencies h count = Some (p50, p95, p99, pmax) /\
    (0 < count ->
     calculate_percentile h count (double_of_Z 50) = Some p50 /\
     calculate_percentile h count (double_of_Z 95) = Some p95 /\
     calculate_percentile h count (double_of_Z 99) = Some p99 /\
     pmax = get_max_latency h) /\
    (count = 0 -> p50 = 0%Q /\ p95 = 0%Q /\ p99 = 0%Q /\ pmax = 0%Q).
Proof.
  intros Hcount. unfold direction_latencies.
  destruct (Z.ltb_spec 0 count) as [Hpos|Hzero].
  - edestruct (calculate_percentile_defined h count (double_of_Z 50)) as [p50 H50];
      [exact Hcount|reflexivity|split; vm_compute; discriminate|].
    edestruct (calculate_percentile_defined h count (double_of_Z 95)) as [p95 H95];
      [exact Hcount|reflexivity|split; vm_compute; discriminate|].
    edestruct (calculate_percentile_defined h count (double_of_Z 99)) as [p99 H99];
      [exact Hcount|reflexivity|split; vm_compute; discriminate|].
    rewrite H50, H95, H99. cbn [mbind option_bind].
    exists p50, p95, p99, (get_max_latency h). split; [reflexivity|].
    split; [now intros _|lia].
  - exists 0%Q, 0%Q, 0%Q, 0%Q. split; [reflexivity|]. split; [lia|now intros _].
Qed.

(** [print_stats] writes its line for every statistics block whose
    counts are [unsigned long long] values.  The line shows the block's
    counts and byte totals and, for each direction, the percentiles 50,
    95 and 99 and the maximum of the direction's histogram, or zeros
    when the direction saw no operation. *)
Lemma print_stats_line stats timestamp :
  0 <= read_count stats < 2 ^ 64 -> 0 <= write_count stats < 2 ^ 64 ->
  exists line,
    print_stats stats timestamp = Some line /\
    line_timestamp line = timestamp /\
    line_read_count line = read_count stats /\
    line_write_count line = write_count stats /\
    line_read_bytes line = read_bytes stats /\
    line_write_bytes line = write_bytes stats /\
    (0 < read_count stats ->
     calculate_percentile (read_hist stats) (read_count stats) (double_of_Z 50) =
       Some (read_p50_us line) /\
     calculate_percentile (read_hist stats) (read_count stats) (double_of_Z 95) =
       Some (read_p95_us line) /\
     calculate_percentile (read_hist stats) (read_count stats) (double_of_Z 99) =
       Some (read_p99_us line) /\
     read_max_us line = get_max_latency (read_hist stats)) /\
    (read_count stats = 0 ->
     read_p50_us line = 0%Q /\ read_p95_us line = 0%Q /\ read_p99_us line = 0%Q /\
     read_max_us line = 0%Q) /\
    (0 < write_count stats ->
     calculate_percentile (write_hist stats) (write_count stats) (double_of_Z 50) =
       Some (write_p50_us line) /\
     calculate_percentile (write_hist stats) (write_count stats) (double_of_Z 95) =
       Some (write_p95_us line) /\
     calculate_percentile (write_hist stats) (write_count stats) (double_of_Z 99) =
       Some (write_p99_us line) /\
     write_max_us line = get_max_latency (write_hist stats)) /\
    (write_count stats = 0 ->
     write_p50_us line = 0%Q /\ write_p95_us line = 0%Q /\ write_p99_us line = 0%Q /\
     write_max_us line = 0%Q).
Proof.
  intros Hr Hw. unfold print_stats.
  destruct (direction_latencies_values (read_hist stats) _ Hr)
    as (r50 & r95 & r99 & rmax & -> & Hrpos & Hrzero).
  destruct (direction_latencies_values (write_hist stats) _ Hw)
    as (w50 & w95 & w99 & wmax & -> & Hwpos & Hwzero).
  cbn [mbind option_bind]. eexists. split; [reflexivity|].
  cbn [line_timestamp line_read_count line_write_count line_read_bytes line_write_bytes
       read_p50_us read_p95_us read_p99_us read_max_us
       write_p50_us write_p95_us write_p99_us write_max_us].
  repeat (split; [reflexivity|]).
  split; [exact Hrpos|]. split; [exact Hrzero|]. split; [exact Hwpos|exact Hwzero].
Qed.

(** What [merge_stats] leaves in the caller's variable is a pair of
    [unsigned long long] counts when the variable held such before. *)
Lemma merged_counts_u64 ok shards before :
  0 <= read_count before < 2 ^ 64 -> 0 <= write_count before < 2 ^ 64 ->
  let merged := merge_stats ok shards before in
  0 <= read_count merged < 2 ^ 64 /\ 0 <= write_count merged < 2 ^ 64.
Proof.
  intros Hr Hw. destruct ok; [apply merged_counts_range|]. now split.
Qed.

(** C7, as the code has it.  On every turn of the one-second loop the
    consumer calls [merge_stats], which merges all per-CPU shards into
    the aggregate (and leaves the uninitialised aggregate as it is when
    its scratch buffer cannot be allocated); it writes exactly one
    summary line when the aggregate shows a read or a write, and none
    when the interval was idle; and it calls [clear_stats], which resets
    every shard to zero (and leaves the shards as they are when its
    scratch buffer cannot be allocated).  The line carries the
    timestamp, the counts and the byte totals of the aggregate and, for
    each direction that saw an operation, the percentiles 50, 95 and 99
    and the maximum of the aggregate's histogram, zeros otherwise. *)
Theorem main_iteration_flush (env : iteration_env) (io_stats_map : list io_stats) :
  let merged := merge_stats (merge_calloc_ok env) io_stats_map (merged_before env) in
  let timestamp := to_u64 (time_now env * 1000000000) in
  0 <= read_count (merged_before env) < 2 ^ 64 ->
  0 <= write_count (merged_before env) < 2 ^ 64 ->
  merged =
    (if merge_calloc_ok env then fold_left merge_cpu io_stats_map zero_stats
     else merged_before env) /\
  exists out,
    main_iteration env io_stats_map =
      Some (out,
            if clear_calloc_ok env then replicate (length io_stats_map) zero_stats
            else io_stats_map) /\
    if (0 <? read_count merged) || (0 <? write_count merged) then
      exists line,
        out = [line] /\
        line_timestamp line = timestamp /\
        line_read_count line = read_count merged /\
        line_write_count line = write_count merged /\
        line_read_bytes line = read_bytes merged /\
        line_write_bytes line = write_bytes merged /\
        (0 < read_count merged ->
         calculate_percentile (read_hist merged) (read_count merged) (double_of_Z 50) =
           Some (read_p50_us line) /\
         calculate_percentile (read_hist merged) (read_count merged) (double_of_Z 95) =
           Some (read_p95_us line) /\
         calculate_percentile (read_hist merged) (read_count merged) (double_of_Z 99) =
           Some (read_p99_us line) /\
         read_max_us line = get_max_latency (read_hist merged)) /\
        (read_count merged = 0 ->
         read_p50_us line = 0%Q /\ read_p95_us line = 0%Q /\ read_p99_us line = 0%Q /\
         read_max_us line = 0%Q) /\
        (0 < write_count merged ->
         calculate_percentile (write_hist merged) (write_count merged) (double_of_Z 50) =
           Some (write_p50_us line) /\
         calculate_percentile (write_hist merged) (write_count merged) (double_of_Z 95) =
           Some (write_p95_us line) /\
         calculate_percentile (write_hist merged) (write_count merged) (double_of_Z 99) =
           Some (write_p99_us line) /\
         write_max_us line = get_max_latency (write_hist merged)) /\
        (write_count merged = 0 ->
         write_p50_us line = 0%Q /\ write_p95_us line = 0%Q /\
         write_p99_us line = 0%Q /\ write_max_us line = 0%Q)
    else out = [].
Proof.
  intros merged timestamp Hrb Hwb.
  split; [unfold merged, merge_stats; now destruct (merge_calloc_ok env)|].
  destruct (merged_counts_u64 (merge_calloc_ok env) io_stats_map (merged_before env) Hrb Hwb)
    as [Hr Hw]. fold merged in Hr, Hw.
  assert (Hclear : clear_stats (clear_calloc_ok env) io_stats_map =
                   if clear_calloc_ok env then replicate (length io_stats_map) zero_stats
                   else io_stats_map).
  { unfold clear_stats. now destruct (clear_calloc_ok env). }
  unfold main_iteration. fold merged timestamp. rewrite Hclear.
  destruct ((0 <? read_count merged) || (0 <? write_count merged)).
  - destruct (print_stats_line merged timestamp Hr Hw) as (line & Hline & Hfields).
    exists [line]. rewrite Hline. split; [reflexivity|].
    exists line. split; [reflexivity|exact Hfields].
  - exists []. split; reflexivity.
Qed.

Lemma main_iteration_flush_witness :
  exists line,
    main_iteration env_clear_fails [reads_in_slot_10 3; zero_stats] =
      Some ([line], [reads_in_slot_10 3; zero_stats]) /\
    line_read_count line = 3 /\
    calculate_percentile (single_slot 10 3) 3 (double_of_Z 50) = Some (read_p50_us line) /\
    read_max_us line = get_max_latency (single_slot 10 3) /\
    write_p50_us line = 0%Q.
Proof.
  destruct (main_iteration_flush env_clear_fails [reads_in_slot_10 3; zero_stats])
    as (_ & out & Hrun & Hout).
  - vm_compute. split; [discriminate|reflexivity].
  - vm_compute. split; [discriminate|reflexivity].
  - destruct Hout as (line & -> & _ & Hrc & _ & _ & _ & Hread & _ & _ & Hwrite).
    exists line. split; [exact Hrun|]. split; [exact Hrc|].
    destruct Hread as (H50 & _ & _ & Hmax); [vm_compute; reflexivity|].
    destruct Hwrite as (Hw50 & _); [reflexivity|].
    split; [exact H50|]. split; [exact Hmax|exact Hw50].
Defined.

(** A turn of the loop over an idle interval, on two CPUs: nothing is
    written. *)
Lemma main_iteration_idle_writes_nothing :
  merge_stats true [zero_stats; zero_stats] zero_stats = zero_stats /\
  main_iteration (env_at 1700000000 zero_stats) [zero_stats; zero_stats] =
    Some ([], [zero_stats; zero_stats]) /\
  ~ (exists line rest,
       main_iteration (env_at 1700000000 zero_stats) [zero_stats; zero_stats] =
         Some ([line], rest)).
Proof.
  assert (Hrun : main_iteration (env_at 1700000000 zero_stats) [zero_stats; zero_stats] =
                 Some ([], [zero_stats; zero_stats])) by reflexivity.
  split; [reflexivity|]. split; [exact Hrun|].
  intros (line & rest & Hone). rewrite Hrun in Hone. discriminate.
Qed.

End IoLatencyUserSpec.

(** ** sched_tracer.bpf.c *)

Module SchedTracerSpec.
Import SchedTracer.

Lemma emit_bucket_stats_eq ok key stats ring :
  emit_bucket_stats ok key stats ring = if ok then ring ++ [stats] else ring.
Proof. unfold emit_bucket_stats. destruct ok, stats; reflexivity. Qed.

Lemma update_bucket_other p w ct vol wk cm buckets k :
  k <> (p, w) ->
  update_bucket_stats p w ct vol wk cm buckets !! k = buckets !! k.
Proof.
  intros Hne. unfold update_bucket_stats, bpf_map_lookup_elem.
  destruct (buckets !! (p, w)).
  - now apply lookup_insert_ne.
  - now apply update_elem_other.
Qed.

Lemma update_bucket_same p w ct vol wk cm buckets b :
  update_bucket_stats p w ct vol wk cm buckets !! (p, w) = Some b ->
  (exists old, buckets !! (p, w) = Some old /\ b = updated_stats old ct vol wk) \/
  (buckets !! (p, w) = None /\ b = new_stats p w ct vol wk cm).
Proof.
  unfold update_bucket_stats, bpf_map_lookup_elem.
  destruct (buckets !! (p, w)) as [old|] eqn:Hold.
  - rewrite lookup_insert_eq. intros [= <-]. left. now exists old.
  - intros Hnew. apply update_elem_lookup in Hnew as [[_ ->]|Hnew]; [now right|].
    congruence.
Qed.

(** *** The two halves of [trace_sched_switch] *)

Lemma switch_in_buckets ctx st : bucket_aggregates (switch_in ctx st) = bucket_aggregates st.
Proof.
  unfold switch_in. destruct (0 <? _); [|reflexivity].
  destruct (bpf_map_lookup_elem _ _); reflexivity.
Qed.

Lemma switch_in_events ctx st : events (switch_in ctx st) = events st.
Proof.
  unfold switch_in. destruct (0 <? _); [|reflexivity].
  destruct (bpf_map_lookup_elem _ _); reflexivity.
Qed.

(** A state that exists stays, with its last window unchanged. *)
Lemma switch_in_keeps ctx st p s :
  process_state_map st !! p = Some s ->
  exists s', process_state_map (switch_in ctx st) !! p = Some s' /\
             last_bucket s' = last_bucket s.
Proof.
  intros Hs. unfold switch_in, bpf_map_lookup_elem.
  destruct (0 <? _); [|now exists s].
  destruct (process_state_map st !! to_u32 (next_pid ctx)) as [ns|] eqn:Hns;
    cbn [process_state_map].
  - destruct (decide (to_u32 (next_pid ctx) = p)) as [<-|Hne].
    + rewrite lookup_insert_eq. eexists. split; [reflexivity|].
      cbn. congruence.
    + rewrite lookup_insert_ne by trivial. now exists s.
  - destruct (decide (to_u32 (next_pid ctx) = p)) as [<-|Hne]; [congruence|].
    rewrite update_elem_other by trivial. now exists s.
Qed.

(** A state found afterwards was there with the same last window, or
    was made for the window of this firing. *)
Lemma switch_in_origin ctx st p s' :
  process_state_map (switch_in ctx st) !! p = Some s' ->
  (exists s, process_state_map st !! p = Some s /\ last_bucket s' = last_bucket s) \/
  last_bucket s' = switch_ktime ctx / NSEC_PER_SEC.
Proof.
  unfold switch_in, bpf_map_lookup_elem.
  destruct (0 <? _); [|intros Hs'; left; now exists s'].
  destruct (process_state_map st !! to_u32 (next_pid ctx)) as [ns|] eqn:Hns;
    cbn [process_state_map].
  - destruct (decide (to_u32 (next_pid ctx) = p)) as [<-|Hne].
    + rewrite lookup_insert_eq. intros [= <-]. left. now exists ns.
    + rewrite lookup_insert_ne by trivial. intros Hs'. left. now exists s'.
  - intros Hs'. apply update_elem_lookup in Hs' as [[_ ->]|Hs']; [now right|].
    left. now exists s'.
Qed.

(** [switch_out] written out: the state map, the bucket map before the
    bucket of the current window is updated, the ring buffer and the time
    slice, by cases on the state found for the outgoing task. *)
Lemma switch_out_cases ctx st :
  let e := to_u32 (prev_pid ctx) in
  let w := switch_ktime ctx / NSEC_PER_SEC in
  0 < e ->
  exists psm buckets ring cpu_time,
    switch_out ctx st =
      {| process_state_map := psm;
         bucket_aggregates :=
           update_bucket_stats e w cpu_time (negb (to_u32 (prev_state ctx) =? 0)) false
             (prev_comm ctx) buckets;
         events := ring |} /\
    match process_state_map st !! e with
    | None =>
        psm = bpf_map_update_elem map_max_entries (process_state_map st) e
                {| last_switch_ts := 0; last_bucket := w; state_comm := prev_comm ctx |} /\
        buckets = bucket_aggregates st /\ ring = events st
    | Some s =>
        psm = <[e := {| last_switch_ts := last_switch_ts s; last_bucket := w;
                        state_comm := state_comm s |}]> (process_state_map st) /\
        match bucket_aggregates st !! (e, last_bucket s) with
        | Some old =>
            if decide (last_bucket s <> 0 /\ last_bucket s <> w) then
              buckets = delete (e, last_bucket s) (bucket_aggregates st) /\
              ring = (if switch_reserve_ok ctx then events st ++ [old] else events st)
            else buckets = bucket_aggregates st /\ ring = events st
        | None => buckets = bucket_aggregates st /\ ring = events st
        end
    end.
Proof.
  intros e w He. unfold switch_out. fold e w.
  apply Z.ltb_lt in He. rewrite He. unfold bpf_map_lookup_elem, bpf_map_delete_elem.
  destruct (process_state_map st !! e) as [s|] eqn:Hs.
  - destruct (Z.eqb_spec (last_bucket s) 0) as [H0|H0];
      destruct (Z.eqb_spec (last_bucket s) w) as [Hw|Hw]; cbn [negb andb];
      try (do 4 eexists; split; [reflexivity|]; split; [reflexivity|];
           destruct (bucket_aggregates st !! (e, last_bucket s));
           [destruct (decide _) as [[? ?]|_]; [contradiction|]|]; now split).
    destruct (bucket_aggregates st !! (e, last_bucket s)) as [old|] eqn:Hold.
    + do 4 eexists. split; [reflexivity|]. split; [reflexivity|].
      destruct (decide _) as [_|Hn]; [|exfalso; apply Hn; now split].
      split; [reflexivity|]. apply emit_bucket_stats_eq.
    + do 4 eexists. split; [reflexivity|]. now repeat split.
  - do 4 eexists. split; [reflexivity|]. now repeat split.
Qed.


Lemma switch_out_idle ctx st :
  ~ 0 < to_u32 (prev_pid ctx) -> switch_out ctx st = st.
Proof.
  intros He. unfold switch_out.
  destruct (Z.ltb_spec 0 (to_u32 (prev_pid ctx))); [contradiction|reflexivity].
Qed.

(** *** What one firing does to the three maps *)

(** The states: one that exists stays, with its last window unchanged
    or moved to the window of the firing; one found afterwards was there
    before or was made for the window of the firing. *)
Lemma fire_keeps st g p s :
  process_state_map st !! p = Some s ->
  exists s', process_state_map (fire st g) !! p = Some s' /\
    (last_bucket s' = last_bucket s \/ last_bucket s' = ktime g / NSEC_PER_SEC).
Proof.
  intros Hs. destruct g as [ctx|ctx]; cbn [fire ktime].
  - unfold trace_sched_switch.
    assert (Hout : exists s1, process_state_map (switch_out ctx st) !! p = Some s1 /\
              (last_bucket s1 = last_bucket s \/
               last_bucket s1 = switch_ktime ctx / NSEC_PER_SEC)).
    { destruct (Z_lt_dec 0 (to_u32 (prev_pid ctx))) as [He|He];
        [|rewrite switch_out_idle by trivial; exists s; auto].
      destruct (switch_out_cases ctx st He) as (psm & buckets & ring & ct & -> & Hcase).
      cbn [process_state_map].
      destruct (process_state_map st !! to_u32 (prev_pid ctx)) as [se|] eqn:Hse.
      - destruct Hcase as [-> _].
        destruct (decide (to_u32 (prev_pid ctx) = p)) as [<-|Hne].
        + rewrite lookup_insert_eq. eexists. split; [reflexivity|]. now right.
        + rewrite lookup_insert_ne by trivial. exists s. auto.
      - destruct Hcase as (-> & _).
        destruct (decide (to_u32 (prev_pid ctx) = p)) as [<-|Hne]; [congruence|].
        rewrite update_elem_other by trivial. exists s. auto. }
    destruct Hout as (s1 & Hs1 & Hlb1).
    destruct (switch_in_keeps ctx _ p s1 Hs1) as (s' & Hs' & Hlb').
    exists s'. split; [exact Hs'|]. rewrite Hlb'. exact Hlb1.
  - exists s. split; [|now left].
    unfold trace_sched_wakeup. destruct (_ =? 0); trivial.
Qed.

Lemma fire_origin st g p s' :
  process_state_map (fire st g) !! p = Some s' ->
  (exists s, process_state_map st !! p = Some s /\ last_bucket s' = last_bucket s) \/
  last_bucket s' = ktime g / NSEC_PER_SEC.
Proof.
  destruct g as [ctx|ctx]; cbn [fire ktime].
  - unfold trace_sched_switch. intros Hs'.
    apply switch_in_origin in Hs' as [(s1 & Hs1 & Hlb)|Hw]; [|now right].
    rewrite Hlb. clear Hlb s'.
    destruct (Z_lt_dec 0 (to_u32 (prev_pid ctx))) as [He|He];
      [|rewrite switch_out_idle in Hs1 by trivial; left; now exists s1].
    destruct (switch_out_cases ctx st He) as (psm & buckets & ring & ct & Heq & Hcase).
    rewrite Heq in Hs1. cbn [process_state_map] in Hs1.
    destruct (process_state_map st !! to_u32 (prev_pid ctx)) as [se|] eqn:Hse.
    + destruct Hcase as [-> _].
      destruct (decide (to_u32 (prev_pid ctx) = p)) as [<-|Hne].
      * rewrite lookup_insert_eq in Hs1. injection Hs1 as <-. now right.
      * rewrite lookup_insert_ne in Hs1 by trivial. left. now exists s1.
    + destruct Hcase as (-> & _).
      apply update_elem_lookup in Hs1 as [[_ ->]|Hs1]; [now right|].
      left. now exists s1.
  - intros Hs'. left. exists s'. split; [|reflexivity].
    unfold trace_sched_wakeup in Hs'. destruct (_ =? 0); trivial.
Qed.

(** The buckets: one found afterwards was there before, or is the
    bucket of the entity and window the firing is accounted to, updated
    or made new. *)
Lemma fire_bucket st g k b :
  bucket_aggregates (fire st g) !! k = Some b ->
  bucket_aggregates st !! k = Some b \/
  (accounted g k.1 k.2 /\
   ((exists old ct vol wk,
       bucket_aggregates st !! k = Some old /\ b = updated_stats old ct vol wk) \/
    (exists ct vol wk cm, b = new_stats k.1 k.2 ct vol wk cm))).
Proof.
  destruct g as [ctx|ctx]; cbn [fire accounted].
  - unfold trace_sched_switch. rewrite switch_in_buckets.
    destruct (Z_lt_dec 0 (to_u32 (prev_pid ctx))) as [He|He];
      [|rewrite switch_out_idle by trivial; now left].
    destruct (switch_out_cases ctx st He) as (psm & buckets & ring & ct & -> & Hcase).
    cbn [bucket_aggregates].
    assert (Hsub : forall k' b', buckets !! k' = Some b' ->
                                 bucket_aggregates st !! k' = Some b').
    { destruct (process_state_map st !! to_u32 (prev_pid ctx)) as [se|].
      - destruct Hcase as [_ Hcase].
        destruct (bucket_aggregates st !! (to_u32 (prev_pid ctx), last_bucket se));
          [destruct (decide _)|]; destruct Hcase as [-> _]; trivial.
        intros k' b' Hk'. now apply lookup_delete_Some in Hk' as [_ Hk'].
      - destruct Hcase as (_ & -> & _). trivial. }
    destruct (decide (k = (to_u32 (prev_pid ctx), switch_ktime ctx / NSEC_PER_SEC)))
      as [->|Hne].
    + intros Hb. right. split; [now split|].
      apply update_bucket_same in Hb as [(old & Hold & ->)|[_ ->]].
      * left. exists old. do 3 eexists. split; [now apply Hsub|reflexivity].
      * right. do 4 eexists. reflexivity.
    + rewrite update_bucket_other by trivial. intros Hb. left. now apply Hsub.
  - unfold trace_sched_wakeup.
    destruct (Z.eqb_spec (wakeup_pid ctx) 0) as [_|_]; [now left|].
    cbn [bucket_aggregates].
    destruct (decide (k = (wakeup_pid ctx, wakeup_ktime ctx / NSEC_PER_SEC)))
      as [->|Hne].
    + intros Hb. right. split; [now split|].
      apply update_bucket_same in Hb as [(old & Hold & ->)|[_ ->]].
      * left. exists old. do 3 eexists. split; [exact Hold|reflexivity].
      * right. do 4 eexists. reflexivity.
    + rewrite update_bucket_other by trivial. now left.
Qed.

(** The rollover itself: a switch away from a task whose last window is
    neither 0 nor the current one, with a bucket stored for that window. *)
Lemma switch_rollover ctx st s b :
  let e := to_u32 (prev_pid ctx) in
  let w := switch_ktime ctx / NSEC_PER_SEC in
  0 < e ->
  process_state_map st !! e = Some s ->
  last_bucket s <> 0 -> last_bucket s <> w ->
  bucket_aggregates st !! (e, last_bucket s) = Some b ->
  events (trace_sched_switch ctx st) =
    (if switch_reserve_ok ctx then events st ++ [b] else events st) /\
  bucket_aggregates (trace_sched_switch ctx st) !! (e, last_bucket s) = None /\
  exists s', process_state_map (trace_sched_switch ctx st) !! e = Some s' /\
             last_bucket s' = w.
Proof.
  intros e w He Hs H0 Hw Hb. unfold trace_sched_switch.
  rewrite switch_in_events, switch_in_buckets.
  destruct (switch_out_cases ctx st He) as (psm & buckets & ring & ct & Heq & Hcase).
  fold e w in Heq, Hcase. rewrite Hs, Hb in Hcase.
  destruct Hcase as [Hpsm Hcase].
  destruct (decide _) as [_|Hn]; [|exfalso; apply Hn; now split].
  destruct Hcase as [Hbuckets Hring].
  rewrite Heq. cbn [events bucket_aggregates].
  split; [exact Hring|]. split.
  - rewrite update_bucket_other by congruence.
    rewrite Hbuckets. apply lookup_delete_eq.
  - assert (Hout : process_state_map
                     {| process_state_map := psm;
                        bucket_aggregates :=
                          update_bucket_stats e w ct
                            (negb (to_u32 (prev_state ctx) =? 0)) false
                            (prev_comm ctx) buckets;
                        events := ring |} !! e =
                   Some {| last_switch_ts := last_switch_ts s; last_bucket := w;
                           state_comm := state_comm s |}).
    { cbn [process_state_map]. rewrite Hpsm. apply lookup_insert_eq. }
    destruct (switch_in_keeps ctx _ e _ Hout) as (s' & Hs' & Hlb).
    exists s'. split; [exact Hs'|exact Hlb].
Qed.

(** The ring buffer: a firing submits nothing, or it is a switch away
    from a task whose last window is neither 0 nor the current one, and
    it submits the bucket stored for that task and window. *)
Lemma fire_events st g :
  events (fire st g) = events st \/
  exists ctx s old,
    g = SchedSwitch ctx /\
    0 < to_u32 (prev_pid ctx) /\
    switch_reserve_ok ctx = true /\
    process_state_map st !! to_u32 (prev_pid ctx) = Some s /\
    last_bucket s <> 0 /\
    last_bucket s <> switch_ktime ctx / NSEC_PER_SEC /\
    bucket_aggregates st !! (to_u32 (prev_pid ctx), last_bucket s) = Some old /\
    events (fire st g) = events st ++ [old] /\
    exists s', process_state_map (fire st g) !! to_u32 (prev_pid ctx) = Some s' /\
               last_bucket s' = switch_ktime ctx / NSEC_PER_SEC.
Proof.
  destruct g as [ctx|ctx]; cbn [fire].
  - unfold trace_sched_switch. rewrite switch_in_events.
    destruct (Z_lt_dec 0 (to_u32 (prev_pid ctx))) as [He|He];
      [|rewrite switch_out_idle by trivial; now left].
    destruct (switch_out_cases ctx st He) as (psm & buckets & ring & ct & Heq & Hcase).
    assert (Hev : events (switch_out ctx st) = ring) by now rewrite Heq.
    rewrite Hev. clear Heq Hev.
    destruct (process_state_map st !! to_u32 (prev_pid ctx)) as [se|] eqn:Hse;
      [|destruct Hcase as (_ & _ & ->); now left].
    destruct Hcase as [_ Hcase].
    destruct (bucket_aggregates st !! (to_u32 (prev_pid ctx), last_bucket se))
      as [old|] eqn:Hold; [|destruct Hcase as [_ ->]; now left].
    destruct (decide _) as [[H0 Hw]|_]; [|destruct Hcase as [_ ->]; now left].
    destruct Hcase as [_ ->].
    destruct (switch_reserve_ok ctx) eqn:Hroom; [|now left].
    right. exists ctx, se, old.
    destruct (switch_rollover ctx st se old He Hse H0 Hw Hold) as (_ & _ & Hafter).
    unfold trace_sched_switch in Hafter.
    repeat split; trivial.
  - left. unfold trace_sched_wakeup. destruct (_ =? 0); reflexivity.
Qed.


(** *** The counters of a bucket *)

Lemma to_u32_to_u64 z : to_u32 (to_u64 z) = to_u32 z.
Proof.
  unfold to_u32, to_u64. apply Z.mod_mod_divide.
  exists (2 ^ 32). reflexivity.
Qed.

Lemma stats_ok_mono n n' b : n <= n' -> stats_ok n b -> stats_ok n' b.
Proof. unfold stats_ok. intros Hle (? & ? & ? & ? & ? & ?). repeat split; trivial; lia. Qed.

Lemma new_stats_ok p w ct vol wk cm : stats_ok 1 (new_stats p w ct vol wk cm).
Proof. destruct vol, wk; repeat split; cbn; lia. Qed.

Lemma updated_stats_ok n old ct vol wk :
  stats_ok n old -> stats_ok (n + 1) (updated_stats old ct vol wk).
Proof.
  intros (Hv & Hi & Hn & Hcs & Hts & Hcpu). unfold updated_stats.
  destruct wk; [repeat split; cbn; trivial; lia|].
  assert (Hstep : forall z, 0 <= z -> 0 <= to_u64 (z + 1) <= z + 1).
  { intros z Hz. split; [apply to_u64_range|]. unfold to_u64. apply Z.mod_le; lia. }
  assert (Hcs' : to_u64 (context_switches old + 1) =
                 to_u64 (voluntary_switches old + involuntary_switches old + 1)).
  { rewrite Hcs. unfold to_u64. apply Z.add_mod_idemp_l. lia. }
  assert (Hts' : to_u32 (timeslice_count old + 1) =
                 to_u32 (to_u64 (context_switches old + 1))).
  { rewrite Hts, to_u32_to_u64. unfold to_u32. apply Z.add_mod_idemp_l. lia. }
  pose proof (Hstep _ Hv). pose proof (Hstep _ Hi).
  destruct vol; repeat split; cbn; try lia; try exact Hts'; try (now rewrite Hcpu);
    rewrite Hcs'; unfold to_u64.
  - rewrite Z.add_mod_idemp_l by lia. f_equal. lia.
  - rewrite Z.add_mod_idemp_r by lia. f_equal. lia.
Qed.

Lemma run_snoc fs g : run (fs ++ [g]) = fire (run fs) g.
Proof. unfold run. now rewrite fold_left_app. Qed.

Lemma stats_ok_run fs :
  (forall k b, bucket_aggregates (run fs) !! k = Some b ->
               stats_ok (Z.of_nat (length fs)) b) /\
  (forall b, b ∈ events (run fs) -> stats_ok (Z.of_nat (length fs)) b).
Proof.
  induction fs as [|g fs [IHb IHe]] using rev_ind.
  - split.
    + intros k b Hb. unfold run, init in Hb.
      cbn [fold_left bucket_aggregates] in Hb. now rewrite lookup_empty in Hb.
    + intros b Hb. unfold run, init in Hb. cbn [fold_left events] in Hb.
      now apply not_elem_of_nil in Hb.
  - rewrite run_snoc, length_app, Nat2Z.inj_add. cbn [length].
    change (Z.of_nat 1) with 1.
    assert (Hbucket : forall k b, bucket_aggregates (fire (run fs) g) !! k = Some b ->
                        stats_ok (Z.of_nat (length fs) + 1) b).
    { intros k b Hb.
      apply fire_bucket in Hb
        as [Hb|[_ [(old & ct & vol & wk & Hold & ->)|(ct & vol & wk & cm & ->)]]].
      - apply (stats_ok_mono (Z.of_nat (length fs))); [lia|]. now apply (IHb k).
      - apply updated_stats_ok. now apply (IHb k).
      - apply (stats_ok_mono 1); [lia|]. apply new_stats_ok. }
    split; [exact Hbucket|].
    intros b Hb.
    destruct (fire_events (run fs) g)
      as [Hsame|(ctx & s & old & _ & _ & _ & _ & _ & _ & Hold & Hone & _)].
    + rewrite Hsame in Hb.
      apply (stats_ok_mono (Z.of_nat (length fs))); [lia|]. now apply IHe.
    + rewrite Hone in Hb. apply elem_of_app in Hb as [Hb|Hb].
      * apply (stats_ok_mono (Z.of_nat (length fs))); [lia|]. now apply IHe.
      * apply list_elem_of_singleton in Hb as ->.
        apply (stats_ok_mono (Z.of_nat (length fs))); [lia|]. now apply (IHb _ _ Hold).
Qed.

(** C8. Every bucket stored in the bucket map or submitted to the ring
    buffer, after any run of the two tracepoints from empty maps, has
    [context_switches] equal to [voluntary_switches] plus
    [involuntary_switches] (as a [__u64], and as the plain sum in every
    run of fewer than [2^64] firings), [timeslice_count] at most
    [context_switches], and [cpu_time_ns] equal to [total_timeslice_ns];
    and the update made for a wakeup changes none of these fields. *)
Theorem bucket_stats_invariant (fs : list firing) (b : bucket_stats) :
  (exists k, bucket_aggregates (run fs) !! k = Some b) \/ b ∈ events (run fs) ->
  context_switches b = to_u64 (voluntary_switches b + involuntary_switches b) /\
  (Z.of_nat (length fs) < 2 ^ 64 ->
   context_switches b = voluntary_switches b + involuntary_switches b) /\
  timeslice_count b <= context_switches b /\
  cpu_time_ns b = total_timeslice_ns b /\
  (forall cpu_time is_voluntary,
     let b' := updated_stats b cpu_time is_voluntary true in
     context_switches b' = context_switches b /\
     voluntary_switches b' = voluntary_switches b /\
     involuntary_switches b' = involuntary_switches b /\
     timeslice_count b' = timeslice_count b /\
     cpu_time_ns b' = cpu_time_ns b /\
     total_timeslice_ns b' = total_timeslice_ns b).
Proof.
  intros Hb.
  assert (Hok : stats_ok (Z.of_nat (length fs)) b).
  { destruct (stats_ok_run fs) as [Hbuckets Hevents].
    destruct Hb as [[k Hk]|Hin]; [now apply (Hbuckets k)|now apply Hevents]. }
  destruct Hok as (Hv & Hi & Hn & Hcs & Hts & Hcpu).
  split; [exact Hcs|].
  split; [intros Hlen; rewrite Hcs; apply to_u64_small; lia|].
  split.
  - rewrite Hts. unfold to_u32. apply Z.mod_le; [|lia].
    rewrite Hcs. apply to_u64_range.
  - split; [exact Hcpu|]. intros ct vol. cbn. repeat split.
Qed.


Lemma bucket_stats_invariant_witness :
  one_switch 5 ∈ events (run [switch_away 5200000000 true; switch_away 7100000000 true]) /\
  context_switches (one_switch 5) =
    voluntary_switches (one_switch 5) + involuntary_switches (one_switch 5).
Proof.
  assert (Hin : one_switch 5 ∈
                events (run [switch_away 5200000000 true; switch_away 7100000000 true])).
  { assert (Hev : events (run [switch_away 5200000000 true; switch_away 7100000000 true]) =
                  [one_switch 5]) by (vm_compute; reflexivity).
    rewrite Hev. apply list_elem_of_here. }
  split; [exact Hin|].
  destruct (bucket_stats_invariant
              [switch_away 5200000000 true; switch_away 7100000000 true]
              (one_switch 5) (or_intror Hin)) as (_ & Hexact & _).
  apply Hexact. vm_compute. reflexivity.
Defined.

(** *** Rollover *)

Lemma clock_monotone_snoc fs g :
  clock_monotone (fs ++ [g]) ->
  clock_monotone fs /\ forall f, f ∈ fs -> ktime f <= ktime g.
Proof.
  induction fs as [|f0 fs IH]; cbn [app clock_monotone].
  - intros _. split; [exact I|]. intros f Hf. now apply not_elem_of_nil in Hf.
  - intros [Hall Hrest]. destruct (IH Hrest) as [Hmono Hle].
    apply Forall_app in Hall as [Hfs Hg]. rewrite Forall_singleton in Hg.
    split; [now split|].
    intros f Hf. apply elem_of_cons in Hf as [->|Hf]; [exact Hg|now apply Hle].
Qed.

Lemma updated_stats_key old ct vol wk :
  pid (updated_stats old ct vol wk) = pid old /\
  time_bucket (updated_stats old ct vol wk) = time_bucket old.
Proof. unfold updated_stats. destruct wk; now split. Qed.

Lemma rollover_invariant_init : rollover_invariant [] init.
Proof.
  unfold rollover_invariant, emitted_keys, init.
  cbn [bucket_aggregates events process_state_map].
  split; [|split; [|split]].
  - intros k b Hb. rewrite lookup_empty in Hb. discriminate.
  - intros b Hb. now apply not_elem_of_nil in Hb.
  - intros p s Hs. rewrite lookup_empty in Hs. discriminate.
  - apply NoDup_nil_2.
Qed.

(** One firing that does not go back in time keeps the invariant. *)
Lemma rollover_invariant_fire fs st g :
  rollover_invariant fs st ->
  (forall f, f ∈ fs -> ktime f <= ktime g) ->
  rollover_invariant (fs ++ [g]) (fire st g).
Proof.
  intros (I1 & I2 & I3 & I4) Hclock.
  assert (Hlate : forall p s, process_state_map st !! p = Some s ->
                              last_bucket s <= ktime g / NSEC_PER_SEC).
  { intros p s Hs. destruct (I3 p s Hs) as (f & Hf & ->).
    apply Z.div_le_mono; [reflexivity|now apply Hclock]. }
  assert (Hold : forall b, b ∈ events st ->
            (exists f, f ∈ fs ++ [g] /\ accounted f (pid b) (time_bucket b)) /\
            exists s', process_state_map (fire st g) !! pid b = Some s' /\
                       time_bucket b < last_bucket s').
  { intros b Hb. destruct (I2 b Hb) as ((f & Hf & Hacc) & s & Hs & Hlt).
    split; [exists f; split; [apply elem_of_app; now left|exact Hacc]|].
    destruct (fire_keeps st g _ s Hs) as (s' & Hs' & Hlb).
    exists s'. split; [exact Hs'|].
    pose proof (Hlate _ _ Hs). lia. }
  split; [|split; [|split]].
  - intros k b Hb.
    apply fire_bucket in Hb as [Hb|[Hacc Hb]].
    + destruct (I1 k b Hb) as (Hp & Hw & f & Hf & Hacc).
      repeat split; trivial. exists f. split; [apply elem_of_app; now left|exact Hacc].
    + assert (Hkey : pid b = k.1 /\ time_bucket b = k.2).
      { destruct Hb as [(old & ct & vol & wk & Hold' & ->)|(ct & vol & wk & cm & ->)].
        - destruct (updated_stats_key old ct vol wk) as [-> ->].
          destruct (I1 k old Hold') as (Hp & Hw & _). now split.
        - now split. }
      destruct Hkey as [Hp Hw]. repeat split; trivial.
      exists g. split; [apply elem_of_app; right; apply list_elem_of_here|exact Hacc].
  - intros b Hb.
    destruct (fire_events st g)
      as [Hsame|(ctx & s & old & -> & He & _ & Hs & H0 & Hw & Holdb & Hone & Hafter)].
    + rewrite Hsame in Hb. now apply Hold.
    + rewrite Hone in Hb. apply elem_of_app in Hb as [Hb|Hb]; [now apply Hold|].
      apply list_elem_of_singleton in Hb as ->.
      destruct (I1 _ _ Holdb) as (Hp & Htb & f & Hf & Hacc). cbn [fst snd] in *.
      split.
      * exists f. split; [apply elem_of_app; now left|]. now rewrite Hp, Htb.
      * destruct Hafter as (s' & Hs' & Hlb). exists s'. rewrite Hp.
        split; [exact Hs'|]. rewrite Htb, Hlb.
        pose proof (Hlate _ _ Hs) as Hle. cbn [ktime] in Hle. lia.
  - intros p s' Hs'.
    apply fire_origin in Hs' as [(s & Hs & ->)|Hw].
    + destruct (I3 p s Hs) as (f & Hf & Hlb).
      exists f. split; [apply elem_of_app; now left|exact Hlb].
    + exists g. split; [apply elem_of_app; right; apply list_elem_of_here|exact Hw].
  - unfold emitted_keys in *.
    destruct (fire_events st g)
      as [Hsame|(ctx & s & old & -> & He & _ & Hs & H0 & Hw & Holdb & Hone & _)].
    + now rewrite Hsame.
    + rewrite Hone, fmap_app. apply NoDup_app. split; [exact I4|].
      split; [|apply NoDup_singleton].
      intros key Hkey Hnew. apply list_elem_of_singleton in Hnew as ->.
      apply list_elem_of_fmap in Hkey as (b & Hkb & Hb).
      destruct (I1 _ _ Holdb) as (Hp & Htb & _). cbn [fst snd] in *.
      injection Hkb as Hpb Htbb.
      destruct (I2 b Hb) as (_ & sb & Hsb & Hlt).
      rewrite <- Hpb, Hp, Hs in Hsb. injection Hsb as <-. lia.
Qed.

Lemma rollover_invariant_run fs :
  clock_monotone fs -> rollover_invariant fs (run fs).
Proof.
  induction fs as [|g fs IH] using rev_ind; intros Hmono.
  - exact rollover_invariant_init.
  - apply clock_monotone_snoc in Hmono as [Hmono Hle].
    rewrite run_snoc. apply rollover_invariant_fire; [now apply IH|exact Hle].
Qed.


(** Wakeups touch neither the ring buffer nor the per-task state. *)
Lemma wakeup_no_rollover ctx st :
  events (trace_sched_wakeup ctx st) = events st /\
  process_state_map (trace_sched_wakeup ctx st) = process_state_map st.
Proof. unfold trace_sched_wakeup. destruct (_ =? 0); now split. Qed.

(** C4, as the code has it.  Along every run of the tracer under a
    clock that does not go back: no (entity, window) pair is ever
    submitted twice; every submitted record is of an entity and window
    that an earlier firing was accounted to, so a window without events
    is never submitted; one firing submits at most one record; and when
    a switch away from entity [e] (pid not 0) fires in window [w] while
    the last window seen for [e] is [W], with [W] neither 0 nor [w], and
    a bucket is stored for ([e], [W]), then that bucket is removed from
    the map, it is submitted once if the ring buffer has room and dropped
    if it has none, and the last window seen for [e] becomes [w]. *)
Theorem rollover_emits_once (fs : list firing) (g : firing) :
  clock_monotone (fs ++ [g]) ->
  let st := run fs in
  let st' := fire st g in
  NoDup (emitted_keys st') /\
  (forall b, b ∈ events st' ->
     exists f, f ∈ fs /\ accounted f (pid b) (time_bucket b)) /\
  (events st' = events st \/ exists b, events st' = events st ++ [b]) /\
  (forall ctx s b,
     g = SchedSwitch ctx ->
     let e := to_u32 (prev_pid ctx) in
     let w := switch_ktime ctx / NSEC_PER_SEC in
     0 < e ->
     process_state_map st !! e = Some s ->
     last_bucket s <> 0 -> last_bucket s <> w ->
     bucket_aggregates st !! (e, last_bucket s) = Some b ->
     pid b = e /\ time_bucket b = last_bucket s /\
     events st' = (if switch_reserve_ok ctx then events st ++ [b] else events st) /\
     bucket_aggregates st' !! (e, last_bucket s) = None /\
     exists s', process_state_map st' !! e = Some s' /\ last_bucket s' = w).
Proof.
  intros Hmono st st'.
  pose proof (rollover_invariant_run _ Hmono) as Hafter.
  rewrite run_snoc in Hafter. fold st st' in Hafter.
  destruct Hafter as (_ & _ & _ & Hnodup).
  apply clock_monotone_snoc in Hmono as [Hmono _].
  destruct (rollover_invariant_run _ Hmono) as (I1 & I2 & _ & _). fold st in I1, I2.
  split; [exact Hnodup|].
  split; [|split].
  - intros b Hb. unfold st' in Hb.
    destruct (fire_events st g)
      as [Hsame|(ctx & s & old & _ & _ & _ & _ & _ & _ & Hold & Hone & _)].
    + rewrite Hsame in Hb. now destruct (I2 b Hb) as [Hacc _].
    + rewrite Hone in Hb. apply elem_of_app in Hb as [Hb|Hb].
      * now destruct (I2 b Hb) as [Hacc _].
      * apply list_elem_of_singleton in Hb as ->.
        destruct (I1 _ _ Hold) as (Hp & Htb & Hacc). cbn [fst snd] in *.
        now rewrite Hp, Htb.
  - destruct (fire_events st g)
      as [Hsame|(ctx & s & old & _ & _ & _ & _ & _ & _ & _ & Hone & _)];
      [now left|right; now exists old].
  - intros ctx s b -> e w He Hs H0 Hw Hb.
    destruct (I1 _ _ Hb) as (Hp & Htb & _). cbn [fst snd] in *.
    split; [exact Hp|]. split; [exact Htb|].
    exact (switch_rollover ctx st s b He Hs H0 Hw Hb).
Qed.

(** The scenario of the specification: a state change of task 100 in
    window 5, none in window 6, a state change in window 7. *)
Lemma rollover_emits_once_witness :
  let st := run [switch_away 5200000000 true] in
  let st' := fire st (switch_away 7100000000 true) in
  events st = [] /\
  events st' = [one_switch 5] /\
  bucket_aggregates st' !! (100, 5) = None /\
  NoDup (emitted_keys st').
Proof.
  cbv zeta.
  destruct (rollover_emits_once [switch_away 5200000000 true] (switch_away 7100000000 true))
    as (Hnodup & _ & _ & Hroll).
  - cbn. repeat constructor. vm_compute. discriminate.
  - destruct (Hroll _ {| last_switch_ts := 0; last_bucket := 5; state_comm := "worker" |}
                (one_switch 5) eq_refl) as (_ & _ & Hev & Hgone & _).
    + reflexivity.
    + vm_compute. reflexivity.
    + discriminate.
    + vm_compute. discriminate.
    + vm_compute. reflexivity.
    + split; [vm_compute; reflexivity|].
      split; [exact Hev|]. split; [exact Hgone|exact Hnodup].
Defined.

(** Where the code departs from C4 as it is written.
    - A wakeup of task 100 in window 6, after its switch in window 5:
      the event arrives in another window than the last one seen, yet
      nothing is submitted, the bucket of window 5 stays in the map and
      the last window seen stays 5.
    - The switch in window 7 then submits window 5 alone; the bucket
      that the wakeup made for window 6 stays in the map.
    - A switch in window 7 when the ring buffer is full: the bucket of
      window 5 is removed and no record is submitted for it.
    - A switch in window 0 and the next one in window 1: the bucket of
      window 0 is not submitted and stays in the map. *)
Lemma rollover_not_on_every_event :
  let st5 := run [switch_away 5200000000 true] in
  let st6 := fire st5 (wake 6500000000) in
  let st7 := fire st6 (switch_away 7100000000 true) in
  let full7 := fire st5 (switch_away 7100000000 false) in
  let st1 := run [switch_away 500000000 true; switch_away 1500000000 true] in
  (last_bucket <$> process_state_map st5 !! 100 = Some 5 /\
   bucket_aggregates st5 !! (100, 5) = Some (one_switch 5) /\
   events st6 = [] /\
   bucket_aggregates st6 !! (100, 5) = Some (one_switch 5) /\
   last_bucket <$> process_state_map st6 !! 100 = Some 5) /\
  (events st7 = [one_switch 5] /\
   wakeups <$> bucket_aggregates st7 !! (100, 6) = Some 1) /\
  (events full7 = [] /\
   bucket_aggregates full7 !! (100, 5) = None /\
   last_bucket <$> process_state_map full7 !! 100 = Some 7) /\
  (events st1 = [] /\
   bucket_aggregates st1 !! (100, 0) = Some (one_switch 0) /\
   last_bucket <$> process_state_map st1 !! 100 = Some 1).
Proof. vm_compute. repeat split. Qed.

End SchedTracerSpec.


(** * Further properties *)

(** ** The histogram engine of io_latency_tracer.c *)

Module HistogramFacts.
Import IoStats Binary64 IoLatencyBpf IoLatencyUser BlockRun.
Import Binary64Facts IoLatencyBpfSpec IoLatencyUserSpec.

(** X1. [calculate_percentile] returns the midpoint of the first slot
    whose cumulative count reaches the target
    [(unsigned long long)(total * percentile / 100.0)], and of no
    other: a return from inside the loop at slot [i] means the
    cumulative count reaches the target at [i] and at no slot before;
    and the first slot that reaches the target is the one returned. *)
Theorem percentile_is_first_slot_reaching_target
    (h : hist) (total : Z) (p : double) (target : Z) :
  hist_ok h -> total <> 0 ->
  percentile_target total p = Some target ->
  (forall i v,
     calculate_percentile_at h total p = Some (ReturnInLoop i, v) ->
     0 <= i < MAX_SLOTS /\ v = bucket_midpoint i /\
     target <= cumulative_count h i /\
     forall j, 0 <= j < i -> cumulative_count h j < target) /\
  (forall i,
     0 <= i < MAX_SLOTS ->
     target <= cumulative_count h i ->
     (forall j, 0 <= j < i -> cumulative_count h j < target) ->
     calculate_percentile_at h total p = Some (ReturnInLoop i, bucket_midpoint i)).
Proof.
  intros Hok Hnz Htarget.
  assert (Hat : calculate_percentile_at h total p =
                Some (percentile_loop h target (seqZ 0 MAX_SLOTS) 0)).
  { unfold calculate_percentile_at. apply Z.eqb_neq in Hnz. now rewrite Hnz, Htarget. }
  assert (Hfirst : forall i v,
            percentile_loop h target (seqZ 0 MAX_SLOTS) 0 = (ReturnInLoop i, v) ->
            0 <= i < MAX_SLOTS /\ v = bucket_midpoint i /\
            target <= cumulative_count h i /\
            forall j, 0 <= j < i -> cumulative_count h j < target).
  { intros i v Hloop. change MAX_SLOTS with (Z.of_nat 32) in Hloop.
    destruct (percentile_loop_first h target Hok 32 0 0 i v) as (H1 & H2 & H3 & H4);
      [lia|lia|reflexivity|exact Hloop|].
    unfold MAX_SLOTS. repeat split; trivial; lia. }
  rewrite Hat. split.
  - intros i v [= Hloop]. now apply Hfirst.
  - intros i Hi Hreach Hbefore. f_equal.
    pose proof (percentile_target_range total p target Htarget) as Hnn.
    pose proof (cumulative_count_range h i Hok ltac:(unfold MAX_SLOTS in Hi; lia)) as Hr.
    destruct (percentile_loop_found h target Hok ltac:(lia))
      as (i' & Hi' & Hloop & Hreach' & Hbefore').
    destruct (Z.lt_trichotomy i i') as [Hlt|[->|Hgt]]; [|exact Hloop|].
    + specialize (Hbefore' i ltac:(lia)). lia.
    + specialize (Hbefore i' ltac:(lia)). lia.
Qed.

Lemma percentile_is_first_slot_reaching_target_witness :
  percentile_target 1000 three_tenths = Some 3 /\
  calculate_percentile_at skewed_hist 1000 three_tenths =
    Some (ReturnInLoop 5, bucket_midpoint 5).
Proof.
  assert (Htarget : percentile_target 1000 three_tenths = Some 3) by reflexivity.
  split; [exact Htarget|].
  destruct (percentile_is_first_slot_reaching_target skewed_hist 1000 three_tenths 3)
    as [_ Hfirst].
  - split; cbn [skewed_hist slots].
    + now rewrite !length_insert, length_replicate.
    + apply Forall_insert; [apply Forall_insert; [apply Forall_replicate|]|]; lia.
  - lia.
  - exact Htarget.
  - apply (Hfirst 5).
    + vm_compute. split; [discriminate|reflexivity].
    + vm_compute. discriminate.
    + intros j Hj.
      assert (Hcases : j = 0 \/ j = 1 \/ j = 2 \/ j = 3 \/ j = 4) by lia.
      destruct Hcases as [->|[->|[->|[->| ->]]]]; vm_compute; reflexivity.
Defined.

Lemma bucket_midpoint_num i :
  0 <= i < MAX_SLOTS ->
  bucket_midpoint i =
    (inject_Z (if i =? 0 then 2 else 2 ^ i + 2 ^ (i + 1)) / (2 # 1))%Q.
Proof.
  intros Hi. unfold bucket_midpoint, MAX_SLOTS in *.
  destruct (Z.eqb_spec i 0) as [->|Hnz]; [reflexivity|].
  rewrite !Z.shiftl_1_l.
  assert (Hlo : 0 < 2 ^ i) by (apply Z.pow_pos_nonneg; lia).
  assert (Hhi : 2 ^ (i + 1) <= 2 ^ 32) by (apply Z.pow_le_mono_r; lia).
  assert (Hmid : 2 ^ i < 2 ^ (i + 1)) by (apply Z.pow_lt_mono_r; lia).
  assert (Hmax : 2 ^ 32 < 2 ^ 64) by reflexivity.
  rewrite (to_u64_small (2 ^ i)), (to_u64_small (2 ^ (i + 1))) by lia.
  rewrite to_u64_small by lia. reflexivity.
Qed.

(** Higher slots have higher midpoints. *)
Lemma bucket_midpoint_monotone i j :
  0 <= i <= j -> j < MAX_SLOTS -> (bucket_midpoint i <= bucket_midpoint j)%Q.
Proof.
  intros Hij Hj. rewrite !bucket_midpoint_num by lia.
  unfold Qle. cbn [Qnum Qden Qdiv Qmult Qinv inject_Z].
  assert (Hpow : 2 ^ i <= 2 ^ j) by (apply Z.pow_le_mono_r; lia).
  assert (Hpow1 : 2 ^ (i + 1) <= 2 ^ (j + 1)) by (apply Z.pow_le_mono_r; lia).
  assert (H2j : j <> 0 -> 2 <= 2 ^ j).
  { intros Hnz. change 2 with (2 ^ 1) at 1. apply Z.pow_le_mono_r; lia. }
  assert (0 < 2 ^ (j + 1)) by (apply Z.pow_pos_nonneg; lia).
  destruct (Z.eqb_spec i 0), (Z.eqb_spec j 0); lia.
Qed.

(** The target does not decrease with the percentile. *)
Lemma percentile_target_monotone total p p' vp vp' t t' :
  0 <= total ->
  double_value p = Some vp -> double_value p' = Some vp' ->
  (0 <= vp)%Q -> (vp <= vp')%Q ->
  percentile_target total p = Some t -> percentile_target total p' = Some t' ->
  t <= t'.
Proof.
  intros Htotal Hp Hp' Hvp Hle Ht Ht'. unfold percentile_target in Ht, Ht'.
  rewrite double_of_Z_100 in Ht, Ht'.
  destruct (ull_of_double_value _ _ Ht) as (u & Hu).
  destruct (ull_of_double_value _ _ Ht') as (u' & Hu').
  destruct (double_div_value _ _ _ _ _ Hu) as (w & Hw).
  destruct (double_div_value _ _ _ _ _ Hu') as (w' & Hw').
  destruct (double_of_Z_cases total Htotal) as [Hinf|(vt & Hvt & Hvt0)].
  { exfalso. rewrite Hinf in Hw.
    destruct p as [sp|sp| |sp mp ep]; cbn in Hp, Hw; discriminate. }
  destruct (double_mul_monotone _ p p' vt vp vp' w w' Hvt Hvt0 Hp Hp' Hvp Hle Hw Hw')
    as [Hw0 Hww'].
  destruct (double_div_monotone _ _ _ _ w w' u u' Hw Hw' Hw0 Hww' Hu Hu') as [Hu0 Huu'].
  exact (ull_of_double_monotone _ _ u u' t t' Hu Hu' Hu0 Huu' Ht Ht').
Qed.

(** X2. Percentiles are ordered: over the same histogram and total, a
    higher percentile never gives a lower estimate (so
    p50 <= p95 <= p99). *)
Theorem percentile_monotone (h : hist) (total : Z) (p p' : double) (vp vp' : Q) :
  hist_ok h -> 0 < total <= hist_total h ->
  double_value p = Some vp -> double_value p' = Some vp' ->
  (0 <= vp)%Q -> (vp <= vp')%Q -> (vp' <= 100 # 1)%Q ->
  exists v v',
    calculate_percentile h total p = Some v /\
    calculate_percentile h total p' = Some v' /\
    (v <= v')%Q.
Proof.
  intros Hok Htotal Hp Hp' Hp0 Hpp' Hp100.
  pose proof (hist_total_bound h Hok) as Hbound.
  destruct (percentile_target_le_total total p vp) as (t & Ht & Hr); trivial; [lia| |].
  { split; [exact Hp0|]. now apply Qle_trans with vp'. }
  destruct (percentile_target_le_total total p' vp') as (t' & Ht' & Hr'); trivial; [lia| |].
  { split; [|exact Hp100]. now apply Qle_trans with vp. }
  pose proof (percentile_target_monotone total p p' vp vp' t t' ltac:(lia)
                Hp Hp' Hp0 Hpp' Ht Ht') as Hmono.
  destruct (percentile_loop_found h t Hok) as (i & Hi & Hloop & _ & Hbefore); [lia|].
  destruct (percentile_loop_found h t' Hok) as (i' & Hi' & Hloop' & Hreach' & _); [lia|].
  assert (Hii' : i <= i').
  { destruct (Z_lt_le_dec i' i) as [Hlt|Hle]; [|exact Hle].
    specialize (Hbefore i' ltac:(lia)). lia. }
  exists (bucket_midpoint i), (bucket_midpoint i').
  assert (Hnz : (total =? 0) = false) by (apply Z.eqb_neq; lia).
  unfold calculate_percentile, calculate_percentile_at.
  rewrite Hnz, Ht, Ht'. cbn [mbind option_bind fmap option_fmap option_map].
  rewrite Hloop, Hloop'. cbn [snd].
  split; [reflexivity|]. split; [reflexivity|].
  apply bucket_midpoint_monotone; lia.
Qed.

Lemma percentile_monotone_witness :
  exists v v',
    calculate_percentile two_slot_hist 100 (double_of_Z 50) = Some v /\
    calculate_percentile two_slot_hist 100 (double_of_Z 99) = Some v' /\
    (v == 12 # 1)%Q /\ (v' == 1536 # 1)%Q /\ (v <= v')%Q.
Proof.
  edestruct (percentile_monotone two_slot_hist 100 (double_of_Z 50) (double_of_Z 99))
    as (v & v' & Hv & Hv' & Hle).
  - split; cbn [two_slot_hist slots].
    + now rewrite !length_insert, length_replicate.
    + apply Forall_insert; [apply Forall_insert; [apply Forall_replicate|]|]; lia.
  - vm_compute. split; [reflexivity|discriminate].
  - reflexivity.
  - reflexivity.
  - vm_compute. discriminate.
  - vm_compute. discriminate.
  - vm_compute. discriminate.
  - exists v, v'. split; [exact Hv|]. split; [exact Hv'|].
    assert (Hc : calculate_percentile two_slot_hist 100 (double_of_Z 50) = Some (24 # 2))
      by (vm_compute; reflexivity).
    assert (Hc' : calculate_percentile two_slot_hist 100 (double_of_Z 99) = Some (3072 # 2))
      by (vm_compute; reflexivity).
    rewrite Hc in Hv. rewrite Hc' in Hv'. injection Hv as <-. injection Hv' as <-.
    split; [reflexivity|]. split; [reflexivity|exact Hle].
Defined.

Lemma max_latency_scan h (n : nat) :
  let r := max_latency_loop h (reverse (seqZ 0 (Z.of_nat n))) in
  ((forall k, 0 <= k < Z.of_nat n -> slot h k <= 0) /\ r = 0%Q) \/
  exists j, 0 <= j < Z.of_nat n /\ 0 < slot h j /\
    (forall k, j < k < Z.of_nat n -> slot h k <= 0) /\
    r = inject_Z (to_u64 (Z.shiftl 1 (j + 1))).
Proof.
  induction n as [|n IH]; cbv zeta.
  - left. split; [intros k Hk; lia|reflexivity].
  - rewrite seqZ_S, reverse_snoc, Z.add_0_l. cbn [max_latency_loop].
    destruct (Z.ltb_spec 0 (slot h (Z.of_nat n))) as [Hfull|Hempty].
    + right. exists (Z.of_nat n). repeat split; lia.
    + destruct IH as [[Hall Hr]|(j & Hj & Hfull & Habove & Hr)].
      * left. split; [|exact Hr]. intros k Hk.
        destruct (Z.eq_dec k (Z.of_nat n)) as [->|Hne]; [exact Hempty|].
        apply Hall. lia.
      * right. exists j. repeat split; try lia; trivial. intros k Hk.
        destruct (Z.eq_dec k (Z.of_nat n)) as [->|Hne]; [exact Hempty|].
        apply Habove. lia.
Qed.

Lemma slot_upper_bound j : 0 <= j < MAX_SLOTS -> to_u64 (Z.shiftl 1 (j + 1)) = 2 ^ (j + 1).
Proof.
  intros Hj. unfold MAX_SLOTS in Hj. rewrite Z.shiftl_1_l. apply to_u64_small.
  assert (0 < 2 ^ (j + 1)) by (apply Z.pow_pos_nonneg; lia).
  assert (2 ^ (j + 1) <= 2 ^ 32) by (apply Z.pow_le_mono_r; lia).
  assert (2 ^ 32 < 2 ^ 64) by reflexivity. lia.
Qed.

(** X3. [get_max_latency] is 0 for a histogram with no event and
    otherwise the upper bound [2^(i+1)] of the highest slot [i] that
    holds an event. *)
Theorem get_max_latency_highest_slot (h : hist) :
  ((forall k, 0 <= k < MAX_SLOTS -> slot h k <= 0) -> get_max_latency h = 0%Q) /\
  (forall i,
     0 <= i < MAX_SLOTS -> 0 < slot h i ->
     (forall k, i < k < MAX_SLOTS -> slot h k <= 0) ->
     get_max_latency h = inject_Z (2 ^ (i + 1))).
Proof.
  unfold get_max_latency. change MAX_SLOTS with (Z.of_nat 32).
  pose proof (max_latency_scan h 32) as Hscan. cbv zeta in Hscan.
  split.
  - intros Hall.
    destruct Hscan as [[_ Hr]|(j & Hj & Hfull & _)]; [exact Hr|].
    specialize (Hall j Hj). lia.
  - intros i Hi Hfull Habove.
    destruct Hscan as [[Hall _]|(j & Hj & Hjfull & Hjabove & Hr)].
    + specialize (Hall i Hi). lia.
    + assert (j = i) as ->.
      { destruct (Z.lt_trichotomy j i) as [Hlt|[Heq|Hgt]]; [|exact Heq|].
        - specialize (Hjabove i ltac:(lia)). lia.
        - specialize (Habove j ltac:(lia)). lia. }
      rewrite Hr. f_equal. apply slot_upper_bound. exact Hi.
Qed.

Lemma get_max_latency_highest_slot_witness :
  get_max_latency (single_slot 10 3) = inject_Z 2048.
Proof.
  destruct (get_max_latency_highest_slot (single_slot 10 3)) as [_ Hmax].
  apply (Hmax 10).
  - vm_compute. split; [discriminate|reflexivity].
  - reflexivity.
  - intros k Hk. rewrite single_slot_off by lia. lia.
Defined.

(** The maximum is at least the upper bound of every slot that holds an
    event. *)
Lemma get_max_latency_covers h i :
  0 <= i < MAX_SLOTS -> 0 < slot h i ->
  exists j, i <= j < MAX_SLOTS /\ get_max_latency h = inject_Z (2 ^ (j + 1)).
Proof.
  intros Hi Hfull. unfold get_max_latency. change MAX_SLOTS with (Z.of_nat 32) in *.
  destruct (max_latency_scan h 32) as [[Hall _]|(j & Hj & Hjfull & Hjabove & Hr)].
  - specialize (Hall i Hi). lia.
  - exists j. split.
    + destruct (Z_lt_le_dec j i) as [Hlt|Hle]; [|lia].
      specialize (Hjabove i ltac:(lia)). lia.
    + rewrite Hr. f_equal. apply slot_upper_bound. exact Hj.
Qed.

(** X4. The maximum that [get_max_latency] reports is above every
    latency recorded in the histogram, as long as the latency is below
    [2^32] microseconds (longer ones are all counted in slot 31, whose
    upper bound is [2^32]). *)
Theorem get_max_latency_bounds_recorded (h : hist) (latency_us : Z) :
  0 <= latency_us < 2 ^ 32 ->
  0 < slot h (log2 latency_us) ->
  (inject_Z latency_us < get_max_latency h)%Q.
Proof.
  intros HL Hrecorded.
  pose proof (log2_clamped latency_us ltac:(lia)) as Hclamp.
  pose proof (Z.log2_nonneg latency_us) as Hnn.
  assert (Hlt32 : Z.log2 latency_us < 32).
  { destruct (Z.eq_dec latency_us 0) as [->|Hnz]; [cbn; lia|].
    apply Z.log2_lt_pow2; lia. }
  assert (Hlog : log2 latency_us = Z.log2 latency_us) by lia.
  assert (Hup : latency_us < 2 ^ (log2 latency_us + 1)).
  { rewrite Hlog. destruct (Z.eq_dec latency_us 0) as [->|Hnz]; [cbn; lia|].
    pose proof (Z.log2_spec latency_us ltac:(lia)) as Hspec.
    rewrite <- Z.add_1_r in Hspec. lia. }
  destruct (get_max_latency_covers h (log2 latency_us)) as (j & Hj & ->);
    [unfold MAX_SLOTS; lia|exact Hrecorded|].
  rewrite <- Zlt_Qlt.
  assert (2 ^ (log2 latency_us + 1) <= 2 ^ (j + 1)) by (apply Z.pow_le_mono_r; lia).
  lia.
Qed.

Lemma get_max_latency_bounds_recorded_witness :
  (inject_Z 1500 < get_max_latency (single_slot 10 1))%Q.
Proof.
  apply get_max_latency_bounds_recorded.
  - lia.
  - vm_compute. reflexivity.
Defined.

Lemma bucket_midpoint_below_bound i j :
  0 <= i <= j -> j < MAX_SLOTS -> (bucket_midpoint i < inject_Z (2 ^ (j + 1)))%Q.
Proof.
  intros Hij Hj. rewrite bucket_midpoint_num by lia.
  unfold Qlt. cbn [Qnum Qden Qdiv Qmult Qinv inject_Z].
  assert (Hpow1 : 2 ^ (i + 1) <= 2 ^ (j + 1)) by (apply Z.pow_le_mono_r; lia).
  assert (Hmid : i <> 0 -> 2 ^ i < 2 ^ (i + 1)) by (intros; apply Z.pow_lt_mono_r; lia).
  assert (H2 : 2 <= 2 ^ (j + 1)).
  { change 2 with (2 ^ 1) at 1. apply Z.pow_le_mono_r; lia. }
  destruct (Z.eqb_spec i 0); [lia|]. specialize (Hmid ltac:(lia)). lia.
Qed.

(** X5. Every percentile that is reported for a histogram lies below the
    maximum reported for it. *)
Theorem percentile_below_max (h : hist) (total : Z) (p : double) (vp : Q) :
  hist_ok h -> 0 < total <= hist_total h ->
  double_value p = Some vp -> (0 <= vp <= 100 # 1)%Q ->
  exists v, calculate_percentile h total p = Some v /\ (v < get_max_latency h)%Q.
Proof.
  intros Hok Htotal Hp Hvp.
  pose proof (hist_total_bound h Hok) as Hbound.
  destruct (percentile_target_le_total total p vp) as (t & Ht & Htr); trivial; [lia|].
  destruct (percentile_loop_found h t Hok ltac:(lia)) as (i & Hi & Hloop & _).
  exists (bucket_midpoint i).
  assert (Hnz : (total =? 0) = false) by (apply Z.eqb_neq; lia).
  split.
  { unfold calculate_percentile, calculate_percentile_at.
    rewrite Hnz, Ht. cbn [mbind option_bind fmap option_fmap option_map].
    now rewrite Hloop. }
  assert (Hcover : exists j, i <= j < MAX_SLOTS /\
                             get_max_latency h = inject_Z (2 ^ (j + 1))).
  { change MAX_SLOTS with (Z.of_nat 32) in Hloop.
    destruct (percentile_loop_first h t Hok 32 0 0 i _ ltac:(lia) ltac:(lia) eq_refl Hloop)
      as (_ & _ & Hreach & Hbefore).
    destruct (Z_le_gt_dec t 0) as [Hzero|Hone].
    - assert (i = 0) as ->.
      { destruct (Z.eq_dec i 0) as [Heq|Hne]; [exact Heq|].
        specialize (Hbefore 0 ltac:(unfold MAX_SLOTS in Hi; lia)).
        pose proof (cumulative_count_range h 0 Hok ltac:(lia)). lia. }
      unfold get_max_latency. change MAX_SLOTS with (Z.of_nat 32).
      destruct (max_latency_scan h 32) as [[Hall _]|(j & Hj & _ & _ & Hr)].
      + assert (hist_total h <= 0); [|lia].
        rewrite <- (cumulative_count_all h Hok). unfold cumulative_count.
        assert (Hsum : forall l, Forall (fun k => 0 <= k < 32) l ->
                                 foldr Z.add 0 (slot h <$> l) <= 0).
        { induction 1 as [|k l Hk _ IHl]; cbn [fmap list_fmap foldr]; [lia|].
          specialize (Hall k Hk).
          change (foldr Z.add 0 (list_fmap _ _ (slot h) l))
            with (foldr Z.add 0 (slot h <$> l)). lia. }
        apply Hsum, Forall_seqZ. intros k Hk. lia.
      + exists j. split; [lia|]. rewrite Hr. f_equal. now apply slot_upper_bound.
    - apply get_max_latency_covers; [exact Hi|].
      rewrite (cumulative_count_step h i ltac:(lia)) in Hreach.
      destruct (Z.eq_dec i 0) as [->|Hne].
      + rewrite cumulative_count_before in Hreach. lia.
      + specialize (Hbefore (i - 1) ltac:(lia)). lia. }
  destruct Hcover as (j & Hj & ->).
  apply bucket_midpoint_below_bound; lia.
Qed.

Lemma percentile_below_max_witness :
  exists v, calculate_percentile (single_slot 10 1) 1 (double_of_Z 50) = Some v /\
            (v < get_max_latency (single_slot 10 1))%Q.
Proof.
  eapply percentile_below_max.
  - apply single_slot_ok. lia.
  - vm_compute. split; [reflexivity|discriminate].
  - reflexivity.
  - split; vm_compute; discriminate.
Defined.

End HistogramFacts.

(** ** The block I/O tracer and its consumer *)

Module BlockTracerFacts.
Import IoStats Binary64 IoLatencyBpf IoLatencyUser BlockRun.
Import Binary64Facts IoLatencyBpfSpec IoLatencyUserSpec HistogramFacts.

Lemma complete_missing ctx st :
  io_start_map st !! (dev ctx, sector ctx) = None ->
  trace_block_rq_complete ctx st = st.
Proof.
  intros Hnone. unfold trace_block_rq_complete, bpf_map_lookup_elem. now rewrite Hnone.
Qed.

Lemma complete_off_cpu ctx st start :
  io_start_map st !! (dev ctx, sector ctx) = Some start ->
  io_stats_map st !! complete_cpu ctx = None ->
  io_stats_map (trace_block_rq_complete ctx st) = io_stats_map st.
Proof.
  intros Hstart Hcpu. unfold trace_block_rq_complete, bpf_map_lookup_elem, percpu_lookup.
  rewrite Hstart. cbn [Z.ltb Z.compare io_stats_map_max_entries]. now rewrite Hcpu.
Qed.

(** A completion that finds its start record and the statistics of its
    CPU, written out field by field. *)
Lemma complete_found ctx st start stats :
  io_start_map st !! (dev ctx, sector ctx) = Some start ->
  io_stats_map st !! complete_cpu ctx = Some stats ->
  let is_read := Ascii.eqb (rwbs0 (rwbs ctx)) "R"%char in
  let slot_nr := log2 (to_u64 (complete_ktime ctx - start) / 1000) in
  let bytes := to_u32 (nr_sector ctx * 512) in
  exists stats',
    trace_block_rq_complete ctx st =
      {| io_start_map := delete (dev ctx, sector ctx) (io_start_map st);
         io_stats_map := <[complete_cpu ctx := stats']> (io_stats_map st) |} /\
    read_hist stats' =
      (if is_read then hist_incr (read_hist stats) slot_nr else read_hist stats) /\
    write_hist stats' =
      (if is_read then write_hist stats else hist_incr (write_hist stats) slot_nr) /\
    read_count stats' =
      (if is_read then to_u64 (read_count stats + 1) else read_count stats) /\
    write_count stats' =
      (if is_read then write_count stats else to_u64 (write_count stats + 1)) /\
    read_bytes stats' =
      (if is_read then to_u64 (read_bytes stats + bytes) else read_bytes stats) /\
    write_bytes stats' =
      (if is_read then write_bytes stats else to_u64 (write_bytes stats + bytes)).
Proof.
  intros Hstart Hcpu is_read slot_nr bytes.
  unfold trace_block_rq_complete, bpf_map_lookup_elem, percpu_lookup.
  rewrite Hstart. cbn [Z.ltb Z.compare io_stats_map_max_entries]. rewrite Hcpu.
  fold is_read slot_nr bytes.
  eexists. split; [reflexivity|].
  destruct is_read; repeat split.
Qed.

Lemma slot_nr_range z : 0 <= log2 (to_u64 z / 1000) < MAX_SLOTS.
Proof.
  pose proof (to_u64_range z) as Hr.
  assert (Hus : 0 <= to_u64 z / 1000) by (apply Z.div_pos; lia).
  pose proof (log2_clamped _ Hus). pose proof (Z.log2_nonneg (to_u64 z / 1000)).
  unfold MAX_SLOTS. lia.
Qed.

(** *** The statistics of one CPU *)

Lemma sum_insert (l : list Z) (i : nat) (x y : Z) :
  l !! i = Some y ->
  foldr Z.add 0 (<[i := x]> l) = foldr Z.add 0 l - y + x.
Proof.
  revert i. induction l as [|z l IH]; intros [|i] Hy; try discriminate.
  - cbn in Hy. injection Hy as ->. cbn. lia.
  - cbn in Hy. cbn [foldr]. change (<[S i:=x]> (z :: l)) with (z :: <[i:=x]> l).
    cbn [foldr]. rewrite (IH i Hy). lia.
Qed.

Lemma slot_below_total h i : hist_ok h -> 0 <= slot h i <= hist_total h.
Proof.
  intros Hok. split; [apply (slot_range h i Hok)|].
  destruct Hok as [_ Hall]. unfold slot, hist_total.
  assert (Hnn : Forall (fun c => 0 <= c) (slots h)).
  { eapply Forall_impl; [exact Hall|]. cbn. intros c Hc. lia. }
  clear Hall. revert Hnn. generalize (Z.to_nat i) as n. generalize (slots h) as l.
  induction l as [|z l IH]; intros [|n] Hnn; cbn; try lia.
  - apply Forall_cons in Hnn as [Hz Hl]. pose proof (sum_nonneg l Hl). lia.
  - apply Forall_cons in Hnn as [Hz Hl].
    specialize (IH n Hl). apply Z.le_trans with (foldr Z.add 0 l); [exact IH|lia].
Qed.

Lemma hist_incr_ok h i : hist_ok h -> hist_ok (hist_incr h i).
Proof.
  intros [Hlen Hall]. split; cbn [hist_incr slots].
  - now rewrite length_insert.
  - apply Forall_insert; [exact Hall|apply to_u32_range].
Qed.

Lemma hist_incr_total h i :
  hist_ok h -> 0 <= i < MAX_SLOTS -> hist_total h + 1 < 2 ^ 32 ->
  hist_total (hist_incr h i) = hist_total h + 1.
Proof.
  intros Hok Hi Hfit. pose proof (slot_below_total h i Hok) as Hslot.
  unfold hist_total, hist_incr. cbn [slots].
  destruct (slots h !! Z.to_nat i) as [y|] eqn:Hy.
  - rewrite (sum_insert _ _ _ y Hy).
    assert (Hsl : slot h i = y) by (unfold slot; now rewrite Hy).
    rewrite Hsl, to_u32_small; unfold hist_total in *; lia.
  - apply lookup_ge_None in Hy. destruct Hok as [Hlen _].
    rewrite Hlen in Hy. unfold MAX_SLOTS in *. lia.
Qed.

Lemma zero_hist_ok : hist_ok zero_hist.
Proof.
  split; [reflexivity|]. unfold zero_hist. cbn [slots].
  apply Forall_replicate. lia.
Qed.

Lemma io_stats_ok_zero : io_stats_ok 0 zero_stats.
Proof.
  unfold io_stats_ok. cbn [zero_stats read_hist write_hist read_count write_count].
  refine (conj zero_hist_ok (conj zero_hist_ok (conj _ (conj _ (conj _ _))))); try lia.
  intros _. split; reflexivity.
Qed.

Lemma io_stats_ok_mono n n' s : n <= n' -> io_stats_ok n s -> io_stats_ok n' s.
Proof.
  intros Hle (Hr & Hw & Hrc & Hwc & Hn & Hexact).
  refine (conj Hr (conj Hw (conj Hrc (conj Hwc (conj _ _))))); [lia|].
  intros Hn'. apply Hexact. lia.
Qed.

(** One completion counted on the statistics of a CPU keeps them
    consistent. *)
Lemma io_stats_ok_counted n stats stats' (is_read : bool) slot_nr :
  0 <= slot_nr < MAX_SLOTS ->
  io_stats_ok n stats ->
  read_hist stats' =
    (if is_read then hist_incr (read_hist stats) slot_nr else read_hist stats) ->
  write_hist stats' =
    (if is_read then write_hist stats else hist_incr (write_hist stats) slot_nr) ->
  read_count stats' =
    (if is_read then to_u64 (read_count stats + 1) else read_count stats) ->
  write_count stats' =
    (if is_read then write_count stats else to_u64 (write_count stats + 1)) ->
  io_stats_ok (n + 1) stats'.
Proof.
  intros Hslot (Hr & Hw & Hrc & Hwc & Hn & Hexact) Hrh Hwh Hrcount Hwcount.
  assert (Hstep : forall z, 0 <= z -> 0 <= to_u64 (z + 1) <= z + 1).
  { intros z Hz. split; [apply to_u64_range|]. unfold to_u64. apply Z.mod_le; lia. }
  pose proof (Hstep _ Hrc). pose proof (Hstep _ Hwc).
  unfold io_stats_ok. rewrite Hrh, Hwh, Hrcount, Hwcount.
  destruct is_read.
  - refine (conj (hist_incr_ok _ _ Hr) (conj Hw (conj _ (conj Hwc (conj _ _)))));
      [lia|lia|].
    intros Hfit. destruct (Hexact ltac:(lia)) as [Hre Hwe].
    split; [|exact Hwe].
    rewrite hist_incr_total by (trivial; lia).
    rewrite to_u64_small by lia. lia.
  - refine (conj Hr (conj (hist_incr_ok _ _ Hw) (conj Hrc (conj _ (conj _ _)))));
      [lia|lia|].
    intros Hfit. destruct (Hexact ltac:(lia)) as [Hre Hwe].
    split; [exact Hre|].
    rewrite hist_incr_total by (trivial; lia).
    rewrite to_u64_small by lia. lia.
Qed.

Lemma block_run_snoc nr_cpus fs f :
  block_run nr_cpus (fs ++ [f]) = block_fire (block_run nr_cpus fs) f.
Proof. unfold block_run. now rewrite fold_left_app. Qed.

(** X6. After any run of the two block-layer tracepoints from zeroed
    statistics, the statistics of every CPU are consistent: both
    histograms hold 32 [__u32] counters, the read and write counts add
    up to at most the number of firings, and, in every run of fewer than
    [2^32] firings, each histogram has counted exactly as many events as
    its operation count says; the number of per-CPU copies never
    changes. *)
Theorem block_stats_consistent (nr_cpus : nat) (fs : list block_firing) :
  length (io_stats_map (block_run nr_cpus fs)) = nr_cpus /\
  forall cpu s,
    io_stats_map (block_run nr_cpus fs) !! cpu = Some s ->
    io_stats_ok (Z.of_nat (length fs)) s.
Proof.
  induction fs as [|f fs [IHlen IH]] using rev_ind.
  - split; [apply length_replicate|].
    intros cpu s Hs. cbn in Hs. apply lookup_replicate_1 in Hs as [-> _].
    exact io_stats_ok_zero.
  - rewrite block_run_snoc, length_app, Nat2Z.inj_add. cbn [length].
    change (Z.of_nat 1) with 1.
    set (st := block_run nr_cpus fs) in *.
    assert (Hkeep : forall cpu s, io_stats_map st !! cpu = Some s ->
                                  io_stats_ok (Z.of_nat (length fs) + 1) s).
    { intros cpu s Hs. apply (io_stats_ok_mono (Z.of_nat (length fs))); [lia|].
      now apply (IH cpu). }
    destruct f as [ctx|ctx]; cbn [block_fire].
    + split; [exact IHlen|exact Hkeep].
    + destruct (io_start_map st !! (dev ctx, sector ctx)) as [start|] eqn:Hstart;
        [|rewrite complete_missing by trivial; split; [exact IHlen|exact Hkeep]].
      destruct (io_stats_map st !! complete_cpu ctx) as [stats|] eqn:Hcpu;
        [|rewrite (complete_off_cpu ctx st start) by trivial;
          split; [exact IHlen|exact Hkeep]].
      destruct (complete_found ctx st start stats Hstart Hcpu)
        as (stats' & -> & Hrh & Hwh & Hrc & Hwc & _).
      cbn [io_stats_map]. split; [now rewrite length_insert|].
      intros cpu s Hs.
      destruct (decide (complete_cpu ctx = cpu)) as [<-|Hne].
      * rewrite list_lookup_insert_eq in Hs
          by (apply lookup_lt_is_Some; now exists stats).
        injection Hs as <-.
        eapply io_stats_ok_counted; [apply slot_nr_range|now apply (IH _ _ Hcpu)|..];
          eassumption.
      * rewrite list_lookup_insert_ne in Hs by trivial. now apply (Hkeep cpu).
Qed.

Lemma block_stats_consistent_witness :
  exists s,
    io_stats_map (block_run 1 flush_run) !! 0%nat = Some s /\
    read_count s = 1 /\ write_count s = 2 /\
    hist_total (read_hist s) = read_count s /\
    hist_total (write_hist s) = write_count s /\
    slot (write_hist s) 10 = 1 /\ slot (write_hist s) 11 = 1.
Proof.
  destruct (block_stats_consistent 1 flush_run) as [_ Hok].
  set (s := default zero_stats (io_stats_map (block_run 1 flush_run) !! 0%nat)).
  assert (Hs : io_stats_map (block_run 1 flush_run) !! 0%nat = Some s)
    by (vm_compute; reflexivity).
  exists s. split; [exact Hs|].
  destruct (Hok 0%nat s Hs) as (_ & _ & _ & _ & _ & Hexact).
  destruct Hexact as [Hread Hwrite]; [vm_compute; reflexivity|].
  split; [vm_compute; reflexivity|]. split; [vm_compute; reflexivity|].
  split; [exact Hread|]. split; [exact Hwrite|].
  split; vm_compute; reflexivity.
Defined.

(** *** Issue and completion *)

(** X7. Round trip of the request tracker.  Once [trace_block_rq_issue]
    has stored the start time of a request (a request issued again
    under the same device and sector replaces the older start time; a
    new key needs a free entry), its completion on a CPU that has
    statistics removes the record and counts the request once, in the
    slot of the latency measured from that last issue, as a read or as a
    write; a second completion of the same request, and the completion
    of a request that was never issued, change nothing. *)
Theorem block_request_round_trip
    (st : io_maps) (issue : block_rq_issue) (done again : block_rq_complete)
    (stats : io_stats) :
  let key := (issue_dev issue, issue_sector issue) in
  let slot_nr := log2 (to_u64 (complete_ktime done - issue_ktime issue) / 1000) in
  let is_read := Ascii.eqb (rwbs0 (rwbs done)) "R"%char in
  let st1 := trace_block_rq_issue issue st in
  let st2 := trace_block_rq_complete done st1 in
  (dev done, sector done) = key ->
  (dev again, sector again) = key ->
  is_Some (io_start_map st !! key) \/
    (size (io_start_map st) < io_start_map_max_entries)%nat ->
  io_stats_map st !! complete_cpu done = Some stats ->
  hist_ok (read_hist stats) -> hist_ok (write_hist stats) ->
  io_start_map st1 !! key = Some (issue_ktime issue) /\
  io_start_map st2 !! key = None /\
  (exists stats',
     io_stats_map st2 = <[complete_cpu done := stats']> (io_stats_map st) /\
     read_count stats' =
       (if is_read then to_u64 (read_count stats + 1) else read_count stats) /\
     write_count stats' =
       (if is_read then write_count stats else to_u64 (write_count stats + 1)) /\
     slot (read_hist stats') slot_nr =
       (if is_read then to_u32 (slot (read_hist stats) slot_nr + 1)
        else slot (read_hist stats) slot_nr) /\
     slot (write_hist stats') slot_nr =
       (if is_read then slot (write_hist stats) slot_nr
        else to_u32 (slot (write_hist stats) slot_nr + 1))) /\
  trace_block_rq_complete again st2 = st2 /\
  (forall other,
     io_start_map st !! (dev other, sector other) = None ->
     trace_block_rq_complete other st = st).
Proof.
  intros key slot_nr is_read st1 st2 Hdone Hagain Hroom Hcpu Hrok Hwok.
  assert (Hst1 : io_start_map st1 !! key = Some (issue_ktime issue)).
  { unfold st1, trace_block_rq_issue. cbn [io_start_map]. fold key.
    now apply update_elem_stored. }
  assert (Hcpu1 : io_stats_map st1 !! complete_cpu done = Some stats) by exact Hcpu.
  destruct (complete_found done st1 (issue_ktime issue) stats) as
    (stats' & Hst2 & Hrh & Hwh & Hrc & Hwc & _);
    [now rewrite Hdone|exact Hcpu1|].
  fold st2 slot_nr is_read in Hst2, Hrh, Hwh, Hrc, Hwc.
  assert (Hgone : io_start_map st2 !! key = None).
  { rewrite Hst2. cbn [io_start_map]. rewrite Hdone. apply lookup_delete_eq. }
  split; [exact Hst1|]. split; [exact Hgone|]. split; [|split].
  - exists stats'. split; [now rewrite Hst2|]. split; [exact Hrc|]. split; [exact Hwc|].
    rewrite Hrh, Hwh.
    pose proof (slot_nr_range (complete_ktime done - issue_ktime issue)) as Hslot.
    fold slot_nr in Hslot.
    destruct is_read; split; trivial; now apply hist_incr_slot.
  - apply complete_missing. now rewrite Hagain.
  - intros other Hother. now apply complete_missing.
Qed.

Lemma block_request_round_trip_witness :
  let st2 := trace_block_rq_complete flush_complete issued_maps in
  io_start_map st2 !! (8, 2048) = None /\
  trace_block_rq_complete flush_complete st2 = st2.
Proof.
  destruct (block_request_round_trip
              {| io_start_map := ∅; io_stats_map := [zero_stats] |}
              {| issue_dev := 8; issue_sector := 2048; issue_ktime := 0 |}
              flush_complete flush_complete zero_stats eq_refl eq_refl)
    as (_ & Hgone & _ & Hagain & _).
  - right. vm_compute. lia.
  - reflexivity.
  - apply zero_hist_ok.
  - apply zero_hist_ok.
  - split; [exact Hgone|exact Hagain].
Defined.

(** *** Merging consistent shards *)

Lemma sum_of_cons f (x : io_stats) l : sum_of f (x :: l) = f x + sum_of f l.
Proof. reflexivity. Qed.

Lemma sum_of_le f g (l : list io_stats) :
  Forall (fun s => f s <= g s) l -> sum_of f l <= sum_of g l.
Proof.
  induction 1 as [|s l Hs _ IH]; [reflexivity|].
  rewrite (sum_of_cons f), (sum_of_cons g). lia.
Qed.

Lemma sum_of_nonneg f (l : list io_stats) :
  Forall (fun s => 0 <= f s) l -> 0 <= sum_of f l.
Proof.
  induction 1 as [|s l Hs _ IH]; [reflexivity|].
  rewrite (sum_of_cons f). lia.
Qed.

Lemma sum_fmap_add (f g : Z -> Z) (idx : list Z) :
  foldr Z.add 0 ((fun i => f i + g i) <$> idx) =
  foldr Z.add 0 (f <$> idx) + foldr Z.add 0 (g <$> idx).
Proof. induction idx as [|i idx IH]; cbn [fmap list_fmap foldr] in *; lia. Qed.

Lemma sum_fmap_zero (idx : list Z) : foldr Z.add 0 ((fun _ => 0) <$> idx) = 0.
Proof. induction idx as [|i idx IH]; cbn [fmap list_fmap foldr] in *; lia. Qed.

(** Summing over the slots and over the shards in either order. *)
Lemma sum_exchange (F : io_stats -> Z -> Z) (l : list io_stats) (idx : list Z) :
  foldr Z.add 0 ((fun i => sum_of (fun s => F s i) l) <$> idx) =
  sum_of (fun s => foldr Z.add 0 (F s <$> idx)) l.
Proof.
  induction l as [|x l IH].
  - apply sum_fmap_zero.
  - rewrite sum_of_cons, <- IH, <- sum_fmap_add. reflexivity.
Qed.

Lemma merged_hist_length (l : list io_stats) :
  length (slots (read_hist (fold_left merge_cpu l zero_stats))) = Z.to_nat MAX_SLOTS /\
  length (slots (write_hist (fold_left merge_cpu l zero_stats))) = Z.to_nat MAX_SLOTS.
Proof.
  induction l as [|x l _] using rev_ind; [now split|].
  rewrite fold_left_app. cbn [fold_left merge_cpu read_hist write_hist hist_add slots].
  rewrite !length_fmap, !length_seqZ. now split.
Qed.

(** The merge of one direction, as soon as the shards are consistent in
    that direction and their counts fit a slot. *)
Lemma merged_direction (hist_of : io_stats -> hist) (count_of : io_stats -> Z)
    (l : list io_stats) (h : hist) :
  Forall (fun s => direction_consistent (hist_of s) (count_of s)) l ->
  sum_of count_of l < 2 ^ 32 ->
  length (slots h) = Z.to_nat MAX_SLOTS ->
  (forall i, 0 <= i < MAX_SLOTS ->
             slot h i = to_u32 (sum_of (fun s => slot (hist_of s) i) l)) ->
  direction_consistent h (sum_of count_of l).
Proof.
  intros Hall Hfit Hlen Hslots.
  assert (Hslot_le : forall i, Forall (fun s => slot (hist_of s) i <= count_of s) l).
  { intros i. eapply Forall_impl; [exact Hall|]. cbn. intros s [Hok <-].
    apply (slot_below_total _ i Hok). }
  assert (Hslot_nn : forall i, Forall (fun s => 0 <= slot (hist_of s) i) l).
  { intros i. eapply Forall_impl; [exact Hall|]. cbn. intros s [Hok _].
    apply (slot_below_total _ i Hok). }
  assert (Hexact : forall i, 0 <= i < MAX_SLOTS ->
                             slot h i = sum_of (fun s => slot (hist_of s) i) l).
  { intros i Hi. rewrite (Hslots i Hi). apply to_u32_small.
    pose proof (sum_of_le _ _ _ (Hslot_le i)). pose proof (sum_of_nonneg _ _ (Hslot_nn i)).
    lia. }
  split; [split; [exact Hlen|]|].
  - rewrite <- (slots_by_index h Hlen). apply Forall_fmap, Forall_seqZ.
    intros i Hi. cbn. rewrite (Hslots i) by lia. apply to_u32_range.
  - unfold hist_total. rewrite <- (slots_by_index h Hlen).
    rewrite (by_slot (slot h) (fun i => sum_of (fun s => slot (hist_of s) i) l) Hexact).
    rewrite sum_exchange. unfold sum_of. f_equal.
    apply Forall_fmap_ext_1. eapply Forall_impl; [exact Hall|].
    cbn. intros s [[Hslen _] <-]. unfold hist_total. now rewrite slots_by_index.
Qed.

(** X8. Merging consistent shards gives consistent statistics, and the
    percentile walk over them never falls through.  When in every shard
    each histogram has counted as many events as its operation count
    says, and the operation counts of all shards together fit a 32-bit
    slot, then the merged histograms are histograms whose events add up
    to the merged operation counts, which are the plain sums over the
    shards; and for every finite percentile from 0 to 100 the target
    that [calculate_percentile] computes on the merged reads, in
    binary64, is at most the merged read count, and the function
    returns from inside its loop, at a slot whose cumulative count
    reaches the target. *)
Theorem merge_keeps_consistency (shards : list io_stats) (before : io_stats) :
  Forall (fun s => direction_consistent (read_hist s) (read_count s) /\
                   direction_consistent (write_hist s) (write_count s)) shards ->
  sum_of read_count shards < 2 ^ 32 ->
  sum_of write_count shards < 2 ^ 32 ->
  let merged := merge_stats true shards before in
  read_count merged = sum_of read_count shards /\
  write_count merged = sum_of write_count shards /\
  direction_consistent (read_hist merged) (read_count merged) /\
  direction_consistent (write_hist merged) (write_count merged) /\
  (forall (p : double) (vp : Q),
     0 < read_count merged ->
     double_value p = Some vp -> (0 <= vp <= 100 # 1)%Q ->
     exists target i,
       percentile_target (read_count merged) p = Some target /\
       0 <= target <= read_count merged /\
       0 <= i < MAX_SLOTS /\
       target <= cumulative_count (read_hist merged) i /\
       calculate_percentile_at (read_hist merged) (read_count merged) p =
         Some (ReturnInLoop i, bucket_midpoint i)).
Proof.
  intros Hall Hrfit Hwfit merged. unfold merged. rewrite merge_stats_loop.
  assert (Hr : Forall (fun s => direction_consistent (read_hist s) (read_count s)) shards).
  { eapply Forall_impl; [exact Hall|]. now intros s [? _]. }
  assert (Hw : Forall (fun s => direction_consistent (write_hist s) (write_count s)) shards).
  { eapply Forall_impl; [exact Hall|]. now intros s [_ ?]. }
  assert (Hnn : forall (hist_of : io_stats -> hist) count_of,
            Forall (fun s => direction_consistent (hist_of s) (count_of s)) shards ->
            0 <= sum_of count_of shards).
  { intros hist_of count_of Hc. apply sum_of_nonneg.
    eapply Forall_impl; [exact Hc|]. cbn. intros s [Hok <-].
    pose proof (hist_total_bound _ Hok). lia. }
  pose proof (Hnn _ _ Hr) as Hrnn. pose proof (Hnn _ _ Hw) as Hwnn.
  assert (Hrc : read_count (fold_left merge_cpu shards zero_stats) =
                sum_of read_count shards).
  { rewrite (merged_counter read_count (2 ^ 64)) by (trivial; lia).
    apply Z.mod_small. lia. }
  assert (Hwc : write_count (fold_left merge_cpu shards zero_stats) =
                sum_of write_count shards).
  { rewrite (merged_counter write_count (2 ^ 64)) by (trivial; lia).
    apply Z.mod_small. lia. }
  destruct (merged_hist_length shards) as [Hrlen Hwlen].
  assert (Hrd : direction_consistent (read_hist (fold_left merge_cpu shards zero_stats))
                  (sum_of read_count shards)).
  { apply (merged_direction read_hist read_count shards); trivial.
    intros i Hi.
    apply (merged_counter (fun s => slot (read_hist s) i) (2 ^ 32)); [lia| |].
    - apply zero_slot.
    - intros m c. now apply slot_hist_add. }
  assert (Hwd : direction_consistent (write_hist (fold_left merge_cpu shards zero_stats))
                  (sum_of write_count shards)).
  { apply (merged_direction write_hist write_count shards); trivial.
    intros i Hi.
    apply (merged_counter (fun s => slot (write_hist s) i) (2 ^ 32)); [lia| |].
    - apply zero_slot.
    - intros m c. now apply slot_hist_add. }
  rewrite Hrc, Hwc.
  split; [reflexivity|]. split; [reflexivity|]. split; [exact Hrd|]. split; [exact Hwd|].
  intros p vp Hactive Hp Hvp. destruct Hrd as [Hok Htotal].
  destruct (percentile_target_le_total (sum_of read_count shards) p vp)
    as (t & Ht & Htr); trivial; [lia|].
  destruct (percentile_loop_found _ t Hok ltac:(lia)) as (i & Hi & Hloop & Hreach & _).
  exists t, i. split; [exact Ht|]. split; [exact Htr|]. split; [exact Hi|].
  split; [exact Hreach|].
  unfold calculate_percentile_at.
  assert (Hnz : (sum_of read_count shards =? 0) = false) by (apply Z.eqb_neq; lia).
  rewrite Hnz, Ht. cbn [mbind option_bind]. now rewrite Hloop.
Qed.

Lemma reads_in_slot_10_consistent n :
  0 <= n < 2 ^ 32 ->
  direction_consistent (read_hist (reads_in_slot_10 n)) (read_count (reads_in_slot_10 n)) /\
  direction_consistent (write_hist (reads_in_slot_10 n)) (write_count (reads_in_slot_10 n)).
Proof.
  intros Hn. cbn [reads_in_slot_10 read_hist write_hist read_count write_count].
  split; (split; [try apply zero_hist_ok; try (apply single_slot_ok; lia)|]).
  - unfold hist_total, single_slot. cbn [slots].
    rewrite (sum_insert _ _ _ 0) by reflexivity.
    change (foldr Z.add 0 (replicate (Z.to_nat MAX_SLOTS) 0)) with 0. lia.
  - reflexivity.
Qed.

Lemma merge_keeps_consistency_witness :
  let merged :=
    merge_stats true [reads_in_slot_10 3; reads_in_slot_10 5; reads_in_slot_10 2]
      zero_stats in
  hist_total (read_hist merged) = read_count merged /\ read_count merged = 10.
Proof.
  destruct (merge_keeps_consistency
              [reads_in_slot_10 3; reads_in_slot_10 5; reads_in_slot_10 2] zero_stats)
    as (Hcount & _ & [_ Htotal] & _).
  - do 3 (constructor; [apply reads_in_slot_10_consistent; lia|]). constructor.
  - vm_compute. reflexivity.
  - vm_compute. reflexivity.
  - split; [exact Htotal|exact Hcount].
Defined.

(** *** Flushing twice *)

Lemma merge_zero_shards (n : nat) :
  fold_left merge_cpu (replicate n zero_stats) zero_stats = zero_stats.
Proof.
  induction n as [|n IH]; [reflexivity|].
  cbn [replicate fold_left].
  assert (Hstep : merge_cpu zero_stats zero_stats = zero_stats) by reflexivity.
  now rewrite Hstep.
Qed.

(** X9. A flush leaves nothing to flush.  When [clear_stats] gets its
    scratch buffer, a turn of the consumer loop ends with every shard
    zeroed; and a second turn over these shards, with no I/O in between
    and with the scratch buffer of [merge_stats] allocated, merges to
    zero, writes no line and leaves the shards zeroed: no event is
    reported twice.  (Without the buffer of [clear_stats] the shards are
    left as they are, see [main_iteration_flush].) *)
Theorem main_iteration_twice (env env' : iteration_env) (io_stats_map : list io_stats) :
  0 <= read_count (merged_before env) < 2 ^ 64 ->
  0 <= write_count (merged_before env) < 2 ^ 64 ->
  clear_calloc_ok env = true ->
  merge_calloc_ok env' = true ->
  exists out,
    main_iteration env io_stats_map =
      Some (out, replicate (length io_stats_map) zero_stats) /\
    merge_stats (merge_calloc_ok env') (replicate (length io_stats_map) zero_stats)
      (merged_before env') = zero_stats /\
    main_iteration env' (replicate (length io_stats_map) zero_stats) =
      Some ([], replicate (length io_stats_map) zero_stats).
Proof.
  intros Hrb Hwb Hclear Hmerge'.
  assert (Hzero : forall n,
            merge_stats (merge_calloc_ok env') (replicate n zero_stats) (merged_before env') =
              zero_stats).
  { intros n. rewrite Hmerge', merge_stats_loop. apply merge_zero_shards. }
  assert (Hsecond : forall n,
            main_iteration env' (replicate n zero_stats) =
              Some ([], replicate n zero_stats)).
  { intros n. unfold main_iteration. rewrite Hzero.
    cbn [zero_stats read_count write_count Z.ltb Z.compare orb mbind option_bind].
    unfold clear_stats, percpu_write. cbn [Z.ltb Z.compare].
    destruct (clear_calloc_ok env'); cbn [negb]; [|reflexivity].
    now rewrite length_replicate. }
  destruct (merged_counts_u64 (merge_calloc_ok env) io_stats_map (merged_before env) Hrb Hwb)
    as [Hr Hw].
  unfold main_iteration.
  assert (Hcleared : clear_stats (clear_calloc_ok env) io_stats_map =
                     replicate (length io_stats_map) zero_stats).
  { rewrite Hclear. reflexivity. }
  rewrite Hcleared.
  destruct ((0 <? read_count _) || (0 <? write_count _)).
  - destruct (print_stats_line _ (to_u64 (time_now env * 1000000000)) Hr Hw)
      as (line & Hline & _).
    exists [line]. rewrite Hline. split; [reflexivity|].
    split; [apply Hzero|apply Hsecond].
  - exists []. split; [reflexivity|].
    split; [apply Hzero|apply Hsecond].
Qed.

Lemma main_iteration_twice_witness :
  exists out,
    main_iteration (env_at 1700000000 zero_stats) [reads_in_slot_10 3; zero_stats] =
      Some (out, [zero_stats; zero_stats]) /\
    main_iteration (env_at 1700000001 zero_stats) [zero_stats; zero_stats] =
      Some ([], [zero_stats; zero_stats]).
Proof.
  destruct (main_iteration_twice (env_at 1700000000 zero_stats)
              (env_at 1700000001 zero_stats) [reads_in_slot_10 3; zero_stats])
    as (out & Hfirst & _ & Hsecond).
  - vm_compute. split; [discriminate|reflexivity].
  - vm_compute. split; [discriminate|reflexivity].
  - reflexivity.
  - reflexivity.
  - exists out. split; [exact Hfirst|exact Hsecond].
Defined.

End BlockTracerFacts.

(** ** Bounded maps *)

Section HashMapBounds.
Context {K : Type} `{Countable K} {V : Type}.
Implicit Types (m : gmap K V) (k : K) (v : V).

(** An update never takes a map beyond its capacity, and never removes
    a key. *)
Lemma update_elem_size n m k v :
  (size m <= n)%nat -> (size (bpf_map_update_elem n m k v) <= n)%nat.
Proof.
  intros Hsize. unfold bpf_map_update_elem.
  destruct (m !! k) eqn:Hk.
  - erewrite map_size_insert_Some by eauto. exact Hsize.
  - destruct (decide (size m < n)%nat); [|exact Hsize].
    rewrite map_size_insert_None by trivial. lia.
Qed.

Lemma update_elem_keeps n m k v k' x :
  m !! k' = Some x -> is_Some (bpf_map_update_elem n m k v !! k').
Proof.
  intros Hk'. destruct (decide (k = k')) as [<-|Hne].
  - rewrite update_elem_stored; eauto.
  - rewrite update_elem_other by trivial. eauto.
Qed.

Lemma delete_size n m k : (size m <= n)%nat -> (size (delete k m) <= n)%nat.
Proof.
  intros Hsize. rewrite map_size_delete. destruct (m !! k); cbn; lia.
Qed.

(** On a full map an update of an absent key does nothing. *)
Lemma update_elem_full n m k v :
  (n <= size m)%nat -> m !! k = None -> bpf_map_update_elem n m k v = m.
Proof.
  intros Hfull Hk. unfold bpf_map_update_elem. rewrite Hk.
  destruct (decide (size m < n)%nat); [lia|reflexivity].
Qed.
End HashMapBounds.

(** ** Runs of the syscall tracer *)

Module SyscallRunFacts.
Import SyscallTracer SyscallRun SyscallTracerSpec.

Lemma syscall_run_snoc fs f : syscall_run (fs ++ [f]) = syscall_fire (syscall_run fs) f.
Proof. unfold syscall_run. now rewrite fold_left_app. Qed.

(** X10. Along every run of the two syscall tracepoints from empty maps,
    the tracker never holds more than its 8192 entries; every record in
    it is kept under a thread id and is the timestamp and first argument
    of an entry of that thread in the run; and every event in the ring
    buffer has a latency of at least 10 ms, has [is_error] 1 for a
    negative return value and 0 otherwise, and carries the first
    argument of an entry of its own thread in the run, its latency being
    counted from that entry. *)
Theorem syscall_run_invariant (fs : list syscall_firing) :
  let st := syscall_run fs in
  (size (syscall_start st) <= syscall_start_max_entries)%nat /\
  (forall k e,
     syscall_start st !! k = Some e ->
     exists en, SysEnter en ∈ fs /\ to_u32 (enter_pid_tgid en) = k /\
                entry_timestamp e = enter_ktime en /\ entry_arg0 e = enter_args0 en) /\
  (forall ev,
     ev ∈ events st ->
     LATENCY_THRESHOLD_NS <= latency_ns ev /\
     (is_error ev = 1 /\ ret_value ev < 0 \/ is_error ev = 0 /\ 0 <= ret_value ev) /\
     exists en, SysEnter en ∈ fs /\ to_u32 (enter_pid_tgid en) = tid ev /\
                arg0 ev = enter_args0 en /\
                latency_ns ev = to_u64 (timestamp ev - enter_ktime en)).
Proof.
  induction fs as [|f fs IH] using rev_ind; cbv zeta.
  - cbn. split; [rewrite map_size_empty; lia|]. split.
    + intros k e He. rewrite lookup_empty in He. discriminate.
    + intros ev Hev. now apply not_elem_of_nil in Hev.
  - cbv zeta in IH. destruct IH as (Hsize & Hmap & Hev).
    rewrite syscall_run_snoc. set (st := syscall_run fs) in *.
    assert (Hmap' : forall k e, syscall_start st !! k = Some e ->
              exists en, SysEnter en ∈ fs ++ [f] /\ to_u32 (enter_pid_tgid en) = k /\
                entry_timestamp e = enter_ktime en /\ entry_arg0 e = enter_args0 en).
    { intros k e He. destruct (Hmap k e He) as (en & Hin & Hrest).
      exists en. split; [apply elem_of_app; now left|exact Hrest]. }
    assert (Hev' : forall ev, ev ∈ events st ->
              LATENCY_THRESHOLD_NS <= latency_ns ev /\
              (is_error ev = 1 /\ ret_value ev < 0 \/ is_error ev = 0 /\ 0 <= ret_value ev) /\
              exists en, SysEnter en ∈ fs ++ [f] /\ to_u32 (enter_pid_tgid en) = tid ev /\
                arg0 ev = enter_args0 en /\
                latency_ns ev = to_u64 (timestamp ev - enter_ktime en)).
    { intros ev Hin. destruct (Hev ev Hin) as (Hlat & Herr & en & Hen & Hrest).
      repeat split; trivial. exists en. split; [apply elem_of_app; now left|exact Hrest]. }
    destruct f as [en|ex]; cbn [syscall_fire].
    + unfold trace_syscall_enter. cbn [syscall_start events].
      split; [now apply update_elem_size|]. split; [|exact Hev'].
      intros k e He. apply update_elem_lookup in He as [[<- ->]|He]; [|now apply Hmap'].
      exists en. split; [apply elem_of_app; right; apply list_elem_of_here|].
      now repeat split.
    + destruct (syscall_start st !! to_u32 (exit_pid_tgid ex)) as [e|] eqn:He;
        [|rewrite exit_miss by trivial; split; [exact Hsize|split; [exact Hmap'|exact Hev']]].
      rewrite (exit_deletes ex st e He).
      pose proof (exit_events ex st e He) as Hout. cbv zeta in Hout. rewrite Hout.
      split; [now apply delete_size|]. split.
      * intros k e' He'. apply lookup_delete_Some in He' as [_ He']. now apply Hmap'.
      * intros ev Hin.
        destruct (Z.ltb_spec (to_u64 (exit_ktime ex - entry_timestamp e))
                    LATENCY_THRESHOLD_NS) as [Hlt|Hge];
          cbn [orb] in Hin; [now apply Hev'|].
        destruct (exit_reserve_ok ex); cbn [negb] in Hin; [|now apply Hev'].
        apply elem_of_app in Hin as [Hin|Hin]; [now apply Hev'|].
        apply list_elem_of_singleton in Hin as ->.
        cbn [latency_ns is_error ret_value tid arg0 timestamp].
        destruct (Hmap' _ e He) as (en & Hen & Htid & Hts & Harg).
        split; [exact Hge|]. split.
        -- destruct (Z.ltb_spec (exit_ret ex) 0); [left|right]; split; trivial; lia.
        -- exists en. rewrite <- Hts, <- Harg. now repeat split.
Qed.

Lemma syscall_run_invariant_witness :
  exists ev,
    events (syscall_run [SysEnter enter_sample; SysExit (exit_sample 11000000 (-1) true)]) =
      [ev] /\
    LATENCY_THRESHOLD_NS <= latency_ns ev.
Proof.
  destruct (syscall_run_invariant
              [SysEnter enter_sample; SysExit (exit_sample 11000000 (-1) true)])
    as (_ & _ & Hev).
  eexists. split; [reflexivity|].
  apply Hev. cbn. apply list_elem_of_here.
Defined.

End SyscallRunFacts.

(** ** page_fault_tracer.bpf.c *)

Module PageFaultFacts.
Import PageFaultTracer.

(** Masking with one bit tests that bit. *)
Lemma land_bit a n :
  0 <= n -> (Z.land a (2 ^ n) =? 0) = negb (Z.testbit a n).
Proof.
  intros Hn.
  assert (Hland : Z.land a (2 ^ n) = if Z.testbit a n then 2 ^ n else 0).
  { apply Z.bits_inj'. intros m Hm. rewrite Z.land_spec, Z.pow2_bits_eqb by trivial.
    destruct (Z.eqb_spec n m) as [<-|Hne].
    - destruct (Z.testbit a n); [now rewrite Z.pow2_bits_true|now rewrite Z.bits_0].
    - rewrite andb_false_r.
      destruct (Z.testbit a n); [now rewrite Z.pow2_bits_false|now rewrite Z.bits_0]. }
  rewrite Hland. destruct (Z.testbit a n); cbn [negb]; [|reflexivity].
  apply Z.eqb_neq. assert (0 < 2 ^ n) by (apply Z.pow_pos_nonneg; lia). lia.
Qed.

Lemma fault_exit_missing ctx st :
  fault_start st !! to_u32 (return_pid_tgid ctx) = None ->
  trace_mm_fault_exit ctx st = st.
Proof.
  intros Hnone. unfold trace_mm_fault_exit, bpf_map_lookup_elem. now rewrite Hnone.
Qed.

(** [trace_mm_fault_exit] when the entry is there, written out. *)
Lemma fault_exit_found ctx st entry :
  fault_start st !! to_u32 (return_pid_tgid ctx) = Some entry ->
  trace_mm_fault_exit ctx st =
    {| fault_start := delete (to_u32 (return_pid_tgid ctx)) (fault_start st);
       fault_events :=
         if return_reserve_ok ctx then
           fault_events st ++
           [ {| event_timestamp := timestamp entry;
                event_pid := pid entry;
                event_tid := tid entry;
                event_address := address entry;
                event_latency_ns := to_u64 (return_ktime ctx - timestamp entry);
                event_cpu := cpu entry;
                is_major := if Z.testbit (retval ctx) 2 then 1 else 0;
                event_is_write := is_write entry;
                event_is_kernel := is_kernel entry;
                is_instruction := 0;
                event_comm := comm entry |} ]
         else fault_events st |}.
Proof.
  intros Hentry. unfold trace_mm_fault_exit, bpf_map_lookup_elem, bpf_map_delete_elem.
  rewrite Hentry. unfold VM_FAULT_MAJOR. change 4 with (2 ^ 2).
  rewrite land_bit by lia.
  destruct (return_reserve_ok ctx); cbn [negb]; [|reflexivity].
  destruct (Z.testbit (retval ctx) 2); reflexivity.
Qed.

(** X11. Round trip of a page fault.  Once the entry probe has stored the
    fault of a thread (replacing an older one of the same thread; a new
    thread needs a free entry), the return probe of that thread removes
    the record and, if the ring buffer has room, submits exactly one
    event, whatever the latency: it carries the time, address, process,
    thread, CPU and name seen at the entry, the latency from the entry
    to the return, [is_write] and [is_kernel] as decoded from bit 0 and
    bit 2 of the entry's flags, [is_major] from bit 2 of the return
    value, and [is_instruction] 0.  Without room nothing is submitted
    and the record is removed all the same.  A second return of the
    thread changes nothing. *)
Theorem page_fault_round_trip
    (st : fault_maps) (call : mm_fault_call) (ret again : mm_fault_return) :
  let k := to_u32 (call_pid_tgid call) in
  let st1 := trace_mm_fault_entry call st in
  let st2 := trace_mm_fault_exit ret st1 in
  to_u32 (return_pid_tgid ret) = k ->
  to_u32 (return_pid_tgid again) = k ->
  is_Some (fault_start st !! k) \/
    (size (fault_start st) < fault_start_max_entries)%nat ->
  fault_start st2 !! k = None /\
  fault_events st2 =
    (if return_reserve_ok ret then
       fault_events st ++
       [ {| event_timestamp := call_ktime call;
            event_pid := to_u32 (Z.shiftr (call_pid_tgid call) 32);
            event_tid := k;
            event_address := call_address call;
            event_latency_ns := to_u64 (return_ktime ret - call_ktime call);
            event_cpu := call_cpu call;
            is_major := if Z.testbit (retval ret) 2 then 1 else 0;
            event_is_write := if Z.testbit (call_flags call) 0 then 1 else 0;
            event_is_kernel := if Z.testbit (call_flags call) 2 then 0 else 1;
            is_instruction := 0;
            event_comm := call_comm call |} ]
     else fault_events st) /\
  trace_mm_fault_exit again st2 = st2.
Proof.
  intros k st1 st2 Hret Hagain Hroom.
  assert (Hst1 : fault_start st1 !! to_u32 (return_pid_tgid ret) =
                 Some {| timestamp := call_ktime call;
                         address := call_address call;
                         pid := to_u32 (Z.shiftr (call_pid_tgid call) 32);
                         tid := k;
                         cpu := call_cpu call;
                         is_write := if Z.testbit (call_flags call) 0 then 1 else 0;
                         is_kernel := if Z.testbit (call_flags call) 2 then 0 else 1;
                         comm := call_comm call |}).
  { rewrite Hret. unfold st1, trace_mm_fault_entry. cbn [fault_start]. fold k.
    rewrite update_elem_stored by trivial. f_equal.
    change 1 with (2 ^ 0) at 1. change 4 with (2 ^ 2).
    rewrite !land_bit by lia.
    destruct (Z.testbit (call_flags call) 0), (Z.testbit (call_flags call) 2);
      reflexivity. }
  unfold st2. rewrite (fault_exit_found ret st1 _ Hst1).
  cbn [fault_start fault_events timestamp address pid tid cpu is_write is_kernel comm].
  assert (Hgone : delete (to_u32 (return_pid_tgid ret)) (fault_start st1) !! k = None).
  { rewrite Hret. apply lookup_delete_eq. }
  split; [exact Hgone|]. split; [reflexivity|].
  apply fault_exit_missing. cbn [fault_start]. now rewrite Hagain.
Qed.

Lemma page_fault_round_trip_witness :
  let st2 := trace_mm_fault_exit fault_return_sample
               (trace_mm_fault_entry fault_call_sample
                  {| fault_start := ∅; fault_events := [] |}) in
  fault_start st2 !! 7 = None /\
  (exists ev, fault_events st2 = [ev] /\ event_latency_ns ev = 250 /\
              is_major ev = 1 /\ event_is_write ev = 1 /\ event_is_kernel ev = 0).
Proof.
  destruct (page_fault_round_trip {| fault_start := ∅; fault_events := [] |}
              fault_call_sample fault_return_sample fault_return_sample eq_refl eq_refl)
    as (Hgone & Hev & _).
  - right. vm_compute. lia.
  - split; [exact Hgone|]. eexists. split; [exact Hev|]. repeat split.
Defined.

Lemma fault_run_snoc fs f : fault_run (fs ++ [f]) = fault_fire (fault_run fs) f.
Proof. unfold fault_run. now rewrite fold_left_app. Qed.

(** X12. Along every run of the two page-fault probes from empty maps,
    the tracker never holds more than its 8192 entries, every record is
    kept under its own thread id, and every submitted event has
    [is_instruction] 0, flags that are 0 or 1, and the time and address
    of an entry of its own thread in the run. *)
Theorem fault_run_invariant (fs : list fault_firing) :
  let st := fault_run fs in
  (size (fault_start st) <= fault_start_max_entries)%nat /\
  (forall k e,
     fault_start st !! k = Some e ->
     tid e = k /\ 0 <= is_write e <= 1 /\ 0 <= is_kernel e <= 1 /\
     exists call, FaultCall call ∈ fs /\ to_u32 (call_pid_tgid call) = k /\
                  timestamp e = call_ktime call /\ address e = call_address call) /\
  (forall ev,
     ev ∈ fault_events st ->
     is_instruction ev = 0 /\
     0 <= is_major ev <= 1 /\ 0 <= event_is_write ev <= 1 /\
     0 <= event_is_kernel ev <= 1 /\
     exists call, FaultCall call ∈ fs /\ to_u32 (call_pid_tgid call) = event_tid ev /\
                  event_timestamp ev = call_ktime call /\
                  event_address ev = call_address call).
Proof.
  induction fs as [|f fs IH] using rev_ind; cbv zeta.
  - cbn. split; [rewrite map_size_empty; lia|]. split.
    + intros k e He. rewrite lookup_empty in He. discriminate.
    + intros ev Hev. now apply not_elem_of_nil in Hev.
  - cbv zeta in IH. destruct IH as (Hsize & Hmap & Hev).
    rewrite fault_run_snoc. set (st := fault_run fs) in *.
    assert (Hmap' : forall k e, fault_start st !! k = Some e ->
              tid e = k /\ 0 <= is_write e <= 1 /\ 0 <= is_kernel e <= 1 /\
              exists call, FaultCall call ∈ fs ++ [f] /\ to_u32 (call_pid_tgid call) = k /\
                timestamp e = call_ktime call /\ address e = call_address call).
    { intros k e He. destruct (Hmap k e He) as (Htid & Hw & Hk & call & Hin & Hrest).
      repeat split; trivial; try lia.
      exists call. split; [apply elem_of_app; now left|exact Hrest]. }
    assert (Hev' : forall ev, ev ∈ fault_events st ->
              is_instruction ev = 0 /\
              0 <= is_major ev <= 1 /\ 0 <= event_is_write ev <= 1 /\
              0 <= event_is_kernel ev <= 1 /\
              exists call, FaultCall call ∈ fs ++ [f] /\
                to_u32 (call_pid_tgid call) = event_tid ev /\
                event_timestamp ev = call_ktime call /\
                event_address ev = call_address call).
    { intros ev Hin. destruct (Hev ev Hin) as (Hi & Hm & Hw & Hk & call & Hcall & Hrest).
      repeat split; trivial; try lia.
      exists call. split; [apply elem_of_app; now left|exact Hrest]. }
    destruct f as [call|ret]; cbn [fault_fire].
    + unfold trace_mm_fault_entry. cbn [fault_start fault_events].
      split; [now apply update_elem_size|]. split; [|exact Hev'].
      intros k e He. apply update_elem_lookup in He as [[<- ->]|He]; [|now apply Hmap'].
      cbn [tid is_write is_kernel timestamp address].
      split; [reflexivity|].
      split; [destruct (_ =? 0); lia|]. split; [destruct (_ =? 0); lia|].
      exists call. split; [apply elem_of_app; right; apply list_elem_of_here|].
      now repeat split.
    + destruct (fault_start st !! to_u32 (return_pid_tgid ret)) as [e|] eqn:He;
        [|rewrite fault_exit_missing by trivial;
          split; [exact Hsize|split; [exact Hmap'|exact Hev']]].
      rewrite (fault_exit_found ret st e He). cbn [fault_start fault_events].
      split; [now apply delete_size|]. split.
      * intros k e' He'. apply lookup_delete_Some in He' as [_ He']. now apply Hmap'.
      * intros ev Hin.
        destruct (return_reserve_ok ret); [|now apply Hev'].
        apply elem_of_app in Hin as [Hin|Hin]; [now apply Hev'|].
        apply list_elem_of_singleton in Hin as ->.
        cbn [is_instruction is_major event_is_write event_is_kernel event_tid
             event_timestamp event_address].
        destruct (Hmap' _ e He) as (Htid & Hw & Hk & call & Hcall & Hkey & Hts & Haddr).
        split; [reflexivity|]. split; [destruct (Z.testbit _ _); lia|].
        split; [exact Hw|]. split; [exact Hk|].
        exists call. rewrite Htid, Hts, Haddr. now repeat split.
Qed.

Lemma fault_run_invariant_witness :
  exists ev,
    fault_events (fault_run [FaultCall fault_call_sample; FaultReturn fault_return_sample]) =
      [ev] /\
    is_instruction ev = 0.
Proof.
  destruct (fault_run_invariant
              [FaultCall fault_call_sample; FaultReturn fault_return_sample])
    as (_ & _ & Hev).
  eexists. split; [reflexivity|].
  apply Hev. cbn. apply list_elem_of_here.
Defined.

End PageFaultFacts.

(** ** Capacity and domain of a bounded map *)

Section HashMapDomain.
Context {K : Type} `{Countable K} {V : Type}.
Implicit Types (m : gmap K V) (k : K) (v : V).

Lemma update_elem_size_le n m k v :
  (size (bpf_map_update_elem n m k v) <= S (size m))%nat.
Proof.
  destruct (update_elem_cases n m k v) as [-> | [-> _]]; [|lia].
  destruct (m !! k) eqn:Hk.
  - erewrite map_size_insert_Some by eauto. lia.
  - rewrite map_size_insert_None by trivial. lia.
Qed.

Lemma update_elem_room n m k v :
  (size m < n)%nat -> bpf_map_update_elem n m k v = <[k := v]> m.
Proof.
  intros Hroom. destruct (update_elem_cases n m k v) as [-> | (_ & _ & Hfull)]; [easy|lia].
Qed.

(** Overwriting a key that is there changes neither the size nor the
    domain. *)
Lemma insert_existing_domain m k v x :
  m !! k = Some x ->
  size (<[k := v]> m) = size m /\
  forall q, <[k := v]> m !! q = None <-> m !! q = None.
Proof.
  intros Hk. split; [now erewrite map_size_insert_Some by eauto|].
  intros q. rewrite lookup_insert_None. split; [now intros [? _]|].
  intros Hq. split; [exact Hq|]. intros ->. congruence.
Qed.

(** On a full map an update changes neither the size nor the domain. *)
Lemma update_elem_full_domain n m k v :
  (n <= size m)%nat ->
  size (bpf_map_update_elem n m k v) = size m /\
  forall q, bpf_map_update_elem n m k v !! q = None <-> m !! q = None.
Proof.
  intros Hfull. unfold bpf_map_update_elem.
  destruct (m !! k) as [x|] eqn:Hk; [now apply (insert_existing_domain m k v x)|].
  destruct (decide (size m < n)%nat); [lia|]. now split.
Qed.
End HashMapDomain.

(** ** Runs of the scheduler tracer *)

Module SchedRunFacts.
Import SchedTracer SchedRun SchedTracerSpec.

Lemma update_bucket_size p w ct vol wk cm buckets :
  (size buckets <= map_max_entries)%nat ->
  (size (update_bucket_stats p w ct vol wk cm buckets) <= map_max_entries)%nat.
Proof.
  intros Hsize. unfold update_bucket_stats, bpf_map_lookup_elem.
  destruct (buckets !! (p, w)) eqn:Hb; [|now apply update_elem_size].
  now erewrite map_size_insert_Some by eauto.
Qed.

(** A bucket is stored under its own task and window, and never for the
    idle task. *)
Lemma update_bucket_keys p w ct vol wk cm buckets :
  p <> 0 ->
  (forall k b, buckets !! k = Some b -> pid b = k.1 /\ time_bucket b = k.2 /\ k.1 <> 0) ->
  forall k b, update_bucket_stats p w ct vol wk cm buckets !! k = Some b ->
              pid b = k.1 /\ time_bucket b = k.2 /\ k.1 <> 0.
Proof.
  intros Hp Hkeys k b Hb. destruct (decide (k = (p, w))) as [->|Hne].
  - apply update_bucket_same in Hb as [(old & Hold & ->)|(_ & ->)].
    + destruct (updated_stats_key old ct vol wk) as [-> ->]. now apply Hkeys.
    + now cbn.
  - rewrite update_bucket_other in Hb by trivial. now apply Hkeys.
Qed.

Lemma switch_in_idle ctx st :
  ~ 0 < to_u32 (next_pid ctx) -> switch_in ctx st = st.
Proof.
  intros He. unfold switch_in.
  destruct (Z.ltb_spec 0 (to_u32 (next_pid ctx))); [contradiction|reflexivity].
Qed.

(** The state map after [switch_in], for an incoming task other than the
    idle task. *)
Lemma switch_in_states ctx st :
  let e := to_u32 (next_pid ctx) in
  0 < e ->
  process_state_map (switch_in ctx st) =
    match process_state_map st !! e with
    | Some s =>
        <[e := {| last_switch_ts := switch_ktime ctx; last_bucket := last_bucket s;
                  state_comm := state_comm s |}]> (process_state_map st)
    | None =>
        bpf_map_update_elem map_max_entries (process_state_map st) e
          {| last_switch_ts := switch_ktime ctx;
             last_bucket := switch_ktime ctx / NSEC_PER_SEC;
             state_comm := next_comm ctx |}
    end.
Proof.
  intros e He. unfold switch_in. fold e. apply Z.ltb_lt in He. rewrite He.
  unfold bpf_map_lookup_elem. now destruct (process_state_map st !! e).
Qed.

Lemma switch_of_mono fs g p w : switch_of fs p w -> switch_of (fs ++ [g]) p w.
Proof.
  intros (ctx & Hin & Hrest). exists ctx. split; [|exact Hrest].
  apply elem_of_app. now left.
Qed.

Lemma sched_maps_ok_mono fs g st : sched_maps_ok fs st -> sched_maps_ok (fs ++ [g]) st.
Proof.
  intros (Hps & Hbs & Hst & Hbk & Hev).
  refine (conj Hps (conj Hbs (conj _ (conj Hbk _)))).
  - intros p s Hs. destruct (Hst p s Hs) as [Hp Hsw].
    split; [exact Hp|now apply switch_of_mono].
  - intros b Hb. destruct (Hev b Hb) as (Hp & Hw & Hsw).
    split; [exact Hp|]. split; [exact Hw|now apply switch_of_mono].
Qed.

Lemma switch_out_ok fs ctx st :
  SchedSwitch ctx ∈ fs -> sched_maps_ok fs st -> sched_maps_ok fs (switch_out ctx st).
Proof.
  intros Hin Hok.
  destruct (Z.lt_ge_cases 0 (to_u32 (prev_pid ctx))) as [He|He];
    [|now rewrite switch_out_idle by lia].
  destruct Hok as (Hps & Hbs & Hst & Hbk & Hev).
  destruct (switch_out_cases ctx st He) as (psm & buckets & ring & ct & -> & Hcase).
  set (e := to_u32 (prev_pid ctx)) in *. set (w := switch_ktime ctx / NSEC_PER_SEC) in *.
  assert (Hself : switch_of fs e w) by (exists ctx; auto).
  assert (Hrange : 0 < e < 2 ^ 32) by (pose proof (to_u32_range (prev_pid ctx)); lia).
  assert (Hparts :
    ((size psm <= map_max_entries)%nat /\
     forall p s, psm !! p = Some s -> 0 < p < 2 ^ 32 /\ switch_of fs p (last_bucket s)) /\
    ((size buckets <= map_max_entries)%nat /\
     forall k b, buckets !! k = Some b -> bucket_aggregates st !! k = Some b) /\
    (forall b, b ∈ ring ->
       b ∈ events st \/
       exists s, process_state_map st !! e = Some s /\ last_bucket s <> 0 /\
                 bucket_aggregates st !! (e, last_bucket s) = Some b)).
  { destruct (process_state_map st !! e) as [s|] eqn:Hs.
    - destruct Hcase as [-> Hcase].
      split.
      { split; [now erewrite map_size_insert_Some by eauto|].
        intros p s' Hs'. apply lookup_insert_Some in Hs' as [[<- <-]|[_ Hs']];
          [now split|now apply Hst]. }
      destruct (bucket_aggregates st !! (e, last_bucket s)) as [old|] eqn:Hold;
        [destruct (decide _) as [[H0 Hw]|_]|]; destruct Hcase as [-> ->];
        try (split; [now split|now left]).
      split.
      + split; [now apply delete_size|].
        intros k b Hb. now apply lookup_delete_Some in Hb as [_ Hb].
      + intros b Hb. destruct (switch_reserve_ok ctx); [|now left].
        apply elem_of_app in Hb as [Hb|Hb]; [now left|].
        apply list_elem_of_singleton in Hb as ->. right. now exists s.
    - destruct Hcase as (-> & -> & ->). split; [|split; [now split|now left]].
      split; [now apply update_elem_size|].
      intros p s' Hs'. apply update_elem_lookup in Hs' as [[<- ->]|Hs'];
        [now split|now apply Hst]. }
  destruct Hparts as ((Hps' & Hst') & (Hbs' & Hsub) & Hring).
  refine (conj Hps' (conj _ (conj Hst' (conj _ _)))); cbn [bucket_aggregates events].
  - now apply update_bucket_size.
  - apply update_bucket_keys; [lia|]. intros k b Hb. apply Hbk. now apply Hsub.
  - intros b Hb. destruct (Hring b Hb) as [Hold|(s & Hs & H0 & Hold)]; [now apply Hev|].
    destruct (Hbk _ _ Hold) as (Hp & Hw & _). cbn [fst snd] in Hp, Hw.
    rewrite Hp, Hw. split; [exact Hrange|]. split; [exact H0|].
    now apply (Hst e s).
Qed.

Lemma switch_in_ok fs ctx st :
  SchedSwitch ctx ∈ fs -> sched_maps_ok fs st -> sched_maps_ok fs (switch_in ctx st).
Proof.
  intros Hin Hok.
  destruct (Z.lt_ge_cases 0 (to_u32 (next_pid ctx))) as [He|He];
    [|now rewrite switch_in_idle by lia].
  destruct Hok as (Hps & Hbs & Hst & Hbk & Hev).
  unfold sched_maps_ok. rewrite switch_in_buckets, switch_in_events, switch_in_states by trivial.
  set (e := to_u32 (next_pid ctx)) in *.
  assert (Hself : switch_of fs e (switch_ktime ctx / NSEC_PER_SEC)) by (exists ctx; auto).
  assert (Hrange : 0 < e < 2 ^ 32) by (pose proof (to_u32_range (next_pid ctx)); lia).
  refine (conj _ (conj Hbs (conj _ (conj Hbk Hev)))).
  - destruct (process_state_map st !! e) eqn:Hs; [|now apply update_elem_size].
    now erewrite map_size_insert_Some by eauto.
  - intros p s' Hs'. destruct (process_state_map st !! e) as [s|] eqn:Hs.
    + apply lookup_insert_Some in Hs' as [[<- <-]|[_ Hs']]; [|now apply Hst].
      split; [exact Hrange|]. now apply (Hst e s).
    + apply update_elem_lookup in Hs' as [[<- ->]|Hs']; [now split|now apply Hst].
Qed.

Lemma wakeup_ok fs ctx st :
  sched_maps_ok fs st -> sched_maps_ok fs (trace_sched_wakeup ctx st).
Proof.
  intros Hok. unfold trace_sched_wakeup.
  destruct (Z.eqb_spec (wakeup_pid ctx) 0) as [Hp|Hp]; [exact Hok|].
  destruct Hok as (Hps & Hbs & Hst & Hbk & Hev).
  refine (conj Hps (conj _ (conj Hst (conj _ Hev)))); cbn [bucket_aggregates].
  - now apply update_bucket_size.
  - now apply update_bucket_keys.
Qed.

Lemma run_ok fs : sched_maps_ok fs (run fs).
Proof.
  induction fs as [|g fs IH] using rev_ind.
  - unfold run, init, sched_maps_ok. cbn [fold_left process_state_map bucket_aggregates events].
    rewrite !map_size_empty.
    refine (conj _ (conj _ (conj _ (conj _ _)))); try lia.
    + intros p s Hs. rewrite lookup_empty in Hs. discriminate.
    + intros k b Hb. rewrite lookup_empty in Hb. discriminate.
    + intros b Hb. now apply not_elem_of_nil in Hb.
  - rewrite run_snoc. apply (sched_maps_ok_mono fs g) in IH.
    destruct g as [ctx|ctx]; cbn [fire]; [|now apply wakeup_ok].
    assert (Hin : SchedSwitch ctx ∈ fs ++ [SchedSwitch ctx])
      by (apply elem_of_app; right; apply list_elem_of_here).
    unfold trace_sched_switch. apply switch_in_ok; [exact Hin|].
    now apply switch_out_ok.
Qed.

(** X13. Along every run of the two scheduler tracepoints from empty
    maps, whatever the clock does, neither hash map holds more than its
    10240 entries; the idle task (pid 0) has no state, no bucket and no
    submitted record; every state is kept under a pid that fits 32 bits;
    and every bucket is stored under its own pid and window. *)
Theorem sched_run_bounds (fs : list firing) :
  let st := run fs in
  (size (process_state_map st) <= map_max_entries)%nat /\
  (size (bucket_aggregates st) <= map_max_entries)%nat /\
  (forall p s, process_state_map st !! p = Some s -> 0 < p < 2 ^ 32) /\
  (forall p w b, bucket_aggregates st !! (p, w) = Some b ->
     p <> 0 /\ pid b = p /\ time_bucket b = w) /\
  (forall b, b ∈ events st -> 0 < pid b < 2 ^ 32).
Proof.
  destruct (run_ok fs) as (Hps & Hbs & Hst & Hbk & Hev). cbv zeta.
  refine (conj Hps (conj Hbs (conj _ (conj _ _)))).
  - intros p s Hs. now apply (Hst p s).
  - intros p w b Hb. destruct (Hbk _ _ Hb) as (Hp & Hw & H0). now repeat split.
  - intros b Hb. now apply (Hev b).
Qed.

Lemma sched_run_bounds_witness :
  let st := run [switch_away 5200000000 true; switch_away 7100000000 true] in
  one_switch 5 ∈ events st /\ 0 < pid (one_switch 5) < 2 ^ 32 /\
  (size (process_state_map st) <= map_max_entries)%nat.
Proof.
  cbv zeta.
  destruct (sched_run_bounds [switch_away 5200000000 true; switch_away 7100000000 true])
    as (Hps & _ & _ & _ & Hev).
  assert (Hin : one_switch 5 ∈
                events (run [switch_away 5200000000 true; switch_away 7100000000 true]))
    by (vm_compute; apply list_elem_of_here).
  split; [exact Hin|]. split; [exact (Hev _ Hin)|exact Hps].
Defined.

(** X14. Every submitted record is of a window other than window 0 in
    which some switch of the run had the record's task as its outgoing
    or incoming task: the windows in which a task was only woken are
    never submitted, and neither is anything of the first second of the
    clock. *)
Theorem emitted_window_of_a_switch (fs : list firing) (b : bucket_stats) :
  b ∈ events (run fs) ->
  time_bucket b <> 0 /\
  exists ctx,
    SchedSwitch ctx ∈ fs /\ switch_ktime ctx / NSEC_PER_SEC = time_bucket b /\
    (to_u32 (prev_pid ctx) = pid b \/ to_u32 (next_pid ctx) = pid b).
Proof.
  intros Hb. destruct (run_ok fs) as (_ & _ & _ & _ & Hev).
  destruct (Hev b Hb) as (_ & Hw & Hsw). now split.
Qed.

Lemma emitted_window_of_a_switch_witness :
  let fs := [switch_away 5200000000 true; switch_away 7100000000 true] in
  one_switch 5 ∈ events (run fs) /\
  time_bucket (one_switch 5) <> 0 /\
  exists ctx,
    SchedSwitch ctx ∈ fs /\ switch_ktime ctx / NSEC_PER_SEC = time_bucket (one_switch 5) /\
    (to_u32 (prev_pid ctx) = pid (one_switch 5) \/
     to_u32 (next_pid ctx) = pid (one_switch 5)).
Proof.
  cbv zeta.
  assert (Hin : one_switch 5 ∈
                events (run [switch_away 5200000000 true; switch_away 7100000000 true]))
    by (vm_compute; apply list_elem_of_here).
  split; [exact Hin|]. exact (emitted_window_of_a_switch _ _ Hin).
Defined.

(** *** A full state map *)

(** One firing on a full state map: the map keeps its size and its
    domain. *)
Lemma switch_out_full ctx st :
  (map_max_entries <= size (process_state_map st))%nat ->
  size (process_state_map (switch_out ctx st)) = size (process_state_map st) /\
  forall q, process_state_map (switch_out ctx st) !! q = None <->
            process_state_map st !! q = None.
Proof.
  intros Hfull.
  destruct (Z.lt_ge_cases 0 (to_u32 (prev_pid ctx))) as [He|He];
    [|now rewrite switch_out_idle by lia].
  destruct (switch_out_cases ctx st He) as (psm & buckets & ring & ct & -> & Hcase).
  cbn [process_state_map].
  destruct (process_state_map st !! to_u32 (prev_pid ctx)) as [s|] eqn:Hs.
  - destruct Hcase as [-> _]. now apply (insert_existing_domain _ _ _ s).
  - destruct Hcase as [-> _]. now apply update_elem_full_domain.
Qed.

Lemma switch_in_full ctx st :
  (map_max_entries <= size (process_state_map st))%nat ->
  size (process_state_map (switch_in ctx st)) = size (process_state_map st) /\
  forall q, process_state_map (switch_in ctx st) !! q = None <->
            process_state_map st !! q = None.
Proof.
  intros Hfull.
  destruct (Z.lt_ge_cases 0 (to_u32 (next_pid ctx))) as [He|He];
    [|now rewrite switch_in_idle by lia].
  rewrite switch_in_states by trivial.
  destruct (process_state_map st !! to_u32 (next_pid ctx)) as [s|] eqn:Hs.
  - now apply (insert_existing_domain _ _ _ s).
  - now apply update_elem_full_domain.
Qed.

Lemma fire_full st g :
  (map_max_entries <= size (process_state_map st))%nat ->
  size (process_state_map (fire st g)) = size (process_state_map st) /\
  forall q, process_state_map (fire st g) !! q = None <->
            process_state_map st !! q = None.
Proof.
  intros Hfull. destruct g as [ctx|ctx]; cbn [fire].
  - unfold trace_sched_switch.
    destruct (switch_out_full ctx st Hfull) as [Hsize Hdom].
    destruct (switch_in_full ctx (switch_out ctx st)) as [Hsize' Hdom']; [lia|].
    split; [lia|]. intros q. now rewrite Hdom', Hdom.
  - destruct (wakeup_no_rollover ctx st) as [_ ->]. now split.
Qed.

(** X15. The state map only grows, so once it holds its 10240 tasks a
    task without a state never gets one, whatever fires afterwards, and
    no record is ever submitted for it: every record of that task in the
    ring buffer was there before. *)
Theorem full_state_map_ignores_new_tasks (fs gs : list firing) (p : Z) :
  (map_max_entries <= size (process_state_map (run fs)))%nat ->
  process_state_map (run fs) !! p = None ->
  process_state_map (run (fs ++ gs)) !! p = None /\
  (forall b, b ∈ events (run (fs ++ gs)) -> pid b = p -> b ∈ events (run fs)).
Proof.
  intros Hfull Hp.
  assert (Hinv :
    size (process_state_map (run (fs ++ gs))) = size (process_state_map (run fs)) /\
    process_state_map (run (fs ++ gs)) !! p = None /\
    (forall b, b ∈ events (run (fs ++ gs)) -> pid b = p -> b ∈ events (run fs))).
  { induction gs as [|g gs IH] using rev_ind.
    - rewrite app_nil_r. now repeat split.
    - destruct IH as (Hsize & Habs & Hev).
      rewrite app_assoc, run_snoc.
      destruct (fire_full (run (fs ++ gs)) g) as [Hsize' Hdom]; [lia|].
      split; [lia|]. split; [now apply Hdom|].
      intros b Hb Hpid.
      destruct (fire_events (run (fs ++ gs)) g)
        as [Hsame|(ctx & s & old & _ & _ & _ & Hs & _ & _ & Hold & Hnew & _)].
      + rewrite Hsame in Hb. now apply Hev.
      + rewrite Hnew in Hb. apply elem_of_app in Hb as [Hb|Hb]; [now apply Hev|].
        apply list_elem_of_singleton in Hb as ->.
        destruct (run_ok (fs ++ gs)) as (_ & _ & _ & Hbk & _).
        destruct (Hbk _ _ Hold) as (Hkey & _). cbn [fst] in Hkey.
        rewrite Hkey in Hpid. rewrite Hpid in Hs. congruence. }
  destruct Hinv as (_ & Habs & Hev). now split.
Qed.

(** The state map after the tasks 1 to [n] have left the CPU once. *)
Lemma fill_upto_states n :
  (n <= map_max_entries)%nat ->
  size (process_state_map (run (fill_upto n))) = n /\
  forall q, 1 <= q <= Z.of_nat n \/ process_state_map (run (fill_upto n)) !! q = None.
Proof.
  induction n as [|n IH]; intros Hn.
  - split; [reflexivity|]. intros q. right. reflexivity.
  - destruct IH as [Hsize Hdom]; [lia|].
    assert (Hsnoc : fill_upto (S n) = fill_upto n ++ [leave (1 + Z.of_nat n) 1500000000]).
    { unfold fill_upto. rewrite Nat2Z.inj_succ, <- Z.add_1_r.
      rewrite seqZ_app by lia. rewrite fmap_app. now f_equal. }
    rewrite Hsnoc, run_snoc. set (st := run (fill_upto n)) in *.
    unfold leave. cbn [fire]. unfold trace_sched_switch.
    rewrite switch_in_idle by (cbn [next_pid]; unfold to_u32; rewrite Z.mod_0_l; lia).
    assert (Hmax : Z.of_nat map_max_entries = 10240) by reflexivity.
    assert (He : to_u32 (1 + Z.of_nat n) = 1 + Z.of_nat n) by (apply to_u32_small; lia).
    match goal with |- context [switch_out ?c st] =>
      destruct (switch_out_cases c st) as (psm & buckets & ring & ct & -> & Hcase)
    end; cbn [prev_pid] in *; [lia|].
    rewrite He in Hcase. cbn [process_state_map].
    destruct (Hdom (1 + Z.of_nat n)) as [Hq|Hnone]; [lia|].
    rewrite Hnone in Hcase. destruct Hcase as (-> & _ & _).
    rewrite update_elem_room by lia.
    split; [rewrite map_size_insert_None by trivial; lia|].
    intros q. destruct (Hdom q) as [Hq|Hq]; [left; lia|].
    destruct (decide (q = 1 + Z.of_nat n)) as [->|Hne]; [left; lia|].
    right. now rewrite lookup_insert_ne by congruence.
Qed.

Lemma full_state_map_ignores_new_tasks_witness :
  process_state_map (run (fill_states ++ [leave 20000 2500000000; leave 20000 3500000000]))
    !! 20000 = None /\
  forall b, b ∈ events (run (fill_states ++
                             [leave 20000 2500000000; leave 20000 3500000000])) ->
            pid b = 20000 -> b ∈ events (run fill_states).
Proof.
  destruct (fill_upto_states map_max_entries) as [Hsize Hdom]; [lia|].
  apply full_state_map_ignores_new_tasks.
  - unfold fill_states. rewrite Hsize. lia.
  - unfold fill_states. destruct (Hdom 20000) as [Hq|Hq]; [|exact Hq].
    exfalso. change (Z.of_nat map_max_entries) with 10240 in Hq. lia.
Defined.

(** *** Time slices *)

(** The bucket map after [switch_out] for an outgoing task with state
    [s]: the bucket of an older window is removed first, then the
    bucket of the current window is charged the time slice. *)
Lemma switch_out_tracked ctx st s :
  let e := to_u32 (prev_pid ctx) in
  let w := switch_ktime ctx / NSEC_PER_SEC in
  0 < e ->
  process_state_map st !! e = Some s ->
  exists buckets,
    bucket_aggregates (switch_out ctx st) =
      update_bucket_stats e w (time_slice (switch_ktime ctx) s)
        (negb (to_u32 (prev_state ctx) =? 0)) false (prev_comm ctx) buckets /\
    buckets !! (e, w) = bucket_aggregates st !! (e, w) /\
    (size buckets <= size (bucket_aggregates st))%nat.
Proof.
  intros e w He Hs. unfold switch_out. fold e w.
  apply Z.ltb_lt in He. rewrite He. unfold bpf_map_lookup_elem, bpf_map_delete_elem.
  rewrite Hs. fold (time_slice (switch_ktime ctx) s).
  destruct (Z.eqb_spec (last_bucket s) 0) as [H0|H0];
    destruct (Z.eqb_spec (last_bucket s) w) as [Hw|Hw]; cbn [negb andb];
    try (exists (bucket_aggregates st); split; [reflexivity|]; split; [reflexivity|lia]).
  destruct (bucket_aggregates st !! (e, last_bucket s)) as [old|] eqn:Hold;
    [|exists (bucket_aggregates st); split; [reflexivity|]; split; [reflexivity|lia]].
  exists (delete (e, last_bucket s) (bucket_aggregates st)).
  split; [reflexivity|]. split.
  - apply lookup_delete_ne. congruence.
  - rewrite map_size_delete, Hold. cbn. lia.
Qed.

(** The state map after [switch_out] keeps every task and takes at most
    one more. *)
Lemma switch_out_states ctx st :
  (size (process_state_map (switch_out ctx st)) <= S (size (process_state_map st)))%nat /\
  forall q, is_Some (process_state_map st !! q) ->
            is_Some (process_state_map (switch_out ctx st) !! q).
Proof.
  destruct (Z.lt_ge_cases 0 (to_u32 (prev_pid ctx))) as [He|He];
    [|rewrite switch_out_idle by lia; split; [lia|trivial]].
  destruct (switch_out_cases ctx st He) as (psm & buckets & ring & ct & -> & Hcase).
  cbn [process_state_map].
  destruct (process_state_map st !! to_u32 (prev_pid ctx)) as [s|] eqn:Hs.
  - destruct Hcase as [-> _]. split.
    + erewrite map_size_insert_Some by eauto. lia.
    + intros q [x Hq]. destruct (decide (to_u32 (prev_pid ctx) = q)) as [<-|Hne].
      * rewrite lookup_insert_eq. eauto.
      * rewrite lookup_insert_ne by trivial. eauto.
  - destruct Hcase as (-> & _). split; [apply update_elem_size_le|].
    intros q [x Hq]. now apply (update_elem_keeps _ _ _ _ _ x).
Qed.

(** X16. The time slice of a task is counted from its last switch-in.
    When a switch gives the CPU to task [p] at [t0 > 0] (its state is
    there already, or the state map has room for two more) and the next
    firing is the switch that takes the CPU from it at [t1], the bucket
    of [p] for the window of [t1] is charged [t1 - t0] (64-bit): an
    existing bucket has the amount added to both of its time sums and
    one more time slice counted; a new bucket, if the bucket map has
    room, starts with that amount and one time slice. *)
Theorem time_slice_from_last_switch_in
    (st : sched_maps) (ctx_in ctx_out : sched_switch) :
  let p := to_u32 (next_pid ctx_in) in
  let t0 := switch_ktime ctx_in in
  let t1 := switch_ktime ctx_out in
  let w1 := t1 / NSEC_PER_SEC in
  let st1 := trace_sched_switch ctx_in st in
  let st2 := trace_sched_switch ctx_out st1 in
  0 < p ->
  to_u32 (prev_pid ctx_out) = p ->
  0 < t0 ->
  is_Some (process_state_map st !! p) \/
    (size (process_state_map st) + 1 < map_max_entries)%nat ->
  match bucket_aggregates st1 !! (p, w1) with
  | Some old =>
      exists b,
        bucket_aggregates st2 !! (p, w1) = Some b /\
        cpu_time_ns b = to_u64 (cpu_time_ns old + to_u64 (t1 - t0)) /\
        total_timeslice_ns b = to_u64 (total_timeslice_ns old + to_u64 (t1 - t0)) /\
        timeslice_count b = to_u32 (timeslice_count old + 1) /\
        wakeups b = wakeups old
  | None =>
      (size (bucket_aggregates st1) < map_max_entries)%nat ->
      exists b,
        bucket_aggregates st2 !! (p, w1) = Some b /\
        cpu_time_ns b = to_u64 (t1 - t0) /\
        total_timeslice_ns b = to_u64 (t1 - t0) /\
        timeslice_count b = 1 /\
        wakeups b = 0
  end.
Proof.
  intros p t0 t1 w1 st1 st2 Hp Hout Ht0 Htracked.
  assert (Hs1 : exists s1, process_state_map st1 !! p = Some s1 /\ last_switch_ts s1 = t0).
  { unfold st1, trace_sched_switch. rewrite switch_in_states by exact Hp. fold p.
    destruct (switch_out_states ctx_in st) as [Hsize Hkeep].
    destruct (process_state_map (switch_out ctx_in st) !! p) as [s|] eqn:Hs.
    - eexists. split; [apply lookup_insert_eq|reflexivity].
    - assert (Hroom : is_Some (process_state_map (switch_out ctx_in st) !! p) \/
                      (size (process_state_map (switch_out ctx_in st)) < map_max_entries)%nat).
      { destruct Htracked as [Hsome|Hroom]; [left; now apply Hkeep|right; lia]. }
      eexists. split; [now apply update_elem_stored|reflexivity]. }
  destruct Hs1 as (s1 & Hs1 & Hts).
  assert (Hslice : time_slice t1 s1 = to_u64 (t1 - t0)).
  { unfold time_slice. rewrite Hts. now destruct (Z.ltb_spec 0 t0); [|lia]. }
  unfold st2, trace_sched_switch. rewrite switch_in_buckets.
  rewrite <- Hout in Hs1, Hp.
  destruct (switch_out_tracked ctx_out st1 s1 Hp Hs1) as (buckets & -> & Hsame & Hsize).
  fold t1 w1. rewrite Hslice. rewrite Hout in *.
  change (buckets !! (p, w1) = bucket_aggregates st1 !! (p, w1)) in Hsame.
  rewrite <- Hsame.
  unfold update_bucket_stats, bpf_map_lookup_elem.
  destruct (buckets !! (p, w1)) as [old|] eqn:Hold.
  - eexists. split; [apply lookup_insert_eq|]. now cbn.
  - intros Hroom. eexists. split; [apply update_elem_stored; right; lia|]. now cbn.
Qed.

Lemma time_slice_from_last_switch_in_witness :
  exists b,
    bucket_aggregates (trace_sched_switch (take_cpu 2700000000)
                         (trace_sched_switch (give_cpu 2200000000) init))
      !! (100, 2) = Some b /\
    cpu_time_ns b = 500000000 /\ timeslice_count b = 1.
Proof.
  pose proof (time_slice_from_last_switch_in init (give_cpu 2200000000)
                (take_cpu 2700000000)) as Hslice.
  cbv zeta in Hslice.
  specialize (Hslice ltac:(vm_compute; reflexivity) eq_refl ltac:(vm_compute; reflexivity)).
  destruct Hslice as (b & Hb & Hcpu & _ & Hcount & _);
    [right; vm_compute; lia | vm_compute; lia |].
  exists b. split; [exact Hb|]. split; [exact Hcpu|exact Hcount].
Defined.

End SchedRunFacts.
